(** * anyreduce: a shallow embedding of the reduction engine

    Embeds [src/anyreduce/sequencepasses.py] ([find_integer],
    [linear_reduce]) and the parts of [src/anyreduce/reducer.py] that the
    properties below are about: [cache_key] (SHA-1 based fingerprints),
    [sort_key], the cached [predicate], [attempt], [__init__],
    [find_paired_brackets], [reduce_by_delimiter], the [reduce] driver
    (its loop body seen as a deterministic strategy that reads [current]
    and calls [predicate] or [attempt]), the point-substitution loop of
    [attempt_typedef_substitutions], and the passes that need no regular
    expression: [to_bs], [remove_byte], [reduce_by_bytes], [prefix_lines],
    [attempt_delete_many_sets], [kill_strings], [debracket],
    [delete_bracket_contents] and [reduce_by_all_delimiters].

    Python callbacks that may be called repeatedly are modelled as pure
    functions together with an explicit log of the arguments they were
    called with, so that statements about "which calls were made" can be
    expressed.  Python [while] loops are modelled with a fuel argument: a
    run that returns [None] ran out of fuel. *)

From Stdlib Require Import ZArith Lia Bool.
From stdpp Require Import base list gmap strings.
From Stdlib Require Import Strings.Byte.
From Stdlib Require Strings.String.
From Stdlib Require Import Sorting.Sorted.

Open Scope nat_scope.

(* ================================================================== *)
(** ** [find_integer] (sequencepasses.py, lines 1-35) *)
(* ================================================================== *)

Module FindInteger.

Section Stateful.

(** The callback [f] may be stateful (it is the cached predicate in
    [linear_reduce] and [attempt_delete_many_sets]): [f k s] is [f(k)]
    together with the state after the call. *)
Variable St : Type.

(** [for i in range(1, 5): if not f(i): return i - 1].  [inl] is an early
    return, [inr] falls through to the exponential probe. *)
Fixpoint linear_scan (f : nat -> St -> bool * St) (is : list nat) (s : St)
  : (nat * St) + St :=
  match is with
  | [] => inr s
  | i :: is' =>
      let (r, s') := f i s in
      if r then linear_scan f is' s' else inl (i - 1, s')
  end.

(** [while f(hi): lo = hi; hi *= 2] *)
Fixpoint probe_up (fuel : nat) (f : nat -> St -> bool * St) (lo hi : nat)
    (s : St) : option (nat * nat * St) :=
  match fuel with
  | O => None
  | S fuel' =>
      let (r, s') := f hi s in
      if r then probe_up fuel' f hi (hi * 2) s' else Some (lo, hi, s')
  end.

(** [while lo + 1 < hi: mid = (lo + hi) // 2; if f(mid): lo = mid
    else: hi = mid] *)
Fixpoint bisect (fuel : nat) (f : nat -> St -> bool * St) (lo hi : nat)
    (s : St) : option (nat * St) :=
  if lo + 1 <? hi then
    match fuel with
    | O => None
    | S fuel' =>
        let mid := (lo + hi) / 2 in
        let (r, s') := f mid s in
        if r then bisect fuel' f mid hi s' else bisect fuel' f lo mid s'
    end
  else Some (lo, s).

(** The whole function: the result and the state after the search. *)
Definition find_integer (fuel : nat) (f : nat -> St -> bool * St) (s : St)
  : option (nat * St) :=
  match linear_scan f [1; 2; 3; 4] s with
  | inl r => Some r
  | inr s' =>
      match probe_up fuel f 4 5 s' with
      | None => None
      | Some (lo, hi, s'') => bisect fuel f lo hi s''
      end
  end.

End Stateful.

Arguments linear_scan {St}.
Arguments probe_up {St}.
Arguments bisect {St}.
Arguments find_integer {St}.

(** A pure [f] observed through the log of the arguments it is called with,
    in call order. *)
Definition logged (f : nat -> bool) (k : nat) (calls : list nat)
  : bool * list nat :=
  (f k, calls ++ [k]).

Definition non_increasing (f : nat -> bool) : Prop :=
  forall a b, a <= b -> f b = true -> f a = true.

(** Every argument logged is at least 1 and lies outside the open interval
    [(lo, hi)] that the search still has to explore. *)
Definition outside (lo hi : nat) (calls : list nat) : Prop :=
  forall x, In x calls -> 1 <= x /\ (x <= lo \/ hi <= x).

End FindInteger.

(* ================================================================== *)
(** ** [linear_reduce] (sequencepasses.py, lines 38-73) *)
(* ================================================================== *)

Module LinearReduce.
Import FindInteger.

Section WithPredicate.

(** Elements of the sequence, and the state the (stateful) predicate
    threads: [predicate s ls] is [predicate(ls)] and the state after the
    call. *)
Variables (A St : Type).
Variable predicate : St -> list A -> bool * St.

(** [del l[n]] *)
Definition delete_at (n : nat) (l : list A) : list A := firstn n l ++ skipn (S n) l.

(** [for offset in [2, 3]: if i + offset <= len(sequence): attempt =
    prefix + sequence[i + offset:]; if predicate(attempt): sequence =
    attempt; break] *)
Fixpoint fallback (offsets : list nat) (i : nat) (prefix sequence : list A)
    (s : St) : list A * St :=
  match offsets with
  | [] => (sequence, s)
  | offset :: offsets' =>
      if i + offset <=? length sequence then
        let attempt := prefix ++ skipn (i + offset) sequence in
        let (r, s') := predicate s attempt in
        if r then (attempt, s') else fallback offsets' i prefix sequence s'
      else fallback offsets' i prefix sequence s
  end.

(** The [find_integer] callback [lambda k: i + k <= len(sequence) and
    predicate(prefix + sequence[i + k:])], with Python's short-circuit. *)
Definition probe (i : nat) (prefix sequence : list A) (k : nat) (s : St)
  : bool * St :=
  if i + k <=? length sequence
  then predicate s (prefix ++ skipn (i + k) sequence)
  else (false, s).

(** [while i < len(sequence): ...]: one fuel unit per iteration, the same
    fuel bounding the loops of [find_integer].  The [break] after a
    successful pair deletion leaves the loop, so the function returns. *)
Fixpoint loop (fuel : nat) (i : nat) (sequence : list A) (s : St)
  : option (list A * St) :=
  match fuel with
  | O => None
  | S fuel' =>
      if i <? length sequence then
        let prev := sequence in
        let prefix := firstn i sequence in
        match find_integer fuel' (probe i prefix sequence) s with
        | None => None
        | Some (n, s1) =>
            let '(sequence1, s2) :=
              if 0 <? n then (prefix ++ skipn (i + n) sequence, s1)
              else fallback [2; 3] i prefix sequence s1 in
            let next sequence' s' :=
              let i' := if length prev =? length sequence' then S i else i - 1 in
              loop fuel' i' sequence' s' in
            if i + 2 <? length sequence1 then
              let attempt := delete_at i (delete_at (i + 2) sequence1) in
              let (r, s3) := predicate s2 attempt in
              if r then Some (attempt, s3) else next sequence1 s3
            else next sequence1 s2
        end
      else Some (sequence, s)
  end.

(** [linear_reduce(sequence, predicate)], starting with cursor [i = 0]. *)
Definition linear_reduce (fuel : nat) (sequence : list A) (s : St)
  : option (list A * St) :=
  loop fuel 0 sequence s.

End WithPredicate.

Arguments delete_at {A}.
Arguments fallback {A St}.
Arguments probe {A St}.
Arguments loop {A St}.
Arguments linear_reduce {A St}.

(** A pure predicate observed through the log of the candidates it is
    called on, in call order. *)
Definition logged {A} (p : list A -> bool) (calls : list (list A)) (c : list A)
  : bool * list (list A) :=
  (p c, calls ++ [c]).

(** Equality test on lists of naturals, for example predicates. *)
Definition list_nat_eqb (x y : list nat) : bool :=
  bool_decide (x = y).

End LinearReduce.

(* ================================================================== *)
(** ** Byte strings, [sort_key] and [cache_key] (reducer.py, lines 10-15) *)
(* ================================================================== *)

Module Bytes.

(** Python [bytes]. *)
Definition bytes := list Byte.byte.

(** Byte literals written as Rocq strings. *)
Definition b (s : string) : bytes := String.list_byte_of_string s.

Definition byte_val (c : Byte.byte) : Z := Z.of_N (Byte.to_N c).

(** Python's comparison of two [bytes] objects: lexicographic on the
    unsigned byte values, a proper prefix being smaller. *)
Fixpoint lex_compare (x y : bytes) : comparison :=
  match x, y with
  | [], [] => Eq
  | [], _ :: _ => Lt
  | _ :: _, [] => Gt
  | c :: x', d :: y' =>
      match Z.compare (byte_val c) (byte_val d) with
      | Eq => lex_compare x' y'
      | r => r
      end
  end.

(** [sort_key(b) = (len(b), b)] compared as a Python tuple. *)
Definition sort_key_compare (x y : bytes) : comparison :=
  match Nat.compare (length x) (length y) with
  | Eq => lex_compare x y
  | r => r
  end.

(** [sort_key(x) < sort_key(y)] *)
Definition sort_key_lt (x y : bytes) : bool :=
  match sort_key_compare x y with Lt => true | _ => false end.

(** [sort_key(x) <= sort_key(y)] *)
Definition sort_key_le (x y : bytes) : bool :=
  match sort_key_compare x y with Gt => false | _ => true end.

Definition bytes_eqb (x y : bytes) : bool :=
  match lex_compare x y with Eq => true | _ => false end.

(** [b"".join(parts)] with separator [d]: [d.join(parts)]. *)
Fixpoint join (d : bytes) (parts : list bytes) : bytes :=
  match parts with
  | [] => []
  | [p] => p
  | p :: ps => p ++ d ++ join d ps
  end.

Fixpoint is_prefix (x y : bytes) : bool :=
  match x, y with
  | [], _ => true
  | c :: x', d :: y' => Byte.eqb c d && is_prefix x' y'
  | _ :: _, [] => false
  end.

(** [s.split(sep)] for a non-empty separator: the pieces between the
    non-overlapping occurrences of [sep], scanning left to right.  [acc] is
    the reversed current piece; [n] bounds the recursion by [len(s)]. *)
Fixpoint split_go (sep : bytes) (n : nat) (s acc : bytes) : list bytes :=
  match n with
  | O => [rev acc ++ s]
  | S n' =>
      match s with
      | [] => [rev acc]
      | c :: s' =>
          if is_prefix sep s then rev acc :: split_go sep n' (skipn (length sep) s) []
          else split_go sep n' s' (c :: acc)
      end
  end.

(** [s.split(sep)]: [None] is the [ValueError("empty separator")] that
    Python raises for [sep == b""]. *)
Definition split (sep s : bytes) : option (list bytes) :=
  match sep with
  | [] => None
  | _ => Some (split_go sep (length s) s [])
  end.

(** [filter(None, parts)]: the non-empty parts. *)
Definition nonempty_parts (parts : list bytes) : list bytes :=
  List.filter (fun p => match p with [] => false | _ => true end) parts.

End Bytes.

Module Sha1.
Import Bytes.
Open Scope Z_scope.

(** SHA-1 (FIPS 180-4) over 32-bit words represented as [Z] in
    [[0, 2^32)], with the wrap-around of every addition written out. *)
Definition w32 (z : Z) : Z := Z.land z (Z.ones 32).
Definition rotl (x n : Z) : Z := w32 (Z.lor (Z.shiftl x n) (Z.shiftr x (32 - n))).
Definition add32 (x y : Z) : Z := w32 (x + y).
Definition not32 (x : Z) : Z := Z.lxor x (Z.ones 32).

(** Message padding: [0x80], zero bytes up to 56 mod 64, then the bit
    length as a big-endian 64-bit integer. *)
Definition be_bytes (k : nat) (z : Z) : list Z :=
  map (fun i => Z.land (Z.shiftr z (8 * Z.of_nat (k - 1 - i))) 255) (seq 0 k).

Definition pad (m : list Z) : list Z :=
  let l := Z.of_nat (length m) in
  m ++ [128] ++ repeat 0 (Z.to_nat ((55 - l) mod 64)) ++ be_bytes 8 (8 * l).

Fixpoint words (m : list Z) (n : nat) : list Z :=
  match n with
  | O => []
  | S n' =>
      match m with
      | a :: b0 :: c :: d :: m' =>
          Z.lor (Z.shiftl a 24) (Z.lor (Z.shiftl b0 16) (Z.lor (Z.shiftl c 8) d))
            :: words m' n'
      | _ => []
      end
  end.

(** The 80-word message schedule of one block. *)
Fixpoint schedule (w : list Z) (n : nat) : list Z :=
  match n with
  | O => w
  | S n' =>
      let i := length w in
      let get j := nth (i - j) w 0 in
      schedule (w ++ [rotl (Z.lxor (get 3%nat) (Z.lxor (get 8%nat)
                         (Z.lxor (get 14%nat) (get 16%nat)))) 1]) n'
  end.

Definition round (st : Z * Z * Z * Z * Z) (iw : nat * Z) : Z * Z * Z * Z * Z :=
  let '(a, b0, c, d, e) := st in
  let '(i, w) := iw in
  let '(f, k) :=
    if (i <? 20)%nat then (Z.lor (Z.land b0 c) (Z.land (not32 b0) d), 1518500249)
    else if (i <? 40)%nat then (Z.lxor b0 (Z.lxor c d), 1859775393)
    else if (i <? 60)%nat then
      (Z.lor (Z.land b0 c) (Z.lor (Z.land b0 d) (Z.land c d)), 2400959708)
    else (Z.lxor b0 (Z.lxor c d), 3395469782) in
  let t := add32 (add32 (add32 (add32 (rotl a 5) f) e) k) w in
  (t, a, rotl b0 30, c, d).

Definition compress (h : Z * Z * Z * Z * Z) (block : list Z) : Z * Z * Z * Z * Z :=
  let w := schedule (words block 16) 64 in
  let '(a, b0, c, d, e) := fold_left round (combine (seq 0 80) w) h in
  let '(h0, h1, h2, h3, h4) := h in
  (add32 h0 a, add32 h1 b0, add32 h2 c, add32 h3 d, add32 h4 e).

Fixpoint blocks (m : list Z) (n : nat) : list (list Z) :=
  match n with
  | O => []
  | S n' => match m with [] => [] | _ => firstn 64 m :: blocks (skipn 64 m) n' end
  end.

Definition sha1_words (m : bytes) : Z * Z * Z * Z * Z :=
  let p := pad (map byte_val m) in
  fold_left compress (blocks p (length p))
    (1732584193, 4023233417, 2562383102, 271733878, 3285377520).

End Sha1.

Module Engine.
Import Bytes.

(** [cache_key(value) = int.from_bytes(sha1(value).digest()[:8], "big")]:
    the first two digest words. *)
Definition cache_key (v : bytes) : Z :=
  let '(h0, h1, _, _, _) := Sha1.sha1_words v in
  Z.lor (Z.shiftl h0 32) h1.

(** The state of a [Reducer]: [self.current] and [self.__cache].  The
    external predicate is passed around as [ext]; it is a total
    deterministic function, as the spec assumes. *)
Record engine := mk_engine {
  current : bytes;
  cache : gmap Z bool;
}.

(** [Reducer.__init__]: [None] is the [ValueError] raised when the
    predicate rejects the initial value. *)
Definition init (ext : bytes -> bool) (initial : bytes) : option engine :=
  let result := ext initial in
  if negb result then None
  else Some {| current := initial;
               cache := <[cache_key initial := result]> (∅ : gmap Z bool) |}.

(** [Reducer.predicate]: the cached predicate. *)
Definition predicate (ext : bytes -> bool) (s : engine) (value : bytes)
  : bool * engine :=
  let key := cache_key value in
  match cache s !! key with
  | Some r => (r, s)
  | None =>
      let result := ext value in
      let cur := if result && sort_key_lt value (current s)
                 then value else current s in
      (result, {| current := cur; cache := <[key := result]> (cache s) |})
  end.

(** [Reducer.attempt]: [sort_key(value) < sort_key(self.current) and
    self.predicate(value)], with Python's short-circuit. *)
Definition attempt (ext : bytes -> bool) (s : engine) (value : bytes)
  : bool * engine :=
  if sort_key_lt value (current s) then predicate ext s value else (false, s).

(** Whether a call of [predicate] on [value] reaches the external
    predicate (a cache miss). *)
Definition calls_external (s : engine) (value : bytes) : bool :=
  match cache s !! cache_key value with None => true | Some _ => false end.

(** A run of the engine seen through its only state-changing operation: a
    sequence of calls of [predicate].  Returns the final state, the answers
    given, and the values the external predicate was called on. *)
Fixpoint run (ext : bytes -> bool) (s : engine) (vs : list bytes)
  : engine * list bool * list bytes :=
  match vs with
  | [] => (s, [], [])
  | v :: vs' =>
      let ext_call := if calls_external s v then [v] else [] in
      let '(r, s1) := predicate ext s v in
      let '(s2, answers, calls) := run ext s1 vs' in
      (s2, r :: answers, ext_call ++ calls)
  end.

(** The first verdict observed for the fingerprint of [v] in a run on [vs]
    that starts from cache [c]: the cached verdict, if any, else the
    external verdict on the first value of [vs] with that fingerprint. *)
Definition first_answer (ext : bytes -> bool) (c : gmap Z bool)
    (vs : list bytes) (v : bytes) : bool :=
  match c !! cache_key v with
  | Some r => r
  | None =>
      match List.find (fun w => Z.eqb (cache_key w) (cache_key v)) vs with
      | Some w => ext w
      | None => ext v
      end
  end.

(** The two entry points a pass uses to query the engine: a direct call
    of [self.predicate(v)] or a call of [self.attempt(v)]. *)
Inductive call :=
| Predicate (v : bytes)
| Attempt (v : bytes).

Definition call_value (c : call) : bytes :=
  match c with Predicate v => v | Attempt v => v end.

Definition step (ext : bytes -> bool) (s : engine) (c : call) : bool * engine :=
  match c with
  | Predicate v => predicate ext s v
  | Attempt v => attempt ext s v
  end.

(** The trace of a sequence of calls: for each call, the state before it,
    the call, its answer and the state after it. *)
Fixpoint trace (ext : bytes -> bool) (s : engine) (cs : list call)
  : list (engine * call * bool * engine) :=
  match cs with
  | [] => []
  | c :: cs' =>
      let '(r, s1) := step ext s c in
      (s, c, r, s1) :: trace ext s1 cs'
  end.

(** The state after a sequence of calls. *)
Definition after (ext : bytes -> bool) (s : engine) (cs : list call) : engine :=
  fold_left (fun s c => snd (step ext s c)) cs s.

(** No two distinct values of [vs] share a fingerprint. *)
Fixpoint collision_free (vs : list bytes) : bool :=
  match vs with
  | [] => true
  | v :: vs' =>
      forallb (fun w => bytes_eqb v w || negb (Z.eqb (cache_key v) (cache_key w))) vs'
      && collision_free vs'
  end.

(** No value of [vs] other than [x] itself shares the fingerprint of [x]. *)
Definition fingerprint_unique (x : bytes) (vs : list bytes) : bool :=
  forallb (fun w => bytes_eqb w x || negb (Z.eqb (cache_key w) (cache_key x))) vs.

(** The cache is honest with respect to the values [vs]: every entry is the
    external verdict on a value of [vs] with that fingerprint, and a [True]
    entry is never smaller than [current] (the value it was recorded for
    was either adopted or not a shrink). *)
Definition honest (ext : bytes -> bool) (vs : list bytes) (s : engine) : Prop :=
  forall k r, cache s !! k = Some r ->
    exists w, In w vs /\ cache_key w = k /\ ext w = r /\
              (r = true -> sort_key_le (current s) w = true).

End Engine.

(* ================================================================== *)
(** ** [find_paired_brackets] (reducer.py, lines 117-131) *)
(* ================================================================== *)

Module Brackets.
Import Bytes.

(** [leftb] and [rightb] are the source's [left] and [right] (both names
    are constructors in Rocq).  The loop [for i, c in enumerate(target)] from index [i] on, with the
    stack (its head is the top, Python's [stack[-1]]) and the results
    emitted so far.  Returns the final stack and the results. *)
Fixpoint scan (leftb rightb : Byte.byte) (t : bytes) (i : nat)
    (stack : list nat) (results : list (nat * nat))
  : list nat * list (nat * nat) :=
  match t with
  | [] => (stack, results)
  | c :: t' =>
      if Byte.eqb c leftb then scan leftb rightb t' (S i) (i :: stack) results
      else if Byte.eqb c rightb then
        match stack with
        | [] => scan leftb rightb t' (S i) [] results
        | j :: stack' => scan leftb rightb t' (S i) stack' (results ++ [(j, i)])
        end
      else scan leftb rightb t' (S i) stack results
  end.

(** [find_paired_brackets(bracket, target)]; [None] is the [ValueError] of
    [left, right = bracket] when [bracket] is not two bytes long. *)
Definition find_paired_brackets (bracket target : bytes)
  : option (list (nat * nat)) :=
  match bracket with
  | [leftb; rightb] => Some (snd (scan leftb rightb target 0 [] []))
  | _ => None
  end.

(** The stack just before index [j] is visited. *)
Definition stack_before (leftb rightb : Byte.byte) (target : bytes) (j : nat)
  : list nat :=
  fst (scan leftb rightb (firstn j target) 0 [] []).

(** The indices a list of pairs uses as endpoints. *)
Definition endpoints (ps : list (nat * nat)) : list nat :=
  flat_map (fun p => [fst p; snd p]) ps.

(** [BRACKETS = [b"{}", b"()", b"[]"]] *)
Definition BRACKETS : list bytes := [b "{}"; b "()"; b "[]"].

(** Invariant of the scan before index [i]: every stacked index and every
    emitted pair lies before [i] and is well formed, and no index is used
    twice among the stack and the endpoints of the pairs. *)
Definition scan_inv (leftb rightb : Byte.byte) (target : bytes) (i : nat) (stack : list nat) (results : list (nat * nat)) : Prop :=
  (forall a, In a stack -> a < i /\ nth_error target a = Some leftb) /\
  (forall a b, In (a, b) results ->
     a < b < i /\ nth_error target a = Some leftb /\ nth_error target b = Some rightb) /\
  List.NoDup (stack ++ endpoints results).

End Brackets.

(* ================================================================== *)
(** ** [reduce_by_delimiter] (reducer.py, lines 320-341) *)
(* ================================================================== *)

Module Delimiter.
Import Bytes Engine LinearReduce.

(** How a call ends: with a Python exception ([ValueError] from
    [bytes.split] with an empty separator), out of fuel (inside
    [linear_reduce]), or normally, with the returned flag and the final
    state. *)
Inductive outcome :=
| Raised
| OutOfFuel
| Done (changed : bool) (s : engine).

(** [b"".join(self.current.split(delimiter))] for a one-byte delimiter:
    the value of the first [attempt]. *)
Definition undelimited (c : Byte.byte) (v : bytes) : bytes :=
  match split [c] v with Some parts => join [] parts | None => v end.

(** [reduce_by_delimiter(delimiter)].  Every call site passes a single
    byte ([b";"], [b"\n"], [b" "], [brackets[0]] or a byte of [current]),
    so [to_bs(delimiter)] is [[c]].  [prev is not self.current] is
    decided by value: [current] is only ever replaced by a strictly
    smaller, hence different, value. *)
Definition reduce_by_delimiter (ext : bytes -> bool) (fuel : nat)
    (c : Byte.byte) (s : engine) : outcome :=
  let prev := current s in
  let delimiter := [c] in
  match split delimiter (current s) with
  | None => Raised
  | Some parts =>
      let '(r1, s1) := attempt ext s (join [] parts) in
      let delimiter := if r1 then [] else delimiter in
      let '(r2, s2) := attempt ext s1 (join delimiter (nonempty_parts parts)) in
      match (if r2 then split delimiter (current s2) else Some parts) with
      | None => Raised
      | Some parts =>
          match linear_reduce
                  (fun st ls => predicate ext st (join delimiter (rev ls)))
                  fuel (rev parts) s2 with
          | None => OutOfFuel
          | Some (_, s3) => Done (negb (bytes_eqb prev (current s3))) s3
          end
      end
  end.

End Delimiter.

(* ================================================================== *)
(** ** The [reduce] driver (reducer.py, lines 378-385) *)
(* ================================================================== *)

Module Driver.
Import Bytes Engine.

Section WithPasses.

Variable ext : bytes -> bool.

(** The loop body of [reduce] ([reduce_c_like_language],
    [reduce_by_all_delimiters], [reduce_by_bytes]) is deterministic code
    whose only contact with the engine is reading [self.current] and
    calling [self.predicate] or [self.attempt]; the cache is private to
    [predicate].  It is therefore a strategy: given [current] at the start
    of the body and the answers so far, each with the value of [current]
    right after it, [body] yields the next call, or [None] when the body
    returns. *)
Variable body : bytes -> list (bool * bytes) -> option call.

(** One execution of the loop body, one fuel unit per call. *)
Fixpoint run_body (c0 : bytes) (fuel : nat) (hist : list (bool * bytes))
    (s : engine) : option engine :=
  match fuel with
  | O => None
  | S fuel' =>
      match body c0 hist with
      | None => Some s
      | Some c =>
          let '(r, s1) := step ext s c in
          run_body c0 fuel' (hist ++ [(r, current s1)]) s1
      end
  end.

Definition run_pass (fuel : nat) (s : engine) : option engine :=
  run_body (current s) fuel [] s.

(** [prev = None; while prev is not self.current: prev = self.current;
    <body>].  [current] is only ever replaced by a strictly smaller, hence
    different, value, so the identity test is decided by value. *)
Fixpoint reduce (fuel : nat) (s : engine) : option engine :=
  match fuel with
  | O => None
  | S fuel' =>
      let prev := current s in
      match run_pass fuel' s with
      | None => None
      | Some s' => if bytes_eqb prev (current s') then Some s' else reduce fuel' s'
      end
  end.

End WithPasses.

(** An example pass body: walk over the positions of [current] and
    [attempt] to delete the byte there (the shape of [reduce_by_bytes]
    with single deletions). *)
Definition delete_bytes_body (c0 : bytes) (hist : list (bool * bytes)) : option call :=
  let cur := snd (List.last hist (true, c0)) in
  let i := length hist in
  if i <? length cur then Some (Attempt (firstn i cur ++ skipn (S i) cur)) else None.

End Driver.

(* ================================================================== *)
(** ** The point-substitution loop of [attempt_typedef_substitutions]
       (reducer.py, lines 257-274) *)
(* ================================================================== *)

Module Typedef.
Import Bytes Engine.

(** [\w] of a [bytes] pattern: [[a-zA-Z0-9_]]. *)
Definition is_word (c : Byte.byte) : bool :=
  let n := Byte.to_nat c in
  ((48 <=? n) && (n <=? 57)) || ((65 <=? n) && (n <=? 90)) ||
  ((97 <=? n) && (n <=? 122)) || (n =? 95).

(** [name_re.finditer(s)] for [name_re = re.compile(rb"\b" + name + rb"\b")]
    and a [name] matched by [\w+] (so the first and last bytes of [name] are
    word bytes and [\b] means: no word byte right before, none right after).
    Matches are [(m.start(), m.end())], left to right, the scan resuming at
    the end of each match; [prev_word] tells whether the byte before [s] is
    a word byte, [p] is the offset of [s], [n] bounds the recursion. *)
Fixpoint word_matches_go (name : bytes) (n : nat) (prev_word : bool) (p : nat)
    (s : bytes) : list (nat * nat) :=
  match n with
  | O => []
  | S n' =>
      match s with
      | [] => []
      | c :: s' =>
          if negb prev_word && is_prefix name s &&
             match skipn (length name) s with
             | [] => true
             | d :: _ => negb (is_word d)
             end
          then (p, p + length name)
                 :: word_matches_go name n' (is_word (List.last name c))
                      (p + length name) (skipn (length name) s)
          else word_matches_go name n' (is_word c) (S p) s'
      end
  end.

Definition word_matches (name s : bytes) : list (nat * nat) :=
  word_matches_go name (length s) false 0 s.

(** [i = 0; targets = list(name_re.finditer(pumped)); while i < len(targets):
    m = targets[i]; attempt = pumped[:m.start()] + definition +
    pumped[m.end():]; if self.predicate(attempt): pumped = attempt; targets =
    list(name_re.finditer(pumped)) else: i += 1].  Recomputing [targets]
    when [pumped] did not change gives the same list.  Returns [pumped] and
    the engine state; [None] when out of fuel. *)
Fixpoint point_substitutions (ext : bytes -> bool) (fuel : nat)
    (name definition : bytes) (i : nat) (pumped : bytes) (s : engine)
  : option (bytes * engine) :=
  match fuel with
  | O => None
  | S fuel' =>
      match nth_error (word_matches name pumped) i with
      | None => Some (pumped, s)
      | Some (start, end_) =>
          let attempt := firstn start pumped ++ definition ++ skipn end_ pumped in
          let (r, s') := predicate ext s attempt in
          if r then point_substitutions ext fuel' name definition i attempt s'
          else point_substitutions ext fuel' name definition (S i) pumped s'
      end
  end.

(** The predicate [lambda v: v.endswith(b"B B;")]. *)
Definition ends_with_BB (v : bytes) : bool := is_prefix (rev (b "B B;")) (rev v).

(** [b"typedef " + b"struct " * (k + 1) + b"B B;"]: the values taken by
    [pumped] when [typedef struct B B;] is substituted point by point. *)
Definition pumped (k : nat) : bytes :=
  b "typedef " ++ concat (repeat (b "struct ") (S k)) ++ b "B B;".

(** No byte is [B]. *)
Definition no_B (x : bytes) : bool := forallb (fun c => negb (Byte.eqb Byte.x42 c)) x.

(** [pumped k] without its final [B B;]. *)
Definition pumped_prefix (k : nat) : bytes :=
  b "typedef " ++ concat (repeat (b "struct ") (S k)).

End Typedef.

(* ================================================================== *)
(** ** Fingerprint collisions *)
(* ================================================================== *)

(** [cache_key] keeps 64 bits of SHA-1, so distinct values can share a
    fingerprint.  These pairs were found by a birthday search. *)
Module Collisions.
Import Bytes.

(** Two 16-byte values with the same 64-bit fingerprint. *)
Definition collide_lo : bytes := b "2fb87aabb0617ad8".
Definition collide_hi : bytes := b "32db24734cf55ab0".

(** A 16-byte and an 18-byte value with the same 64-bit fingerprint. *)
Definition short_twin : bytes := b "a1ac9bee511d7c6a".
Definition long_twin : bytes := b "250ba56a7b9726f3!!".

End Collisions.

(* ================================================================== *)
(** ** Observing a stateful callback *)
(* ================================================================== *)

Module Observe.

(** A stateful callback observed through the log of the arguments it is
    called with, in call order; its answers and its own state are those of
    the callback. *)
Definition tap {X St : Type} (f : St -> X -> bool * St) (st : St * list X) (x : X)
  : bool * (St * list X) :=
  let (r, s') := f (fst st) x in (r, (s', snd st ++ [x])).

End Observe.

(* ================================================================== *)
(** ** Shapes of the [linear_reduce] iterations *)
(* ================================================================== *)

Module LinearReduceShapes.

(** The candidate adopted by one iteration before the pair deletion: the
    sequence itself, or the sequence with a block of [m >= 1] elements
    removed at the cursor. *)
Definition removes_block {A : Type} (i : nat) (sequence sequence1 : list A) : Prop :=
  sequence1 = sequence \/
  exists m, 1 <= m /\ i + m <= length sequence /\
            sequence1 = firstn i sequence ++ skipn (i + m) sequence.

End LinearReduceShapes.

(* ================================================================== *)
(** ** Nesting of bracket pairs *)
(* ================================================================== *)

Module BracketNesting.
Import Bytes Brackets.

(** Two pairs are the same, disjoint, or one lies strictly inside the
    other. *)
Definition nested_or_disjoint (p q : nat * nat) : Prop :=
  p = q \/ snd p < fst q \/ snd q < fst p \/
  (fst p < fst q /\ snd q < snd p) \/ (fst q < fst p /\ snd p < snd q).

(** Invariant of the scan before index [i]: the stack is decreasing from
    its top, lies before [i] and outside every emitted pair; the pairs lie
    before [i] and are pairwise nested or disjoint. *)
Definition nest_inv (i : nat) (stack : list nat) (results : list (nat * nat)) : Prop :=
  StronglySorted gt stack /\
  (forall s, In s stack -> s < i) /\
  (forall c d, In (c, d) results -> c < d < i) /\
  (forall s c d, In s stack -> In (c, d) results -> s < c \/ d < s) /\
  (forall p q, In p results -> In q results -> nested_or_disjoint p q).

(** The bracket depth after reading the byte [c] at depth [od]: an open
    byte adds a level, a close byte closes one, and a close byte at depth
    0 leaves the text unbalanced ([None]). *)
Definition depth_step (leftb rightb : Byte.byte) (od : option nat) (c : Byte.byte)
  : option nat :=
  match od with
  | None => None
  | Some d =>
      if Byte.eqb c leftb then Some (S d)
      else if Byte.eqb c rightb then
        match d with O => None | S d' => Some d' end
      else Some d
  end.

(** The depth reached by reading, from depth 0, the bytes of [target]
    strictly between the indices [i] and [j]. *)
Definition depth_between (leftb rightb : Byte.byte) (target : bytes) (i j : nat)
  : option nat :=
  fold_left (fun od k => match nth_error target k with
                         | Some c => depth_step leftb rightb od c
                         | None => None
                         end)
    (seq (S i) (j - S i)) (Some 0).

End BracketNesting.

(* ================================================================== *)
(** ** [to_bs], [bytes.replace], [remove_byte] (reducer.py, lines 18-22, 314-318) *)
(* ================================================================== *)

Module Replace.
Import Bytes.

(** [s.replace(old, new)] for a non-empty [old]: the non-overlapping
    occurrences of [old], found left to right, are replaced by [new]; [n]
    bounds the recursion by [len(s)]. *)
Fixpoint replace_go (old new : bytes) (n : nat) (s : bytes) : bytes :=
  match n with
  | O => s
  | S n' =>
      match s with
      | [] => []
      | c :: s' =>
          if is_prefix old s then new ++ replace_go old new n' (skipn (length old) s)
          else c :: replace_go old new n' s'
      end
  end.

(** [s.replace(old, new)]; for [old == b""] Python inserts [new] before
    every byte and at the end. *)
Definition replace (old new s : bytes) : bytes :=
  match old with
  | [] => concat (map (fun c => new ++ [c]) s) ++ new
  | _ => replace_go old new (length s) s
  end.

(** The argument of [to_bs]: a Python [int] or a [bytes] object. *)
Inductive int_or_bytes :=
| Int (n : Z)
| Bts (v : bytes).

(** [to_bs(c)]: [None] is the [ValueError] of [bytes([c])] for an [int]
    outside [range(256)]. *)
Definition to_bs (c : int_or_bytes) : option bytes :=
  match c with
  | Int n =>
      if (0 <=? n)%Z then
        match Byte.of_N (Z.to_N n) with Some x => Some [x] | None => None end
      else None
  | Bts v => Some v
  end.

End Replace.

Module RemoveByte.
Import Bytes Engine Replace.

(** [remove_byte(c)]: [self.attempt(self.current.replace(to_bs(c), b""))];
    [None] is the exception of [to_bs]. *)
Definition remove_byte (ext : bytes -> bool) (c : int_or_bytes) (s : engine)
  : option (bool * engine) :=
  match to_bs c with
  | None => None
  | Some d => Some (attempt ext s (replace d [] (current s)))
  end.

End RemoveByte.

(* ================================================================== *)
(** ** [reduce_by_bytes] (reducer.py, lines 309-312) *)
(* ================================================================== *)

Module ReduceByBytes.
Import Bytes Engine LinearReduce.

(** [reduce_by_bytes()]: [linear_reduce(list(self.current), lambda ls:
    self.predicate(bytes(ls)))]; the list of bytes is the value itself.
    Returns the engine state; [None] when out of fuel. *)
Definition reduce_by_bytes (ext : bytes -> bool) (fuel : nat) (s : engine)
  : option engine :=
  match linear_reduce (fun st ls => predicate ext st ls) fuel (current s) s with
  | None => None
  | Some (_, s') => Some s'
  end.

End ReduceByBytes.

(* ================================================================== *)
(** ** [prefix_lines] (reducer.py, lines 205-224) *)
(* ================================================================== *)

Module PrefixLines.
Import Bytes Engine.

(** [s.index(bytes([c]), start)]: [None] is the [ValueError] raised when
    [c] does not occur in [s[start:]]. *)
Fixpoint index_go (c : Byte.byte) (s : bytes) (k : nat) : option nat :=
  match s with
  | [] => None
  | d :: s' => if Byte.eqb d c then Some k else index_go c s' (S k)
  end.

Definition index (c : Byte.byte) (s : bytes) (start : nat) : option nat :=
  index_go c (skipn start s) start.

(** [b" "] *)
Definition space : Byte.byte := Byte.x20.

(** [while i < len(self.current): line_end = self.current.index(terminator,
    i + 1) (or len(self.current)); self.attempt(self.current[:i] +
    self.current[line_end:]); i = self.current.index(b" ", i + 1)], the
    [ValueError] of the last [index] being a [break].  One fuel unit per
    iteration. *)
Fixpoint take_prefixes (ext : bytes -> bool) (fuel : nat) (terminator : Byte.byte)
    (i : nat) (s : engine) : option engine :=
  match fuel with
  | O => None
  | S fuel' =>
      if i <? length (current s) then
        let line_end :=
          match index terminator (current s) (S i) with
          | Some e => e
          | None => length (current s)
          end in
        let (_, s1) := attempt ext s (firstn i (current s) ++ skipn line_end (current s)) in
        match index space (current s1) (S i) with
        | None => Some s1
        | Some i' => take_prefixes ext fuel' terminator i' s1
        end
      else Some s
  end.

(** [for terminator in terminators: try: i = self.current.index(b" ")
    except ValueError: return; <take_prefixes>]. *)
Fixpoint prefix_lines_go (ext : bytes -> bool) (fuel : nat) (terminators : bytes)
    (s : engine) : option engine :=
  match terminators with
  | [] => Some s
  | t :: ts =>
      match index space (current s) 0 with
      | None => Some s
      | Some i =>
          match take_prefixes ext fuel t i s with
          | None => None
          | Some s' => prefix_lines_go ext fuel ts s'
          end
      end
  end.

(** [prefix_lines()], with the terminators [b"\n"] and [b";"]. *)
Definition prefix_lines (ext : bytes -> bool) (fuel : nat) (s : engine) : option engine :=
  prefix_lines_go ext fuel [Byte.x0a; Byte.x3b] s.

End PrefixLines.

(* ================================================================== *)
(** ** [attempt_delete_many_sets], [kill_strings], [debracket] (reducer.py, lines 74-115, 145-152, 174-181) *)
(* ================================================================== *)

Module DeleteSets.
Import Bytes Engine FindInteger Brackets.

(** Membership in a Python set of indices, given by its elements. *)
Definition mem (x : nat) (s : list nat) : bool := existsb (Nat.eqb x) s.

(** [frozenset(s)]: the distinct elements. *)
Definition frozen (s : list nat) : list nat := nodup Nat.eq_dec s.

(** [sorted(s, reverse=True)] for a set [s] (distinct elements). *)
Fixpoint insert_desc (x : nat) (l : list nat) : list nat :=
  match l with
  | [] => [x]
  | y :: l' => if y <? x then x :: l else y :: insert_desc x l'
  end.

Definition sorted_desc (s : list nat) : list nat := fold_right insert_desc [] s.

(** Python's comparison of two lists of integers: lexicographic, a proper
    prefix being smaller. *)
Fixpoint list_compare (x y : list nat) : comparison :=
  match x, y with
  | [], [] => Eq
  | [], _ :: _ => Lt
  | _ :: _, [] => Gt
  | a :: x', b0 :: y' =>
      match Nat.compare a b0 with
      | Eq => list_compare x' y'
      | r => r
      end
  end.

(** [(len(s), sorted(s, reverse=True))] compared as a Python tuple. *)
Definition set_key_compare (s t : list nat) : comparison :=
  match Nat.compare (length s) (length t) with
  | Eq => list_compare (sorted_desc s) (sorted_desc t)
  | r => r
  end.

(** One step of [sets.sort(key=..., reverse=True)]: a stable sort by
    decreasing key, so [s] goes after every element whose key is not
    smaller than its own. *)
Fixpoint insert_by_key (s : list nat) (l : list (list nat)) : list (list nat) :=
  match l with
  | [] => [s]
  | t :: l' =>
      match set_key_compare t s with
      | Lt => s :: l
      | _ => t :: insert_by_key s l'
      end
  end.

Definition sort_sets (sets : list (list nat)) : list (list nat) :=
  fold_left (fun acc s => insert_by_key s acc) sets [].

(** [target] with the bytes at the indices of [D] deleted. *)
Definition keep_except (target : bytes) (D : list nat) : bytes :=
  map snd (List.filter (fun p => negb (mem (fst p) D))
             (combine (seq 0 (length target)) target)).

Section WithPredicate.

(** [self.predicate], seen as a stateful callback. *)
Variable St : Type.
Variable pred : St -> bytes -> bool * St.
(** The sorted [sets] and [target = self.current]. *)
Variable sets : list (list nat).
Variable target : bytes.

(** [to_remove = union of sets[k] for k in range(i, j)] *)
Definition union_range (i j : nat) : list nat := concat (firstn (j - i) (skipn i sets)).

(** [bytes([c for i, c in enumerate(target) if i in retained and i not in
    to_remove])] *)
Definition kept (retained to_remove : list nat) : bytes :=
  map snd (List.filter (fun p => mem (fst p) retained && negb (mem (fst p) to_remove))
             (combine (seq 0 (length target)) target)).

(** [try_remove(i, j)], with the set [retained] it updates. *)
Definition try_remove (i j : nat) (st : list nat * St) : bool * (list nat * St) :=
  let '(retained, s) := st in
  if length sets <? j then (false, st)
  else
    let to_remove := union_range i j in
    if forallb (fun x => negb (mem x retained)) to_remove then (true, st)
    else
      let (result, s') := pred s (kept retained to_remove) in
      (result,
       (if result then List.filter (fun x => negb (mem x to_remove)) retained
        else retained, s')).

(** [i = 0; while i < len(sets): k = find_integer(lambda t: try_remove(i,
    i + t)); i += k + 1], one fuel unit per iteration, the same fuel
    bounding the loops of [find_integer]. *)
Fixpoint sweep (fuel : nat) (i : nat) (st : list nat * St) : option (list nat * St) :=
  match fuel with
  | O => None
  | S fuel' =>
      if i <? length sets then
        match find_integer fuel' (fun t st => try_remove i (i + t) st) st with
        | None => None
        | Some (k, st') => sweep fuel' (i + k + 1) st'
        end
      else Some st
  end.

End WithPredicate.

Arguments union_range : clear implicits.
Arguments kept : clear implicits.
Arguments try_remove {St}.
Arguments sweep {St}.

(** [attempt_delete_many_sets(sets)] over a stateful predicate, with
    [target] the value of [self.current] on entry: [true] is the [return
    True] after the first [try_remove(0, len(sets))], [false] the implicit
    [None] after the loop. *)
Definition delete_many_sets {St : Type} (pred : St -> bytes -> bool * St) (fuel : nat)
    (sets0 : list (list nat)) (target : bytes) (s : St) : option (bool * St) :=
  let sets := sort_sets (map frozen sets0) in
  let '(r, st) := try_remove pred sets target 0 (length sets) (seq 0 (length target), s) in
  if r then Some (true, snd st)
  else
    match sweep pred sets target fuel 0 st with
    | None => None
    | Some st' => Some (false, snd st')
    end.

(** [Reducer.attempt_delete_many_sets(sets)] on the engine. *)
Definition attempt_delete_many_sets (ext : bytes -> bool) (fuel : nat)
    (sets0 : list (list nat)) (s : engine) : option (bool * engine) :=
  delete_many_sets (predicate ext) fuel sets0 (current s) s.

(** The indices of the byte [c] in [v], in increasing order. *)
Definition positions (c : Byte.byte) (v : bytes) : list nat :=
  map fst (List.filter (fun p => Byte.eqb (snd p) c) (combine (seq 0 (length v)) v)).

(** [[range(i + 1, j) for i, j in zip(indices, indices[1:])]] *)
Fixpoint consecutive_ranges (indices : list nat) : list (list nat) :=
  match indices with
  | i :: ((j :: _) as rest) => seq (S i) (j - S i) :: consecutive_ranges rest
  | _ => []
  end.

Section Passes.

Variable St : Type.
Variable pred : St -> bytes -> bool * St.
(** [self.current] in a state. *)
Variable cur : St -> bytes.

(** One iteration of [kill_strings], for the quote byte [c]. *)
Definition kill_quote (fuel : nat) (c : Byte.byte) (s : St) : option St :=
  match delete_many_sets pred fuel (consecutive_ranges (positions c (cur s))) (cur s) s with
  | None => None
  | Some (_, s') => Some s'
  end.

(** [for c in ...]: the single quote (0x27), then the double quote
    (0x22). *)
Definition kill_strings_with (fuel : nat) (s : St) : option St :=
  match kill_quote fuel Byte.x27 s with
  | None => None
  | Some s' => kill_quote fuel Byte.x22 s'
  end.

(** One iteration of [debracket]:
    [self.attempt_delete_many_sets(self.find_paired_brackets(b))], each
    pair [(i, j)] becoming the set [{i, j}]; [None] when [b] is not two
    bytes long. *)
Definition debracket_one (fuel : nat) (bracket : bytes) (s : St) : option St :=
  match find_paired_brackets bracket (cur s) with
  | None => None
  | Some ps =>
      match delete_many_sets pred fuel (map (fun p => [fst p; snd p]) ps) (cur s) s with
      | None => None
      | Some (_, s') => Some s'
      end
  end.

(** [for b in BRACKETS: ...] *)
Fixpoint debracket_go (fuel : nat) (brackets : list bytes) (s : St) : option St :=
  match brackets with
  | [] => Some s
  | bk :: bs =>
      match debracket_one fuel bk s with
      | None => None
      | Some s' => debracket_go fuel bs s'
      end
  end.

End Passes.

Arguments kill_quote {St}.
Arguments kill_strings_with {St}.
Arguments debracket_one {St}.
Arguments debracket_go {St}.

(** [kill_strings()] and [debracket()] on the engine. *)
Definition kill_strings (ext : bytes -> bool) (fuel : nat) (s : engine) : option engine :=
  kill_strings_with (predicate ext) current fuel s.

Definition debracket (ext : bytes -> bool) (fuel : nat) (s : engine) : option engine :=
  debracket_go (predicate ext) current fuel BRACKETS s.

(** What a candidate of [delete_many_sets] is. *)
Definition from_sets (sets0 : list (list nat)) (target : bytes) (c : bytes) : Prop :=
  exists D, (forall x, In x D -> exists S, In S sets0 /\ In x S) /\ c = keep_except target D.

End DeleteSets.

(* ================================================================== *)
(** ** [reduce_by_all_delimiters], [delete_bracket_contents] (reducer.py, lines 133-143, 154-163) *)
(* ================================================================== *)

Module MorePasses.
Import Bytes Engine Brackets Delimiter DeleteSets.

(** How a pass that returns nothing ends: with a Python exception, out of
    fuel, or normally with the final state. *)
Inductive pass_outcome :=
| PassRaised
| PassOutOfFuel
| PassDone (s : engine).

(** [Counter(v)[c]] *)
Definition count (c : Byte.byte) (v : bytes) : nat := length (List.filter (Byte.eqb c) v).

(** [(counts[d], d) < (counts[e], e)] *)
Definition delim_key_lt (v : bytes) (d e : Byte.byte) : bool :=
  (count d v <? count e v) ||
  ((count d v =? count e v) && (Byte.to_N d <? Byte.to_N e)%N).

(** [min(delimiters, key=lambda c: (counts[c], c))] over the non-empty set
    [d0 :: ds]. *)
Definition min_delim (v : bytes) (d0 : Byte.byte) (ds : list Byte.byte) : Byte.byte :=
  fold_left (fun best d => if delim_key_lt v d best then d else best) ds d0.

(** [while delimiters: ...; self.reduce_by_delimiter(b); delimiters.remove(b)],
    at most [rounds] iterations, [fuel] bounding each [reduce_by_delimiter]. *)
Fixpoint all_delimiters_go (ext : bytes -> bool) (fuel rounds : nat)
    (delimiters : list Byte.byte) (s : engine) : pass_outcome :=
  match rounds with
  | O => PassOutOfFuel
  | S rounds' =>
      match delimiters with
      | [] => PassDone s
      | d0 :: ds =>
          let b0 := min_delim (current s) d0 ds in
          match reduce_by_delimiter ext fuel b0 s with
          | Raised => PassRaised
          | OutOfFuel => PassOutOfFuel
          | Done _ s' =>
              all_delimiters_go ext fuel rounds' (remove Byte.byte_eq_dec b0 delimiters) s'
          end
      end
  end.

(** [reduce_by_all_delimiters()], [delimiters = set(self.current)]. *)
Definition reduce_by_all_delimiters (ext : bytes -> bool) (fuel : nat) (s : engine)
  : pass_outcome :=
  all_delimiters_go ext fuel fuel (nodup Byte.byte_eq_dec (current s)) s.

(** [[range(i + 1, j) for i, j in pairs]] *)
Definition contents (ps : list (nat * nat)) : list (list nat) :=
  map (fun p => seq (S (fst p)) (snd p - S (fst p))) ps.

(** One iteration of [delete_bracket_contents]: delete the contents of the
    pairs of [brackets], then [reduce_by_delimiter(brackets[0])]. *)
Definition delete_bracket_contents_one (ext : bytes -> bool) (fuel : nat)
    (bracket : bytes) (s : engine) : pass_outcome :=
  match find_paired_brackets bracket (current s) with
  | None => PassRaised
  | Some ps =>
      match attempt_delete_many_sets ext fuel (contents ps) s with
      | None => PassOutOfFuel
      | Some (_, s1) =>
          match bracket with
          | [] => PassRaised
          | c :: _ =>
              match reduce_by_delimiter ext fuel c s1 with
              | Raised => PassRaised
              | OutOfFuel => PassOutOfFuel
              | Done _ s2 => PassDone s2
              end
          end
      end
  end.

(** [for brackets in BRACKETS: ...] *)
Fixpoint delete_bracket_contents_go (ext : bytes -> bool) (fuel : nat)
    (brackets : list bytes) (s : engine) : pass_outcome :=
  match brackets with
  | [] => PassDone s
  | bk :: bs =>
      match delete_bracket_contents_one ext fuel bk s with
      | PassDone s' => delete_bracket_contents_go ext fuel bs s'
      | r => r
      end
  end.

Definition delete_bracket_contents (ext : bytes -> bool) (fuel : nat) (s : engine)
  : pass_outcome :=
  delete_bracket_contents_go ext fuel BRACKETS s.

End MorePasses.

(* ================================================================== *)
(** ** Inputs of the examples *)
(* ================================================================== *)

Module ExampleInputs.
Import Bytes Engine.

(** A predicate of the examples: the value still contains the byte [b]. *)
Definition has_b (v : bytes) : bool := existsb (Byte.eqb Byte.x62) v.

(** The engine as [__init__] leaves it on [v]. *)
Definition engine_on (ext : bytes -> bool) (v : bytes) : engine :=
  mk_engine v {[cache_key v := ext v]}.

End ExampleInputs.

(* ================================================================== *)
(** * Proofs *)
(* ================================================================== *)

Module FindIntegerProofs.
Import FindInteger.

Section Search.

Variable f : nat -> bool.

Lemma In_app_single (x y : nat) (l : list nat) :
  In x (l ++ [y]) <-> In x l \/ x = y.
Proof.
  rewrite in_app_iff; simpl; intuition.
Qed.

Lemma NoDup_app_single (l : list nat) (y : nat) :
  List.NoDup l -> ~ In y l -> List.NoDup (l ++ [y]).
Proof.
  intros Hl Hy. apply (Permutation_NoDup (l := y :: l)).
  - apply Permutation_cons_append.
  - constructor; auto.
Qed.

Lemma bisect_spec : forall fuel lo hi calls r calls',
  f lo = true -> f hi = false -> lo < hi ->
  outside lo hi calls -> List.NoDup calls ->
  bisect fuel (logged f) lo hi calls = Some (r, calls') ->
  f r = true /\ f (S r) = false /\ (forall x, In x calls' -> 1 <= x) /\
  List.NoDup calls'.
Proof.
  induction fuel as [|fuel IH]; intros lo hi calls r calls' Hlo Hhi Hlt Hout Hnd Hrun;
    cbn [bisect logged] in Hrun.
  - destruct (lo + 1 <? hi) eqn:E; [discriminate|].
    apply Nat.ltb_ge in E. injection Hrun as <- <-.
    assert (hi = S lo) as -> by lia.
    repeat split; auto. intros x Hx. apply Hout in Hx. lia.
  - destruct (lo + 1 <? hi) eqn:E.
    + apply Nat.ltb_lt in E.
      set (mid := (lo + hi) / 2) in *.
      assert (lo < mid < hi) as Hmid.
      { subst mid. split.
        - apply Nat.div_le_lower_bound; lia.
        - apply Nat.Div0.div_lt_upper_bound; lia. }
      assert (Hnew : ~ In mid calls).
      { intros Hin. apply Hout in Hin. lia. }
      destruct (f mid) eqn:Fm.
      * eapply (IH mid hi (calls ++ [mid])); eauto; [lia | | apply NoDup_app_single; auto].
        intros x Hx. apply In_app_single in Hx as [Hx | ->]; [|lia].
        apply Hout in Hx. lia.
      * eapply (IH lo mid (calls ++ [mid])); eauto; [lia | | apply NoDup_app_single; auto].
        intros x Hx. apply In_app_single in Hx as [Hx | ->]; [|lia].
        apply Hout in Hx. lia.
    + apply Nat.ltb_ge in E. injection Hrun as <- <-.
      assert (hi = S lo) as -> by lia.
      repeat split; auto. intros x Hx. apply Hout in Hx. lia.
Qed.

Lemma probe_up_spec : forall fuel lo hi calls lo' hi' calls',
  f lo = true -> lo < hi -> hi <= 2 * lo ->
  (forall x, In x calls -> 1 <= x <= lo) -> List.NoDup calls ->
  probe_up fuel (logged f) lo hi calls = Some (lo', hi', calls') ->
  f lo' = true /\ f hi' = false /\ lo' < hi' /\ hi' <= 2 * lo' /\
  outside lo' hi' calls' /\ List.NoDup calls'.
Proof.
  induction fuel as [|fuel IH]; intros lo hi calls lo' hi' calls'
    Hlo Hlt Hle Hcalls Hnd Hrun; cbn [probe_up logged] in Hrun; [discriminate|].
  assert (Hnew : ~ In hi calls).
  { intros Hin. apply Hcalls in Hin. lia. }
  destruct (f hi) eqn:Fh.
  - eapply (IH hi (hi * 2) (calls ++ [hi])); eauto; [lia | lia | | apply NoDup_app_single; auto].
    intros x Hx. apply In_app_single in Hx as [Hx | ->]; [|lia].
    apply Hcalls in Hx. lia.
  - injection Hrun as <- <- <-.
    split; [auto|]. split; [auto|]. split; [lia|]. split; [lia|].
    split; [| apply NoDup_app_single; auto].
    intros x Hx. apply In_app_single in Hx as [Hx | ->]; [|lia].
    apply Hcalls in Hx. lia.
Qed.

Lemma find_integer_boundary fuel r calls :
  find_integer fuel (logged f) [] = Some (r, calls) ->
  (r = 0 \/ f r = true) /\ f (S r) = false /\
  (forall x, In x calls -> 1 <= x) /\ List.NoDup calls.
Proof.
  unfold find_integer. simpl.
  destruct (f 1) eqn:F1; simpl.
  2:{ intros [= <- <-]. repeat split; auto.
      - intros x [<- | []]; lia.
      - repeat constructor; auto. }
  destruct (f 2) eqn:F2; simpl.
  2:{ intros [= <- <-]. repeat split; auto.
      - intros x [<- | [<- | []]]; lia.
      - repeat constructor; simpl; intuition lia. }
  destruct (f 3) eqn:F3; simpl.
  2:{ intros [= <- <-]. repeat split; auto.
      - intros x [<- | [<- | [<- | []]]]; lia.
      - repeat constructor; simpl; intuition lia. }
  destruct (f 4) eqn:F4; simpl.
  2:{ intros [= <- <-]. repeat split; auto.
      - intros x [<- | [<- | [<- | [<- | []]]]]; lia.
      - repeat constructor; simpl; intuition lia. }
  destruct (probe_up fuel (logged f) 4 5 [1; 2; 3; 4]) as [[[lo hi] calls']|] eqn:Hp;
    [|discriminate].
  intros Hb.
  destruct (probe_up_spec fuel 4 5 [1; 2; 3; 4] lo hi calls') as
    (Hlo & Hhi & Hlt & _ & Hout & Hnd); auto; try lia.
  - intros x Hx. simpl in Hx. intuition lia.
  - repeat constructor; simpl; intuition lia.
  - destruct (bisect_spec fuel lo hi calls' r calls) as (? & ? & ? & ?); auto.
Qed.

(** Termination of the two loops, given a threshold [nstar]. *)
Variable nstar : nat.
Hypothesis Hmono : non_increasing f.
Hypothesis Htrue : f nstar = true.
Hypothesis Hfalse : f (S nstar) = false.

Lemma true_le_nstar n : f n = true -> n <= nstar.
Proof.
  intros Hn. destruct (Nat.le_gt_cases n nstar) as [|Hgt]; auto.
  assert (f (S nstar) = true) by (apply (Hmono _ n); [lia | auto]). congruence.
Qed.

Lemma bisect_total : forall fuel lo hi calls,
  hi - lo <= fuel + 1 -> bisect fuel (logged f) lo hi calls <> None.
Proof.
  induction fuel as [|fuel IH]; intros lo hi calls Hgap; cbn [bisect logged].
  - destruct (lo + 1 <? hi) eqn:E; [apply Nat.ltb_lt in E; lia | discriminate].
  - destruct (lo + 1 <? hi) eqn:E; [|discriminate].
    apply Nat.ltb_lt in E.
    assert (lo < (lo + hi) / 2 < hi).
    { split.
      - apply Nat.div_le_lower_bound; lia.
      - apply Nat.Div0.div_lt_upper_bound; lia. }
    destruct (f ((lo + hi) / 2)); apply IH; lia.
Qed.

Lemma probe_up_total : forall fuel lo hi calls,
  1 <= hi -> nstar < hi + fuel -> probe_up (S fuel) (logged f) lo hi calls <> None.
Proof.
  induction fuel as [|fuel IH]; intros lo hi calls H1 Hb; cbn [probe_up logged];
    destruct (f hi) eqn:Fh; try discriminate;
    apply true_le_nstar in Fh; [lia|].
  apply IH; lia.
Qed.

End Search.

(** Claim C1.  [find_integer] meets its contract: for a non-increasing [f]
    with [f 0 = true] and threshold [nstar] (the last argument on which
    [f] holds, so [f nstar = true] and [f (nstar + 1) = false]), the search
    terminates, every terminating run returns exactly [nstar], the logged
    calls never include [0], and no argument is passed to [f] twice. *)
Theorem find_integer_contract (f : nat -> bool) (nstar : nat)
    (Hmono : non_increasing f) (H0 : f 0 = true)
    (Htrue : f nstar = true) (Hfalse : f (S nstar) = false) :
  (exists fuel, find_integer fuel (logged f) [] <> None) /\
  (forall fuel r calls, find_integer fuel (logged f) [] = Some (r, calls) ->
     r = nstar /\ ~ In 0 calls /\ List.NoDup calls).
Proof.
  split.
  - exists (2 * nstar + 10). set (fuel := 2 * nstar + 10).
    unfold find_integer. simpl.
    destruct (f 1), (f 2), (f 3), (f 4) eqn:F4; simpl; try discriminate.
    destruct (probe_up fuel (logged f) 4 5 [1; 2; 3; 4])
      as [[[lo hi] calls']|] eqn:Hp.
    + assert (Hinit : forall x, In x [1; 2; 3; 4] -> 1 <= x <= 4)
        by (intros x Hx; simpl in Hx; intuition lia).
      assert (Hnd0 : List.NoDup [1; 2; 3; 4])
        by (repeat constructor; simpl; intuition lia).
      destruct (probe_up_spec f fuel 4 5 [1; 2; 3; 4] lo hi calls'
        F4 ltac:(lia) ltac:(lia) Hinit Hnd0 Hp) as (Hlo & _ & Hlt & Hle & _).
      apply bisect_total.
      pose proof (true_le_nstar f nstar Hmono Hfalse lo Hlo). subst fuel. lia.
    + exfalso. revert Hp. replace fuel with (S (2 * nstar + 9)) by (subst fuel; lia).
      apply probe_up_total with (nstar := nstar); auto; lia.
  - intros fuel r calls Hrun.
    destruct (find_integer_boundary f fuel r calls Hrun) as (Hr & Hr1 & Hpos & Hnd).
    repeat split; auto.
    + assert (Hr' : f r = true) by (destruct Hr as [-> | ?]; auto).
      apply (true_le_nstar f nstar Hmono Hfalse) in Hr'.
      destruct (Nat.eq_dec r nstar) as [|Hne]; auto.
      assert (f (S r) = true) by (apply (Hmono _ nstar); [lia | auto]).
      congruence.
    + intros Hin. apply Hpos in Hin. lia.
Qed.

End FindIntegerProofs.

Module OrderProofs.
Import Bytes.

Lemma byte_val_inj (c d : Byte.byte) : byte_val c = byte_val d -> c = d.
Proof.
  unfold byte_val. intros H. apply N2Z.inj in H.
  pose proof (Byte.of_to_N c) as Hc. pose proof (Byte.of_to_N d) as Hd.
  rewrite H in Hc. congruence.
Qed.

Lemma lex_compare_refl (x : bytes) : lex_compare x x = Eq.
Proof. induction x as [|c x IH]; simpl; auto. rewrite Z.compare_refl. exact IH. Qed.

Lemma lex_compare_eq (x y : bytes) : lex_compare x y = Eq -> x = y.
Proof.
  revert y. induction x as [|c x IH]; intros [|d y]; simpl; try discriminate; auto.
  destruct (Z.compare (byte_val c) (byte_val d)) eqn:E; try discriminate.
  intros H. apply Z.compare_eq in E. apply byte_val_inj in E. subst. f_equal. auto.
Qed.

Lemma lex_compare_antisym (x y : bytes) : lex_compare y x = CompOpp (lex_compare x y).
Proof.
  revert y. induction x as [|c x IH]; intros [|d y]; simpl; auto.
  rewrite (Z.compare_antisym (byte_val c) (byte_val d)).
  destruct (Z.compare (byte_val c) (byte_val d)); simpl; auto.
Qed.

Lemma lex_compare_lt_trans (x y z : bytes) :
  lex_compare x y = Lt -> lex_compare y z = Lt -> lex_compare x z = Lt.
Proof.
  revert y z. induction x as [|c x IH]; intros [|d y] [|e z]; simpl; try discriminate; auto.
  destruct (Z.compare (byte_val c) (byte_val d)) eqn:E1; try discriminate;
  destruct (Z.compare (byte_val d) (byte_val e)) eqn:E2; try discriminate;
  intros H1 H2.
  - apply Z.compare_eq in E1, E2. rewrite E1, E2, Z.compare_refl. eauto.
  - apply Z.compare_eq in E1. rewrite E1, E2. reflexivity.
  - apply Z.compare_eq in E2. rewrite <- E2, E1. reflexivity.
  - apply Z.compare_lt_iff in E1, E2.
    assert (Z.compare (byte_val c) (byte_val e) = Lt) as -> by (apply Z.compare_lt_iff; eapply Z.lt_trans; eassumption).
    reflexivity.
Qed.

Lemma sort_key_compare_refl (x : bytes) : sort_key_compare x x = Eq.
Proof. unfold sort_key_compare. rewrite Nat.compare_refl. apply lex_compare_refl. Qed.

Lemma sort_key_compare_eq (x y : bytes) : sort_key_compare x y = Eq -> x = y.
Proof.
  unfold sort_key_compare. destruct (Nat.compare (length x) (length y)); try discriminate.
  apply lex_compare_eq.
Qed.

Lemma sort_key_compare_antisym (x y : bytes) :
  sort_key_compare y x = CompOpp (sort_key_compare x y).
Proof.
  unfold sort_key_compare. rewrite (Nat.compare_antisym (length x) (length y)).
  destruct (Nat.compare (length x) (length y)); simpl; auto.
  apply lex_compare_antisym.
Qed.

Lemma sort_key_compare_lt_trans (x y z : bytes) :
  sort_key_compare x y = Lt -> sort_key_compare y z = Lt -> sort_key_compare x z = Lt.
Proof.
  unfold sort_key_compare.
  destruct (Nat.compare (length x) (length y)) eqn:E1;
  destruct (Nat.compare (length y) (length z)) eqn:E2; try discriminate; intros H1 H2.
  - apply Nat.compare_eq in E1, E2. rewrite E1, E2, Nat.compare_refl.
    eapply lex_compare_lt_trans; eauto.
  - apply Nat.compare_eq in E1. rewrite E1, E2. reflexivity.
  - apply Nat.compare_eq in E2. rewrite <- E2, E1. reflexivity.
  - apply Nat.compare_lt_iff in E1, E2.
    assert (Nat.compare (length x) (length z) = Lt) as -> by (apply Nat.compare_lt_iff; lia).
    reflexivity.
Qed.

Lemma sort_key_le_refl (x : bytes) : sort_key_le x x = true.
Proof. unfold sort_key_le. rewrite sort_key_compare_refl. reflexivity. Qed.

Lemma sort_key_lt_le (x y : bytes) : sort_key_lt x y = true -> sort_key_le x y = true.
Proof. unfold sort_key_lt, sort_key_le. destruct (sort_key_compare x y); auto. Qed.

Lemma sort_key_not_lt_le (x y : bytes) : sort_key_lt x y = false -> sort_key_le y x = true.
Proof.
  unfold sort_key_lt, sort_key_le. rewrite (sort_key_compare_antisym x y).
  destruct (sort_key_compare x y); simpl; auto.
Qed.

Lemma sort_key_lt_irrefl (x : bytes) : sort_key_lt x x = false.
Proof. unfold sort_key_lt. rewrite sort_key_compare_refl. reflexivity. Qed.

Lemma sort_key_le_trans (x y z : bytes) :
  sort_key_le x y = true -> sort_key_le y z = true -> sort_key_le x z = true.
Proof.
  unfold sort_key_le.
  destruct (sort_key_compare x y) eqn:E1; try discriminate; intros _;
  destruct (sort_key_compare y z) eqn:E2; try discriminate; intros _.
  - apply sort_key_compare_eq in E1, E2. subst. rewrite sort_key_compare_refl. auto.
  - apply sort_key_compare_eq in E1. subst. rewrite E2. auto.
  - apply sort_key_compare_eq in E2. subst. rewrite E1. auto.
  - rewrite (sort_key_compare_lt_trans x y z E1 E2). auto.
Qed.

Lemma sort_key_lt_le_false (x y : bytes) :
  sort_key_lt x y = true -> sort_key_le y x = true -> False.
Proof.
  unfold sort_key_lt, sort_key_le. rewrite (sort_key_compare_antisym x y).
  destruct (sort_key_compare x y); simpl; discriminate.
Qed.

End OrderProofs.

Module EngineProofs.
Import Bytes Engine.

(** Claim C7.  Construction fails (Python raises [ValueError]) exactly when
    the external predicate rejects the initial value; when it succeeds,
    [current] is the initial value and the cache holds exactly the initial
    verdict [True] under the initial value's fingerprint. *)
Theorem init_spec (ext : bytes -> bool) (initial : bytes) :
  match init ext initial with
  | None => ext initial = false
  | Some s => ext initial = true /\ current s = initial /\
              cache s = {[cache_key initial := true]}
  end.
Proof.
  unfold init. destruct (ext initial) eqn:E; simpl; auto.
Qed.

Lemma predicate_lookup_hit (ext : bytes -> bool) (s : engine) (v : bytes)
    (r : bool) :
  cache s !! cache_key v = Some r -> predicate ext s v = (r, s).
Proof. intros Hhit. unfold predicate. rewrite Hhit. reflexivity. Qed.

(** Claim C10.  A call of the cached predicate on a value whose fingerprint
    is already cached returns the stored verdict and leaves the whole
    engine state, [current] and the cache, unchanged. *)
Theorem predicate_cache_hit (ext : bytes -> bool) (s : engine) (v : bytes)
    (r : bool) (Hhit : cache s !! cache_key v = Some r) :
  predicate ext s v = (r, s).
Proof. exact (predicate_lookup_hit ext s v r Hhit). Qed.

Lemma find_key_cons (v : bytes) (vs : list bytes) (w : bytes) :
  List.find (fun u => Z.eqb (cache_key u) (cache_key w)) (v :: vs) =
  if Z.eqb (cache_key v) (cache_key w) then Some v
  else List.find (fun u => Z.eqb (cache_key u) (cache_key w)) vs.
Proof. reflexivity. Qed.

Lemma predicate_cache (ext : bytes -> bool) (s : engine) (v : bytes) :
  cache (snd (predicate ext s v)) =
  <[cache_key v := fst (predicate ext s v)]> (cache s).
Proof.
  unfold predicate. destruct (cache s !! cache_key v) eqn:E; simpl; auto.
  rewrite insert_id; auto.
Qed.

Lemma predicate_answer (ext : bytes -> bool) (s : engine) (v : bytes) :
  fst (predicate ext s v) =
  match cache s !! cache_key v with Some r => r | None => ext v end.
Proof.
  unfold predicate. destruct (cache s !! cache_key v); reflexivity.
Qed.

(** Claim C4.  In every run, each answer of the cached predicate is the
    first verdict observed for the value's fingerprint (the cached one, or
    the external verdict on the first value of the run with that
    fingerprint); the external predicate is called at most once per
    fingerprint, never on a fingerprint already cached, and cached verdicts
    are never changed. *)
Theorem cache_first_answer (ext : bytes -> bool) (s : engine) (vs : list bytes) :
  let '(s', answers, calls) := run ext s vs in
  answers = map (first_answer ext (cache s) vs) vs /\
  List.NoDup (map cache_key calls) /\
  (forall v, In v calls -> cache s !! cache_key v = None) /\
  (forall k r, cache s !! k = Some r -> cache s' !! k = Some r).
Proof.
  revert s. induction vs as [|v vs IH]; intros s; simpl.
  - split; [reflexivity | split; [constructor | split; [intros ? [] | auto]]].
  - destruct (predicate ext s v) as [r s1] eqn:Hp.
    pose proof (predicate_cache ext s v) as Hc. rewrite Hp in Hc. simpl in Hc.
    pose proof (predicate_answer ext s v) as Ha. rewrite Hp in Ha. simpl in Ha.
    specialize (IH s1).
    destruct (run ext s1 vs) as [[s2 answers] calls].
    destruct IH as (Hans & Hnd & Hfresh & Hkeep).
    split; [|split; [|split]].
    + f_equal.
      * unfold first_answer. rewrite find_key_cons, Z.eqb_refl.
        destruct (cache s !! cache_key v); auto.
      * rewrite Hans. apply map_ext_in. intros w Hw.
        unfold first_answer. rewrite Hc, find_key_cons.
        destruct (Z.eqb (cache_key v) (cache_key w)) eqn:Ekey.
        -- apply Z.eqb_eq in Ekey. rewrite <- Ekey, lookup_insert_eq.
           destruct (cache s !! cache_key v); auto.
        -- apply Z.eqb_neq in Ekey. rewrite lookup_insert_ne by auto.
           reflexivity.
    + unfold calls_external. destruct (cache s !! cache_key v) eqn:E; simpl; auto.
      constructor; auto. intros Hin.
      apply in_map_iff in Hin as (w & Hkey & Hw).
      apply Hfresh in Hw.
      rewrite Hc, Hkey, lookup_insert_eq in Hw. discriminate.
    + intros w Hw. unfold calls_external in Hw.
      destruct (cache s !! cache_key v) eqn:E; simpl in Hw.
      * apply Hfresh in Hw. rewrite Hc in Hw.
        destruct (decide (cache_key v = cache_key w)) as [Heq|Hne].
        -- rewrite Heq, lookup_insert_eq in Hw. discriminate.
        -- rewrite lookup_insert_ne in Hw by auto. auto.
      * destruct Hw as [<- | Hw]; auto.
        apply Hfresh in Hw. rewrite Hc in Hw.
        destruct (decide (cache_key v = cache_key w)) as [Heq|Hne].
        -- rewrite Heq, lookup_insert_eq in Hw. discriminate.
        -- rewrite lookup_insert_ne in Hw by auto. auto.
    + intros k r' Hk. apply Hkeep. rewrite Hc.
      destruct (decide (cache_key v = k)) as [<-|Hne].
      * rewrite lookup_insert_eq. rewrite Ha, Hk. reflexivity.
      * rewrite lookup_insert_ne by auto. auto.
Qed.

Lemma bytes_eqb_true (x y : bytes) : bytes_eqb x y = true -> x = y.
Proof.
  unfold bytes_eqb. destruct (lex_compare x y) eqn:E; try discriminate.
  intros _. apply OrderProofs.lex_compare_eq. exact E.
Qed.

Lemma collision_free_spec (vs : list bytes) :
  collision_free vs = true ->
  forall a c, In a vs -> In c vs -> cache_key a = cache_key c -> a = c.
Proof.
  induction vs as [|v vs IH]; simpl; [intros _ a c []|].
  intros Hcf. apply andb_prop in Hcf as [Hall Hrest].
  rewrite forallb_forall in Hall.
  assert (Hv : forall w, In w vs -> cache_key v = cache_key w -> v = w).
  { intros w Hw Hk. specialize (Hall w Hw). apply orb_prop in Hall as [H|H].
    - apply bytes_eqb_true. exact H.
    - rewrite Hk, Z.eqb_refl in H. discriminate. }
  intros a c [<- | Ha] [<- | Hc] Hk; auto.
  - symmetry. apply Hv; auto.
Qed.

(** One call of the cached predicate: [current] never grows, and it only
    changes to the queried value, after a cache miss on which the external
    predicate accepted a value strictly smaller than [current]. *)
Lemma predicate_step (ext : bytes -> bool) (s : engine) (v : bytes)
    (r : bool) (s' : engine) :
  predicate ext s v = (r, s') ->
  sort_key_le (current s') (current s) = true /\
  (current s' <> current s ->
     cache s !! cache_key v = None /\ ext v = true /\
     sort_key_lt v (current s) = true /\ current s' = v).
Proof.
  unfold predicate. destruct (cache s !! cache_key v) eqn:E.
  - intros [= <- <-]. split; [apply OrderProofs.sort_key_le_refl | congruence].
  - intros H. injection H as <- <-. simpl.
    destruct (ext v) eqn:Ev, (sort_key_lt v (current s)) eqn:Elt; simpl.
    + split; [apply OrderProofs.sort_key_lt_le; exact Elt | auto].
    + split; [apply OrderProofs.sort_key_le_refl | congruence].
    + split; [apply OrderProofs.sort_key_le_refl | congruence].
    + split; [apply OrderProofs.sort_key_le_refl | congruence].
Qed.

Lemma step_facts (ext : bytes -> bool) (s : engine) (c : call)
    (r : bool) (s' : engine) :
  step ext s c = (r, s') ->
  sort_key_le (current s') (current s) = true /\
  (current s' <> current s ->
     ext (call_value c) = true /\
     sort_key_lt (current s') (current s) = true /\ current s' = call_value c).
Proof.
  assert (Hp : forall v, predicate ext s v = (r, s') ->
    sort_key_le (current s') (current s) = true /\
    (current s' <> current s -> ext v = true /\
       sort_key_lt (current s') (current s) = true /\ current s' = v)).
  { intros v H. apply predicate_step in H as [Hle Hch]. split; auto.
    intros Hne. destruct (Hch Hne) as (_ & Hx & Hlt & Heq).
    rewrite Heq. auto. }
  destruct c as [v|v]; simpl.
  - apply Hp.
  - unfold attempt. destruct (sort_key_lt v (current s)); [apply Hp|].
    intros [= <- <-]. split; [apply OrderProofs.sort_key_le_refl | congruence].
Qed.

Lemma predicate_honest (ext : bytes -> bool) (vs : list bytes) (s : engine)
    (v : bytes) (r : bool) (s' : engine) :
  honest ext vs s -> In v vs -> predicate ext s v = (r, s') -> honest ext vs s'.
Proof.
  intros Hh Hv. unfold predicate. destruct (cache s !! cache_key v) eqn:E.
  - intros [= <- <-]. exact Hh.
  - intros H. injection H as <- <-. intros k r' Hk. simpl in Hk |- *.
    assert (Hle : sort_key_le
      (if ext v && sort_key_lt v (current s) then v else current s) (current s) = true).
    { destruct (ext v && sort_key_lt v (current s)) eqn:Ec.
      - apply andb_prop in Ec as [_ Ec]. apply OrderProofs.sort_key_lt_le. exact Ec.
      - apply OrderProofs.sort_key_le_refl. }
    destruct (decide (cache_key v = k)) as [<- | Hne].
    + rewrite lookup_insert_eq in Hk. injection Hk as <-.
      exists v. split; [exact Hv | split; [reflexivity | split; [reflexivity |]]].
      intros Ht. rewrite Ht. simpl.
      destruct (sort_key_lt v (current s)) eqn:Elt.
      * apply OrderProofs.sort_key_le_refl.
      * apply OrderProofs.sort_key_not_lt_le. exact Elt.
    + rewrite lookup_insert_ne in Hk by exact Hne.
      destruct (Hh k r' Hk) as (w & Hw & Hkw & Hew & Hcur).
      exists w. split; [exact Hw | split; [exact Hkw | split; [exact Hew |]]].
      intros Hr. eapply OrderProofs.sort_key_le_trans; [exact Hle | exact (Hcur Hr)].
Qed.

Lemma step_honest (ext : bytes -> bool) (vs : list bytes) (s : engine)
    (c : call) (r : bool) (s' : engine) :
  honest ext vs s -> In (call_value c) vs -> step ext s c = (r, s') ->
  honest ext vs s'.
Proof.
  destruct c as [v|v]; simpl; intros Hh Hv.
  - apply predicate_honest; assumption.
  - unfold attempt. destruct (sort_key_lt v (current s)).
    + apply predicate_honest; assumption.
    + intros [= <- <-]. exact Hh.
Qed.

(** With an honest cache and no fingerprint collision, an [attempt] that
    answers [True] has made a strict shrink. *)
Lemma attempt_true_strict (ext : bytes -> bool) (vs : list bytes) (s : engine)
    (v : bytes) (s' : engine) :
  honest ext vs s -> collision_free vs = true -> In v vs ->
  attempt ext s v = (true, s') -> sort_key_lt (current s') (current s) = true.
Proof.
  intros Hh Hcf Hv. unfold attempt.
  destruct (sort_key_lt v (current s)) eqn:Elt; [|discriminate].
  unfold predicate. destruct (cache s !! cache_key v) eqn:E.
  - intros [= -> <-]. exfalso.
    destruct (Hh _ _ E) as (w & Hw & Hkw & _ & Hcur).
    assert (w = v) as -> by (apply (collision_free_spec vs Hcf); auto).
    eapply OrderProofs.sort_key_lt_le_false; [exact Elt | exact (Hcur eq_refl)].
  - intros H. injection H as Hr <-. simpl. rewrite Hr, Elt. exact Elt.
Qed.

Lemma trace_shrinks (ext : bytes -> bool) (vs : list bytes) (cs : list call) :
  collision_free vs = true -> (forall c, In c cs -> In (call_value c) vs) ->
  forall s, honest ext vs s ->
  Forall (fun t : engine * call * bool * engine =>
    let '(s, c, r, s') := t in
    sort_key_le (current s') (current s) = true /\
    (current s' <> current s ->
       ext (call_value c) = true /\
       sort_key_lt (current s') (current s) = true /\ current s' = call_value c) /\
    match c with
    | Attempt _ => r = true -> sort_key_lt (current s') (current s) = true
    | Predicate _ => True
    end) (trace ext s cs).
Proof.
  intros Hcf Hin. induction cs as [|c cs IH]; intros s Hh; simpl; [constructor|].
  destruct (step ext s c) as [r s1] eqn:Hs.
  assert (Hc : In (call_value c) vs) by (apply Hin; left; reflexivity).
  constructor.
  - split; [|split].
    + apply (step_facts ext s c r s1 Hs).
    + apply (step_facts ext s c r s1 Hs).
    + destruct c as [v|v]; [exact I|]. intros ->.
      apply (attempt_true_strict ext vs s v s1 Hh Hcf Hc Hs).
  - apply IH.
    + intros c' Hc'. apply Hin. right. exact Hc'.
    + apply (step_honest ext vs s c r s1 Hh Hc Hs).
Qed.

Lemma init_honest (ext : bytes -> bool) (initial : bytes) (vs : list bytes)
    (s0 : engine) :
  init ext initial = Some s0 -> In initial vs -> honest ext vs s0.
Proof.
  unfold init. destruct (ext initial) eqn:E; simpl; [|discriminate].
  intros [= <-] Hin k r Hk. simpl in Hk |- *.
  destruct (decide (cache_key initial = k)) as [<- | Hne].
  - rewrite lookup_insert_eq in Hk. injection Hk as <-.
    exists initial. split; [exact Hin | split; [reflexivity | split; [exact E |]]].
    intros _. apply OrderProofs.sort_key_le_refl.
  - rewrite lookup_insert_ne, lookup_empty in Hk by exact Hne. discriminate.
Qed.

(** A call that changes [current] missed the cache on its value. *)
Lemma step_miss (ext : bytes -> bool) (s : engine) (c : call)
    (r : bool) (s' : engine) :
  step ext s c = (r, s') -> current s' <> current s ->
  cache s !! cache_key (call_value c) = None.
Proof.
  destruct c as [v|v]; simpl.
  - intros H Hne. apply predicate_step in H as [_ Hch]. exact (proj1 (Hch Hne)).
  - unfold attempt. destruct (sort_key_lt v (current s)).
    + intros H Hne. apply predicate_step in H as [_ Hch]. exact (proj1 (Hch Hne)).
    + intros [= <- <-] Hne. congruence.
Qed.

Lemma trace_steps (ext : bytes -> bool) : forall (cs : list call) (s : engine),
  Forall (fun t : engine * call * bool * engine =>
    let '(s, c, r, s') := t in
    sort_key_le (current s') (current s) = true /\
    (current s' <> current s ->
       cache s !! cache_key (call_value c) = None /\
       ext (call_value c) = true /\
       sort_key_lt (current s') (current s) = true /\ current s' = call_value c))
    (trace ext s cs).
Proof.
  induction cs as [|c cs IH]; intros s; simpl; [constructor|].
  destruct (step ext s c) as [r s1] eqn:Hs. constructor; [|apply IH].
  destruct (step_facts ext s c r s1 Hs) as [Hle Hch]. split; [exact Hle|].
  intros Hne. split; [exact (step_miss ext s c r s1 Hs Hne) | exact (Hch Hne)].
Qed.

(** Claim C2 (amended).  Along every sequence of calls of [predicate] and
    [attempt] on an engine built by [init]: [sort_key(current)] never
    increases; [current] only changes to the queried value, after a cache
    miss on it, when the external predicate accepted it and it is strictly
    smaller by [sort_key] (ties and larger values never replace it); and,
    provided no two distinct values queried (the initial value included)
    share a 64-bit fingerprint, every [attempt] that returns [True]
    strictly decreases [sort_key(current)]. *)
Theorem monotone_shrink (ext : bytes -> bool) (initial : bytes)
    (cs : list call) (s0 : engine)
    (Hinit : init ext initial = Some s0) :
  Forall (fun t : engine * call * bool * engine =>
    let '(s, c, r, s') := t in
    sort_key_le (current s') (current s) = true /\
    (current s' <> current s ->
       cache s !! cache_key (call_value c) = None /\
       ext (call_value c) = true /\
       sort_key_lt (current s') (current s) = true /\ current s' = call_value c))
    (trace ext s0 cs) /\
  (collision_free (initial :: map call_value cs) = true ->
   Forall (fun t : engine * call * bool * engine =>
     let '(s, c, r, s') := t in
     match c with
     | Attempt _ => r = true -> sort_key_lt (current s') (current s) = true
     | Predicate _ => True
     end) (trace ext s0 cs)).
Proof.
  split; [apply trace_steps|].
  intros Hcf.
  assert (Hh : honest ext (initial :: map call_value cs) s0)
    by (apply (init_honest ext initial); [exact Hinit | left; reflexivity]).
  assert (Hin : forall c, In c cs -> In (call_value c) (initial :: map call_value cs))
    by (intros c Hc; right; apply in_map; exact Hc).
  pose proof (trace_shrinks ext (initial :: map call_value cs) cs Hcf Hin s0 Hh) as H.
  revert H. apply List.Forall_impl. intros [[[s c] r] s']. simpl. tauto.
Qed.

End EngineProofs.

Module BracketProofs.
Import Bytes Brackets.

Lemma byte_eqb_true (x y : Byte.byte) : Byte.eqb x y = true <-> x = y.
Proof. split; [apply byte_dec_bl | apply byte_dec_lb]. Qed.

Lemma endpoints_app (ps qs : list (nat * nat)) :
  endpoints (ps ++ qs) = endpoints ps ++ endpoints qs.
Proof. unfold endpoints. apply flat_map_app. Qed.

Lemma in_endpoints (x : nat) (ps : list (nat * nat)) :
  In x (endpoints ps) <-> exists a b, In (a, b) ps /\ (x = a \/ x = b).
Proof.
  unfold endpoints. rewrite in_flat_map. split.
  - intros ([a b] & Hin & Hx). exists a, b. simpl in Hx. intuition.
  - intros (a & b & Hin & Hx). exists (a, b). simpl. intuition.
Qed.

Lemma nth_error_decompose {A} (l : list A) (j : nat) (x : A) :
  nth_error l j = Some x -> l = firstn j l ++ x :: skipn (S j) l.
Proof.
  revert j. induction l as [|y l IH]; intros [|j] H; simpl in *; try discriminate.
  - injection H as ->. reflexivity.
  - f_equal. apply IH. exact H.
Qed.

Lemma NoDup_app_disjoint {A} (l l' : list A) :
  List.NoDup (l ++ l') -> forall a, In a l -> ~ In a l'.
Proof.
  induction l as [|x l IH]; intros Hnd a Ha Ha'; [destruct Ha|].
  inversion Hnd as [|? ? Hx Hnd']; subst.
  destruct Ha as [<- | Ha].
  - apply Hx. apply in_or_app. right. exact Ha'.
  - exact (IH Hnd' a Ha Ha').
Qed.

Section Scan.
Variables (leftb rightb : Byte.byte) (target : bytes).

Lemma scan_inv_step t i stack results :
  (forall k c, nth_error t k = Some c -> nth_error target (i + k) = Some c) ->
  scan_inv leftb rightb target i stack results ->
  let '(st', res') := scan leftb rightb t i stack results in
  scan_inv leftb rightb target (i + length t) st' res'.
Proof.
  revert i stack results. induction t as [|c t IH]; intros i stack results Ht Hinv.
  - simpl. rewrite Nat.add_0_r. exact Hinv.
  - assert (Hc : nth_error target i = Some c)
      by (rewrite <- (Nat.add_0_r i); apply (Ht 0); reflexivity).
    assert (Ht' : forall k c', nth_error t k = Some c' -> nth_error target (S i + k) = Some c')
      by (intros k c' Hk; replace (S i + k) with (i + S k) by lia; apply Ht; exact Hk).
    destruct Hinv as (Hst & Hres & Hnd).
    assert (Hfresh : ~ In i (stack ++ endpoints results)).
    { intros Hin. apply in_app_or in Hin as [Hin | Hin].
      - apply Hst in Hin. lia.
      - apply in_endpoints in Hin as (a & b0 & Hab & Hx). apply Hres in Hab. lia. }
    simpl. replace (i + S (length t)) with (S i + length t) by lia.
    destruct (Byte.eqb c leftb) eqn:El.
    + apply byte_eqb_true in El. subst c.
      apply IH; auto. split; [|split].
      * intros a [<- | Ha]; [split; auto | apply Hst in Ha; split; [lia | tauto]].
      * intros a b0 Hab. apply Hres in Hab. split; [lia | tauto].
      * simpl. constructor; auto.
    + destruct (Byte.eqb c rightb) eqn:Er.
      * apply byte_eqb_true in Er. subst c.
        destruct stack as [|j st].
        -- apply IH; auto. split; [|split].
           ++ intros a [].
           ++ intros a b0 Hab. apply Hres in Hab. split; [lia | tauto].
           ++ exact Hnd.
        -- apply IH; auto. split; [|split].
           ++ intros a Ha. assert (In a (j :: st)) as Ha' by (right; auto).
              apply Hst in Ha'. split; [lia | tauto].
           ++ intros a b0 Hab. apply in_app_or in Hab as [Hab | [[= <- <-] | []]].
              ** apply Hres in Hab. split; [lia | tauto].
              ** assert (In j (j :: st)) as Hj by (left; auto).
                 apply Hst in Hj. split; [lia | split; tauto].
           ++ rewrite endpoints_app. simpl.
              apply (Permutation_NoDup (l := i :: (j :: st) ++ endpoints results)).
              ** simpl. solve_Permutation.
              ** constructor; auto.
      * apply IH; auto. split; [|split]; auto.
        -- intros a Ha. apply Hst in Ha. split; [lia | tauto].
        -- intros a b0 Hab. apply Hres in Hab. split; [lia | tauto].
Qed.

Lemma scan_app p q i stack results :
  scan leftb rightb (p ++ q) i stack results =
  let '(st', res') := scan leftb rightb p i stack results in
  scan leftb rightb q (i + length p) st' res'.
Proof.
  revert i stack results. induction p as [|c p IH]; intros i stack results; simpl.
  - rewrite Nat.add_0_r. reflexivity.
  - replace (i + S (length p)) with (S i + length p) by lia.
    destruct (Byte.eqb c leftb); [apply IH|].
    destruct (Byte.eqb c rightb); [destruct stack|]; apply IH.
Qed.

(** Pairs emitted from index [i] on close at [i] or later and open at a
    stacked index or at [i] or later. *)
Lemma scan_new_pairs t i stack results :
  exists new, snd (scan leftb rightb t i stack results) = results ++ new /\
  forall a b0, In (a, b0) new -> i <= b0 /\ (In a stack \/ i <= a).
Proof.
  revert i stack results. induction t as [|c t IH]; intros i stack results; simpl.
  - exists []. rewrite app_nil_r. split; auto. intros a b0 [].
  - destruct (Byte.eqb c leftb).
    + destruct (IH (S i) (i :: stack) results) as (new & Hn & Hp).
      exists new. split; auto. intros a b0 Hab. apply Hp in Hab.
      destruct Hab as (? & [[<- | ?] | ?]); split; auto; lia.
    + destruct (Byte.eqb c rightb); [destruct stack as [|j st]|].
      * destruct (IH (S i) [] results) as (new & Hn & Hp).
        exists new. split; auto. intros a b0 Hab. apply Hp in Hab.
        destruct Hab as (? & [[] | ?]); split; auto; lia.
      * destruct (IH (S i) st (results ++ [(j, i)])) as (new & Hn & Hp).
        exists ((j, i) :: new). split; [rewrite Hn, <- app_assoc; reflexivity|].
        intros a b0 [[= <- <-] | Hab]; [split; [lia | left; left; auto]|].
        apply Hp in Hab. destruct Hab as (? & [? | ?]); split; try lia; auto.
        left; right; auto.
      * destruct (IH (S i) stack results) as (new & Hn & Hp).
        exists new. split; auto. intros a b0 Hab. apply Hp in Hab.
        destruct Hab as (? & [? | ?]); split; auto; lia.
Qed.

Lemma scan_same_bytes t i stack results :
  leftb = rightb -> snd (scan leftb rightb t i stack results) = results.
Proof.
  intros <-. revert i stack results.
  induction t as [|c t IH]; intros i stack results; simpl; auto.
  destruct (Byte.eqb c leftb); auto.
Qed.

Lemma nth_error_suffix (t : bytes) (n : nat) :
  forall k c, nth_error (skipn n t) k = Some c -> nth_error t (n + k) = Some c.
Proof.
  intros k c Hk. rewrite nth_error_skipn in Hk. exact Hk.
Qed.

End Scan.

(** Claim C8.  The pairs emitted by [find_paired_brackets] are well formed
    ([i < j], an open byte at [i], a close byte at [j]); no index is an
    endpoint twice (so no two pairs share an endpoint); a close byte met
    while the stack is empty is never an endpoint; and the opens left on
    the stack at the end are never endpoints. *)
Theorem find_paired_brackets_spec (leftb rightb : Byte.byte) (target : bytes) :
  find_paired_brackets [leftb; rightb] target =
    Some (snd (scan leftb rightb target 0 [] [])) /\
  let '(stack, results) := scan leftb rightb target 0 [] [] in
  (forall i j, In (i, j) results ->
     i < j /\ nth_error target i = Some leftb /\ nth_error target j = Some rightb) /\
  List.NoDup (endpoints results) /\
  (forall j, nth_error target j = Some rightb ->
     stack_before leftb rightb target j = [] -> ~ In j (endpoints results)) /\
  (forall i, In i stack -> ~ In i (endpoints results)).
Proof.
  split; [reflexivity|].
  pose proof (scan_inv_step leftb rightb target target 0 [] []) as Hinv.
  destruct (scan leftb rightb target 0 [] []) as [stack results] eqn:Hscan.
  destruct Hinv as (Hst & Hres & Hnd); auto.
  { split; [intros a []|split; [intros a b0 []|constructor]]. }
  split; [|split; [|split]].
  - intros i j Hij. apply Hres in Hij. split; [lia | tauto].
  - apply NoDup_app_remove_l in Hnd. exact Hnd.
  - intros j Hj Hempty Hin.
    destruct (Byte.eqb leftb rightb) eqn:Elr.
    { apply byte_eqb_true in Elr as Heq.
      pose proof (scan_same_bytes leftb rightb target 0 [] [] Heq) as Hnil.
      rewrite Hscan in Hnil. simpl in Hnil. subst results. destruct Hin. }
    assert (Hsplit : target = firstn j target ++ rightb :: skipn (S j) target).
    { apply nth_error_decompose. exact Hj. }
    unfold stack_before in Hempty.
    pose proof (scan_inv_step leftb rightb target (firstn j target) 0 [] []) as Hpre.
    destruct (scan leftb rightb (firstn j target) 0 [] []) as [st0 res0] eqn:Hs0.
    simpl in Hempty. subst st0.
    destruct Hpre as (_ & Hres0 & _).
    { intros k c Hk. simpl. rewrite nth_error_firstn in Hk.
      destruct (k <? j); [exact Hk | discriminate]. }
    { split; [intros a []|split; [intros a b0 []|constructor]]. }
    pose proof (scan_app leftb rightb (firstn j target) (rightb :: skipn (S j) target) 0 [] [])
      as Happ.
    rewrite <- Hsplit, Hs0 in Happ. simpl in Happ.
    assert (Hne' : Byte.eqb rightb leftb = false).
    { destruct (Byte.eqb rightb leftb) eqn:E; auto. apply byte_eqb_true in E.
      subst rightb. rewrite (proj2 (byte_eqb_true leftb leftb) eq_refl) in Elr.
      discriminate. }
    assert (Hrr : Byte.eqb rightb rightb = true) by (apply byte_eqb_true; auto).
    rewrite Hne', Hrr in Happ. simpl in Happ.
    destruct (scan_new_pairs leftb rightb (skipn (S j) target)
                (S (length (firstn j target))) [] res0) as (new & Hnew & Hpairs).
    rewrite <- Happ, Hscan in Hnew. simpl in Hnew.
    assert (Hlenj : length (firstn j target) = j).
    { apply firstn_length_le.
      assert (j < length target) by (apply nth_error_Some; congruence). lia. }
    rewrite Hlenj in Hpairs. subst results.
    apply in_endpoints in Hin as (a & b0 & Hab & Hx).
    apply in_app_or in Hab as [Hab | Hab].
    + apply Hres0 in Hab. rewrite Hlenj in Hab. simpl in Hab. lia.
    + apply Hpairs in Hab. destruct Hab as (? & [[] | ?]). lia.
  - intros i Hi Hin. exact (NoDup_app_disjoint _ _ Hnd i Hi Hin).
Qed.

End BracketProofs.

Module LinearReduceProofs.
Import LinearReduce.

(** Claim C3 fails on the code.  On [[0; 1; 2; 3; 4; 5]] with a predicate
    that accepts exactly [[1; 3; 4; 5]], [linear_reduce] stops at the first
    cursor position: the pair deletion of indices 0 and 2 succeeds and its
    [break] returns at once.  The element [5] is kept, and no candidate
    submitted to the predicate omits it. *)
Lemma linear_reduce_skips_elements :
  linear_reduce (logged (fun c => list_nat_eqb c [1; 3; 4; 5])) 20
    [0; 1; 2; 3; 4; 5] [] =
    Some ([1; 3; 4; 5],
          [[1; 2; 3; 4; 5]; [2; 3; 4; 5]; [3; 4; 5]; [1; 3; 4; 5]]) /\
  In 5 [1; 3; 4; 5] /\
  Forall (fun c => In 5 c) [[1; 2; 3; 4; 5]; [2; 3; 4; 5]; [3; 4; 5]; [1; 3; 4; 5]].
Proof.
  split; [vm_compute; reflexivity|].
  split; [simpl; tauto|].
  repeat constructor; simpl; tauto.
Qed.

End LinearReduceProofs.

Module DelimiterProofs.
Import Bytes Engine LinearReduce Delimiter.

Lemma join_nil_concat (ps : list bytes) : join [] ps = concat ps.
Proof.
  induction ps as [|p ps IH]; [reflexivity|].
  destruct ps as [|q ps]; simpl.
  - rewrite app_nil_r. reflexivity.
  - simpl in IH. rewrite IH. reflexivity.
Qed.

Lemma join_nil_nonempty_parts (ps : list bytes) :
  join [] (nonempty_parts ps) = join [] ps.
Proof.
  rewrite !join_nil_concat. unfold nonempty_parts.
  induction ps as [|[|x p] ps IH]; simpl; auto.
  rewrite IH. reflexivity.
Qed.

Lemma honest_incl (ext : bytes -> bool) (vs vs' : list bytes) (s : engine) :
  honest ext vs s -> (forall w, In w vs -> In w vs') -> honest ext vs' s.
Proof.
  intros Hh Hincl k r Hk. destruct (Hh k r Hk) as (w & Hw & Hrest).
  exists w. split; [apply Hincl; exact Hw | exact Hrest].
Qed.

Lemma after_honest (ext : bytes -> bool) (vs : list bytes) (cs : list call) :
  (forall c, In c cs -> In (call_value c) vs) ->
  forall s, honest ext vs s -> honest ext vs (after ext s cs).
Proof.
  unfold after. induction cs as [|c cs IH]; intros Hin s Hh; simpl; [exact Hh|].
  apply IH; [intros c' Hc'; apply Hin; right; exact Hc'|].
  destruct (step ext s c) as [r s1] eqn:Hs. simpl.
  apply (EngineProofs.step_honest ext vs s c r s1 Hh); [apply Hin; left; reflexivity | exact Hs].
Qed.

(** With an honest cache and no collision, an [attempt] that answers
    [True] has adopted the value it was given. *)
Lemma attempt_true_adopts (ext : bytes -> bool) (vs : list bytes) (s : engine)
    (v : bytes) (s' : engine) :
  honest ext vs s -> collision_free vs = true -> In v vs ->
  attempt ext s v = (true, s') -> current s' = v.
Proof.
  intros Hh Hcf Hv. unfold attempt.
  destruct (sort_key_lt v (current s)) eqn:Elt; [|discriminate].
  unfold predicate. destruct (cache s !! cache_key v) eqn:E.
  - intros [= -> <-]. exfalso.
    destruct (Hh _ _ E) as (w & Hw & Hkw & _ & Hcur).
    assert (w = v) as -> by (apply (EngineProofs.collision_free_spec vs Hcf); auto).
    eapply OrderProofs.sort_key_lt_le_false; [exact Elt | exact (Hcur eq_refl)].
  - intros H. injection H as Hr <-. simpl. rewrite Hr, Elt. reflexivity.
Qed.

Lemma reduce_by_delimiter_honest_no_raise (ext : bytes -> bool) (vs : list bytes)
    (fuel : nat) (c : Byte.byte) (s : engine) :
  honest ext vs s -> collision_free vs = true ->
  In (undelimited c (current s)) vs ->
  reduce_by_delimiter ext fuel c s <> Raised.
Proof.
  intros Hh Hcf Hx. unfold reduce_by_delimiter, undelimited in *. simpl in *.
  set (parts := split_go [c] (length (current s)) (current s) []) in *.
  destruct (attempt ext s (join [] parts)) as [r1 s1] eqn:Ha1.
  destruct r1.
  - pose proof (attempt_true_adopts ext vs s _ s1 Hh Hcf Hx Ha1) as Hcur.
    rewrite join_nil_nonempty_parts. unfold attempt at 1.
    rewrite Hcur, OrderProofs.sort_key_lt_irrefl.
    match goal with |- context [linear_reduce ?p ?f ?l ?st] =>
      destruct (linear_reduce p f l st) as [[? ?]|] end; discriminate.
  - destruct (attempt ext s1 (join [c] (nonempty_parts parts))) as [[|] s2];
      simpl;
      match goal with |- context [linear_reduce ?p ?f ?l ?st] =>
        destruct (linear_reduce p f l st) as [[? ?]|] end; discriminate.
Qed.

Lemma fingerprint_unique_spec (x : bytes) (vs : list bytes) :
  fingerprint_unique x vs = true ->
  forall w, In w vs -> cache_key w = cache_key x -> w = x.
Proof.
  unfold fingerprint_unique. rewrite forallb_forall. intros H w Hw Hk.
  specialize (H w Hw). apply orb_prop in H as [H|H].
  - apply EngineProofs.bytes_eqb_true. exact H.
  - rewrite Hk, Z.eqb_refl in H. discriminate.
Qed.

(** With an honest cache, an [attempt] on a value whose fingerprint no
    other value of [vs] shares adopts that value when it answers [True]. *)
Lemma attempt_true_adopts_unique (ext : bytes -> bool) (vs : list bytes)
    (s : engine) (v : bytes) (s' : engine) :
  honest ext vs s -> fingerprint_unique v vs = true ->
  attempt ext s v = (true, s') -> current s' = v.
Proof.
  intros Hh Hfp. unfold attempt.
  destruct (sort_key_lt v (current s)) eqn:Elt; [|discriminate].
  unfold predicate. destruct (cache s !! cache_key v) eqn:E.
  - intros [= -> <-]. exfalso.
    destruct (Hh _ _ E) as (w & Hw & Hkw & _ & Hcur).
    assert (w = v) as -> by (apply (fingerprint_unique_spec v vs Hfp); auto).
    eapply OrderProofs.sort_key_lt_le_false; [exact Elt | exact (Hcur eq_refl)].
  - intros H. injection H as Hr <-. simpl. rewrite Hr, Elt. reflexivity.
Qed.

Lemma reduce_by_delimiter_unique_no_raise (ext : bytes -> bool) (vs : list bytes)
    (fuel : nat) (c : Byte.byte) (s : engine) :
  honest ext vs s -> fingerprint_unique (undelimited c (current s)) vs = true ->
  reduce_by_delimiter ext fuel c s <> Raised.
Proof.
  intros Hh Hfp. unfold reduce_by_delimiter.
  unfold undelimited in Hfp. simpl in Hfp |- *.
  set (parts := split_go [c] (length (current s)) (current s) []) in *.
  destruct (attempt ext s (join [] parts)) as [r1 s1] eqn:Ha1.
  destruct r1.
  - pose proof (attempt_true_adopts_unique ext vs s _ s1 Hh Hfp Ha1) as Hcur.
    rewrite join_nil_nonempty_parts. unfold attempt at 1.
    rewrite Hcur, OrderProofs.sort_key_lt_irrefl.
    match goal with |- context [linear_reduce ?p ?f ?l ?st] =>
      destruct (linear_reduce p f l st) as [[? ?]|] end; discriminate.
  - destruct (attempt ext s1 (join [c] (nonempty_parts parts))) as [[|] s2];
      simpl;
      match goal with |- context [linear_reduce ?p ?f ?l ?st] =>
        destruct (linear_reduce p f l st) as [[? ?]|] end; discriminate.
Qed.

(** Claim C9 (amended).  On every engine state reachable from [init]
    through calls of [predicate] and [attempt] (all passes query the engine
    only through these), [reduce_by_delimiter] never reaches the
    empty-separator [split], provided the value of its first [attempt]
    ([b"".join(current.split(delimiter))]) shares its 64-bit fingerprint
    with no other value queried so far (the initial value and the values
    of the calls). *)
Theorem reduce_by_delimiter_no_empty_split (ext : bytes -> bool)
    (initial : bytes) (s0 : engine) (cs : list call) (fuel : nat)
    (c : Byte.byte)
    (Hinit : init ext initial = Some s0)
    (Hfp : fingerprint_unique (undelimited c (current (after ext s0 cs)))
             (initial :: map call_value cs) = true) :
  reduce_by_delimiter ext fuel c (after ext s0 cs) <> Raised.
Proof.
  apply (reduce_by_delimiter_unique_no_raise ext (initial :: map call_value cs));
    [| exact Hfp].
  apply after_honest.
  - intros c' Hc'. right. apply in_map. exact Hc'.
  - apply (EngineProofs.init_honest ext initial); [exact Hinit | left; reflexivity].
Qed.

End DelimiterProofs.

Module DriverProofs.
Import Bytes Engine Driver.

Lemma sort_key_le_antisym (x y : bytes) :
  sort_key_le x y = true -> sort_key_le y x = true -> x = y.
Proof.
  unfold sort_key_le. rewrite (OrderProofs.sort_key_compare_antisym x y).
  destruct (sort_key_compare x y) eqn:E; simpl; try discriminate.
  - intros _ _. apply OrderProofs.sort_key_compare_eq. exact E.
Qed.

Lemma predicate_records (ext : bytes -> bool) (t : engine) (v : bytes)
    (r : bool) (t1 : engine) :
  predicate ext t v = (r, t1) -> cache t1 !! cache_key v = Some r.
Proof.
  intros H. pose proof (EngineProofs.predicate_cache ext t v) as Hc.
  rewrite H in Hc. simpl in Hc. rewrite Hc. apply lookup_insert_eq.
Qed.

Lemma step_cache_grows (ext : bytes -> bool) (t : engine) (c : call)
    (r : bool) (t1 : engine) :
  step ext t c = (r, t1) ->
  forall k r0, cache t !! k = Some r0 -> cache t1 !! k = Some r0.
Proof.
  assert (Hp : forall v, predicate ext t v = (r, t1) ->
                 forall k r0, cache t !! k = Some r0 -> cache t1 !! k = Some r0).
  { intros v H k r0 Hk.
    pose proof (EngineProofs.predicate_cache ext t v) as Hc.
    pose proof (EngineProofs.predicate_answer ext t v) as Ha.
    rewrite H in Hc, Ha. simpl in Hc, Ha. rewrite Hc.
    destruct (decide (cache_key v = k)) as [<- | Hne].
    - rewrite lookup_insert_eq, Ha, Hk. reflexivity.
    - rewrite lookup_insert_ne by exact Hne. exact Hk. }
  destruct c as [v|v]; simpl; [apply Hp|].
  unfold attempt. destruct (sort_key_lt v (current t)); [apply Hp|].
  intros [= <- <-]. auto.
Qed.

(** A call whose effect left [current] unchanged is answered again, with
    no effect at all, by a state with the same [current] whose cache
    contains the cache after the call. *)
Lemma step_replay (ext : bytes -> bool) (t : engine) (c : call) (r : bool)
    (t1 u : engine) :
  step ext t c = (r, t1) -> current u = current t ->
  (forall k r0, cache t1 !! k = Some r0 -> cache u !! k = Some r0) ->
  step ext u c = (r, u).
Proof.
  intros Hs Hu Hsub.
  assert (Hp : forall v, predicate ext t v = (r, t1) -> predicate ext u v = (r, u)).
  { intros v H. apply EngineProofs.predicate_lookup_hit.
    apply Hsub. apply (predicate_records ext t v r t1 H). }
  destruct c as [v|v]; simpl in *; [apply Hp; exact Hs|].
  unfold attempt in *. rewrite Hu.
  destruct (sort_key_lt v (current t)); [apply Hp; exact Hs|].
  injection Hs as <- _. reflexivity.
Qed.

Section Run.

Variable ext : bytes -> bool.
Variable body : bytes -> list (bool * bytes) -> option call.

Lemma run_body_mono (c0 : bytes) (fuel : nat) :
  forall hist t s', run_body ext body c0 fuel hist t = Some s' ->
  sort_key_le (current s') (current t) = true /\
  (forall k r0, cache t !! k = Some r0 -> cache s' !! k = Some r0).
Proof.
  induction fuel as [|fuel IH]; intros hist t s' H; simpl in H; [discriminate|].
  destruct (body c0 hist) as [c|].
  - destruct (step ext t c) as [r t1] eqn:Hs.
    destruct (IH _ _ _ H) as [Hle Hsub].
    split.
    + eapply OrderProofs.sort_key_le_trans; [exact Hle|].
      apply (EngineProofs.step_facts ext t c r t1 Hs).
    + intros k r0 Hk. apply Hsub. apply (step_cache_grows ext t c r t1 Hs k r0 Hk).
  - injection H as <-. split; [apply OrderProofs.sort_key_le_refl | auto].
Qed.

Lemma run_body_fuel (c0 : bytes) (fuel fuel2 : nat) :
  fuel <= fuel2 ->
  forall hist t s', run_body ext body c0 fuel hist t = Some s' ->
  run_body ext body c0 fuel2 hist t = Some s'.
Proof.
  revert fuel2. induction fuel as [|fuel IH]; intros fuel2 Hle hist t s' H;
    simpl in H; [discriminate|].
  destruct fuel2 as [|fuel2]; [lia|]. simpl.
  destruct (body c0 hist) as [c|]; [|exact H].
  destruct (step ext t c) as [r t1].
  apply IH; [lia | exact H].
Qed.

(** Replay: a body execution that ended with [current] unchanged is
    executed again from its final state, with the same calls and the same
    answers, all served from the cache, and changes nothing. *)
Lemma run_body_replay (c0 : bytes) (fuel : nat) :
  forall hist t s', run_body ext body c0 fuel hist t = Some s' ->
  current s' = current t ->
  run_body ext body c0 fuel hist s' = Some s'.
Proof.
  induction fuel as [|fuel IH]; intros hist t s' H Hcur; simpl in H |- *;
    [discriminate|].
  destruct (body c0 hist) as [c|]; [|reflexivity].
  destruct (step ext t c) as [r t1] eqn:Hs.
  destruct (run_body_mono c0 fuel _ _ _ H) as [Hle Hsub].
  assert (Hle1 : sort_key_le (current t1) (current t) = true)
    by apply (EngineProofs.step_facts ext t c r t1 Hs).
  assert (Ht1 : current t1 = current t).
  { apply sort_key_le_antisym; [exact Hle1|]. rewrite <- Hcur. exact Hle. }
  rewrite (step_replay ext t c r t1 s' Hs ltac:(congruence) Hsub).
  rewrite Hcur, <- Ht1.
  apply (IH _ t1 s' H). congruence.
Qed.

Lemma reduce_last_pass (fuel : nat) :
  forall s0 s1, reduce ext body fuel s0 = Some s1 ->
  exists f t, f < fuel /\ run_pass ext body f t = Some s1 /\ current s1 = current t.
Proof.
  induction fuel as [|fuel IH]; intros s0 s1 H; simpl in H; [discriminate|].
  destruct (run_pass ext body fuel s0) as [s'|] eqn:Hp; [|discriminate].
  destruct (bytes_eqb (current s0) (current s')) eqn:Eq.
  - injection H as <-. exists fuel, s0. split; [lia|]. split; [exact Hp|].
    symmetry. apply EngineProofs.bytes_eqb_true. exact Eq.
  - destruct (IH s' s1 H) as (f & t & Hf & Ht & Hc).
    exists f, t. split; [lia | split; assumption].
Qed.

End Run.

Lemma bytes_eqb_refl (x : bytes) : bytes_eqb x x = true.
Proof. unfold bytes_eqb. rewrite OrderProofs.lex_compare_refl. reflexivity. Qed.

(** Claim C6.  For any deterministic pass body and any fuel: if [reduce()]
    returns with state [s1], then a second [reduce()] from [s1] (with the
    same fuel) returns exactly [s1]: no shrink, [current] and the cache
    unchanged. *)
Theorem reduce_idempotent (ext : bytes -> bool)
    (body : bytes -> list (bool * bytes) -> option call)
    (fuel : nat) (s0 s1 : engine)
    (Hrun : reduce ext body fuel s0 = Some s1) :
  reduce ext body fuel s1 = Some s1.
Proof.
  destruct (reduce_last_pass ext body fuel s0 s1 Hrun) as (f & t & Hf & Hp & Hc).
  destruct fuel as [|fuel]; [lia|]. simpl.
  unfold run_pass in Hp |- *.
  assert (Hrep : run_body ext body (current t) f [] s1 = Some s1)
    by (apply (run_body_replay ext body (current t) f [] t s1 Hp Hc)).
  rewrite Hc. rewrite (run_body_fuel ext body (current t) f fuel ltac:(lia) [] s1 s1 Hrep).
  rewrite <- Hc, bytes_eqb_refl. reflexivity.
Qed.

End DriverProofs.

Module TypedefProofs.
Import Bytes Engine Typedef.

Lemma word_matches_skip (x y : bytes) (n : nat) (pw : bool) (p : nat) :
  no_B x = true ->
  word_matches_go (b "B") (length x + n) pw p (x ++ y) =
  word_matches_go (b "B") n (fold_left (fun _ c => is_word c) x pw) (p + length x) y.
Proof.
  revert pw p. induction x as [|c x IH]; intros pw p Hx; simpl.
  - rewrite Nat.add_0_r. reflexivity.
  - unfold no_B in Hx. simpl in Hx. apply andb_prop in Hx as [Hc Hx].
    apply negb_true_iff in Hc. rewrite Hc, andb_false_r. cbn [andb].
    rewrite (IH (is_word c) (S p) Hx). rewrite Nat.add_succ_r. reflexivity.
Qed.

Lemma concat_repeat_S (l : bytes) (k : nat) :
  concat (repeat l (S k)) = concat (repeat l k) ++ l.
Proof.
  induction k as [|k IH]; simpl; [rewrite app_nil_r; reflexivity|].
  simpl in *. rewrite <- app_assoc, <- IH. reflexivity.
Qed.

Lemma no_B_structs (k : nat) : no_B (concat (repeat (b "struct ") k)) = true.
Proof.
  induction k as [|k IH]; [reflexivity|].
  rewrite concat_repeat_S. unfold no_B in *. rewrite forallb_app, IH. reflexivity.
Qed.

Lemma fold_structs (k : nat) (pw : bool) :
  fold_left (fun _ c => is_word c) (concat (repeat (b "struct ") (S k))) pw = false.
Proof.
  rewrite concat_repeat_S, fold_left_app. reflexivity.
Qed.

Lemma pumped_split (k : nat) : pumped k = pumped_prefix k ++ b "B B;".
Proof. unfold pumped, pumped_prefix. rewrite app_assoc. reflexivity. Qed.

(** The first match of [\bB\b] in [pumped k] is the [B] right after the
    last [struct ]. *)
Lemma first_match (k : nat) :
  nth_error (word_matches (b "B") (pumped k)) 0 =
  Some (length (pumped_prefix k), length (pumped_prefix k) + 1).
Proof.
  unfold word_matches. rewrite pumped_split, length_app.
  rewrite word_matches_skip.
  - unfold pumped_prefix at 1. rewrite fold_left_app, fold_structs. reflexivity.
  - unfold no_B, pumped_prefix. rewrite forallb_app.
    fold (no_B (concat (repeat (b "struct ") (S k)))). rewrite no_B_structs.
    reflexivity.
Qed.

(** Substituting [struct B] for that [B] gives the next value of the
    sequence. *)
Lemma substitute_first (k : nat) :
  firstn (length (pumped_prefix k)) (pumped k) ++ b "struct B" ++
  skipn (length (pumped_prefix k) + 1) (pumped k) = pumped (S k).
Proof.
  rewrite pumped_split, firstn_app, skipn_app, Nat.sub_diag, firstn_all.
  rewrite (skipn_all2 (pumped_prefix k)) by lia.
  replace (length (pumped_prefix k) + 1 - length (pumped_prefix k)) with 1 by lia.
  simpl. rewrite app_nil_r, pumped_split.
  unfold pumped_prefix. rewrite (concat_repeat_S _ (S k)).
  rewrite <- !app_assoc. reflexivity.
Qed.

Lemma is_prefix_app (x y : bytes) : is_prefix x (x ++ y) = true.
Proof.
  induction x as [|c x IH]; [reflexivity|].
  simpl. rewrite IH, andb_true_r. apply Byte.byte_dec_lb. reflexivity.
Qed.

Lemma ends_with_BB_pumped (k : nat) : ends_with_BB (pumped k) = true.
Proof.
  unfold ends_with_BB. rewrite pumped_split, rev_app_distr. apply is_prefix_app.
Qed.

(** Claim C5 fails on the code: [reduce()] need not terminate.  With the predicate
    [v.endswith(b"B B;")] and [pumped = b"typedef struct B B;"], the typedef
    regex yields [definition = b"struct B"] and [name = b"B"]; [removed] and
    [fully] are both [b""], which the predicate rejects, so the
    point-substitution loop runs.  Each step replaces the first [\bB\b] by
    [struct B]: the result is accepted (a new, longer value), so [i] stays
    [0] and the loop goes on for ever: from any engine state with no cached
    [False] under the fingerprint of one of these values, no amount of fuel
    is enough. *)
Theorem typedef_substitution_diverges (s : engine)
    (Hcache : forall j, cache s !! cache_key (pumped j) <> Some false)
    (k fuel : nat) :
  point_substitutions ends_with_BB fuel (b "B") (b "struct B") 0 (pumped k) s = None.
Proof.
  revert k s Hcache. induction fuel as [|fuel IH]; intros k s Hcache; [reflexivity|].
  cbn [point_substitutions]. rewrite first_match, substitute_first.
  unfold predicate.
  destruct (cache s !! cache_key (pumped (S k))) as [r|] eqn:E.
  - destruct r; [|exfalso; exact (Hcache (S k) E)].
    apply IH. exact Hcache.
  - rewrite ends_with_BB_pumped. apply IH. simpl.
    intros j. destruct (decide (cache_key (pumped (S k)) = cache_key (pumped j))) as [Heq|Hne].
    + rewrite Heq, lookup_insert_eq. discriminate.
    + rewrite lookup_insert_ne by exact Hne. apply Hcache.
Qed.

End TypedefProofs.

Module FindIntegerFacts.
Import FindInteger.

Section Stateful.

Variable St : Type.
Variable f : nat -> St -> bool * St.

(** What every answer of [f] tells about its argument. *)
Variables (Qt Qf : nat -> Prop).
Hypothesis Hanswer : forall k s r s', f k s = (r, s') ->
  (r = true -> Qt k) /\ (r = false -> Qf k).

Lemma bisect_answer : forall fuel lo hi s r s',
  Qt lo -> Qf hi -> lo < hi ->
  bisect fuel f lo hi s = Some (r, s') -> Qt r /\ Qf (S r).
Proof.
  induction fuel as [|fuel IH]; intros lo hi s r s' Hlo Hhi Hlt Hrun;
    cbn [bisect] in Hrun.
  - destruct (lo + 1 <? hi) eqn:E; [discriminate|].
    apply Nat.ltb_ge in E. injection Hrun as <- <-.
    assert (hi = S lo) as <- by lia. auto.
  - destruct (lo + 1 <? hi) eqn:E.
    + apply Nat.ltb_lt in E.
      assert (lo < (lo + hi) / 2 < hi) as Hmid.
      { split.
        - apply Nat.div_le_lower_bound; lia.
        - apply Nat.Div0.div_lt_upper_bound; lia. }
      destruct (f ((lo + hi) / 2) s) as [[|] s1] eqn:Fm;
        apply Hanswer in Fm as [Ht Hf].
      * apply (IH ((lo + hi) / 2) hi s1 r s'); auto; lia.
      * apply (IH lo ((lo + hi) / 2) s1 r s'); auto; lia.
    + apply Nat.ltb_ge in E. injection Hrun as <- <-.
      assert (hi = S lo) as <- by lia. auto.
Qed.

Lemma probe_up_answer : forall fuel lo hi s lo' hi' s',
  Qt lo -> lo < hi ->
  probe_up fuel f lo hi s = Some (lo', hi', s') -> Qt lo' /\ Qf hi' /\ lo' < hi'.
Proof.
  induction fuel as [|fuel IH]; intros lo hi s lo' hi' s' Hlo Hlt Hrun;
    cbn [probe_up] in Hrun; [discriminate|].
  destruct (f hi s) as [[|] s1] eqn:Fh; apply Hanswer in Fh as [Ht Hf].
  - apply (IH hi (hi * 2) s1 lo' hi' s'); auto; lia.
  - injection Hrun as <- <- <-. auto.
Qed.

Lemma find_integer_answer fuel s r s' :
  find_integer fuel f s = Some (r, s') -> (r = 0 \/ Qt r) /\ Qf (S r).
Proof.
  unfold find_integer. cbn [linear_scan].
  destruct (f 1 s) as [[|] s1] eqn:F1; apply Hanswer in F1 as [T1 F1].
  2:{ intros [= <- <-]. auto. }
  destruct (f 2 s1) as [[|] s2] eqn:F2; apply Hanswer in F2 as [T2 F2].
  2:{ intros [= <- <-]. auto. }
  destruct (f 3 s2) as [[|] s3] eqn:F3; apply Hanswer in F3 as [T3 F3].
  2:{ intros [= <- <-]. auto. }
  destruct (f 4 s3) as [[|] s4] eqn:F4; apply Hanswer in F4 as [T4 F4].
  2:{ intros [= <- <-]. auto. }
  destruct (probe_up fuel f 4 5 s4) as [[[lo hi] s5]|] eqn:Hp; [|discriminate].
  apply probe_up_answer in Hp as (Hlo & Hhi & Hlt); auto.
  intros Hb. apply bisect_answer in Hb as [? ?]; auto.
Qed.

End Stateful.

Section Invariant.

Variable St : Type.
Variable f : nat -> St -> bool * St.
Variable I : St -> Prop.
Hypothesis Hpres : forall k s r s', I s -> f k s = (r, s') -> I s'.

Lemma find_integer_preserves fuel s r s' :
  I s -> find_integer fuel f s = Some (r, s') -> I s'.
Proof.
  intros Hs. unfold find_integer. cbn [linear_scan].
  destruct (f 1 s) as [[|] s1] eqn:F1; apply Hpres in F1; auto;
    [|intros [= _ <-]; auto].
  destruct (f 2 s1) as [[|] s2] eqn:F2; apply Hpres in F2; auto;
    [|intros [= _ <-]; auto].
  destruct (f 3 s2) as [[|] s3] eqn:F3; apply Hpres in F3; auto;
    [|intros [= _ <-]; auto].
  destruct (f 4 s3) as [[|] s4] eqn:F4; apply Hpres in F4; auto;
    [|intros [= _ <-]; auto].
  assert (Hp : forall fuel lo hi s lo' hi' s', I s ->
            probe_up fuel f lo hi s = Some (lo', hi', s') -> I s').
  { induction fuel0 as [|fuel0 IH]; intros lo hi t lo' hi' t' Ht H;
      cbn [probe_up] in H; [discriminate|].
    destruct (f hi t) as [[|] t1] eqn:Fh; apply Hpres in Fh; auto.
    - eapply IH; eauto.
    - injection H as _ _ <-. exact Fh. }
  assert (Hb : forall fuel lo hi s r s', I s ->
            bisect fuel f lo hi s = Some (r, s') -> I s').
  { induction fuel0 as [|fuel0 IH]; intros lo hi t r' t' Ht H;
      cbn [bisect] in H.
    - destruct (lo + 1 <? hi); [discriminate | injection H as _ <-; exact Ht].
    - destruct (lo + 1 <? hi); [|injection H as _ <-; exact Ht].
      destruct (f ((lo + hi) / 2) t) as [[|] t1] eqn:Fm; apply Hpres in Fm; auto;
        eapply IH; eauto. }
  destruct (probe_up fuel f 4 5 s4) as [[[lo hi] s5]|] eqn:Hpr; [|discriminate].
  apply Hp in Hpr; auto. apply Hb. exact Hpr.
Qed.

End Invariant.

Section Total.

Variable St : Type.
Variable f : nat -> St -> bool * St.
Variable B : nat.
Hypothesis Hbeyond : forall k s, B < k -> fst (f k s) = false.

Lemma bisect_total_any : forall fuel lo hi s,
  hi - lo <= fuel + 1 -> bisect fuel f lo hi s <> None.
Proof.
  induction fuel as [|fuel IH]; intros lo hi s Hgap; cbn [bisect].
  - destruct (lo + 1 <? hi) eqn:E; [apply Nat.ltb_lt in E; lia | discriminate].
  - destruct (lo + 1 <? hi) eqn:E; [|discriminate].
    apply Nat.ltb_lt in E.
    assert (lo < (lo + hi) / 2 < hi).
    { split.
      - apply Nat.div_le_lower_bound; lia.
      - apply Nat.Div0.div_lt_upper_bound; lia. }
    destruct (f ((lo + hi) / 2) s) as [[|] s1]; apply IH; lia.
Qed.

Lemma probe_up_total_any : forall fuel lo hi s,
  5 <= hi -> lo < hi <= 2 * lo -> lo <= Nat.max 4 B -> B < hi + fuel ->
  exists lo' hi' s', probe_up (S fuel) f lo hi s = Some (lo', hi', s') /\
    lo' < hi' <= 2 * lo' /\ lo' <= Nat.max 4 B.
Proof.
  induction fuel as [|fuel IH]; intros lo hi s H5 Hlh Hlo Hb; cbn [probe_up];
    destruct (f hi s) as [r s1] eqn:Fh.
  - assert (r = false) as ->.
    { pose proof (Hbeyond hi s) as Hf. rewrite Fh in Hf. apply Hf. lia. }
    exists lo, hi, s1. split; [reflexivity | lia].
  - destruct r; [|exists lo, hi, s1; split; [reflexivity | lia]].
    assert (hi <= B).
    { destruct (Nat.le_gt_cases hi B) as [|Hgt]; auto.
      pose proof (Hbeyond hi s Hgt) as Hf. rewrite Fh in Hf. discriminate. }
    apply IH; lia.
Qed.

Lemma find_integer_total_any fuel s :
  B + 4 <= fuel -> find_integer fuel f s <> None.
Proof.
  intros Hfuel. unfold find_integer. cbn [linear_scan].
  destruct (f 1 s) as [[|] s1]; [|discriminate].
  destruct (f 2 s1) as [[|] s2]; [|discriminate].
  destruct (f 3 s2) as [[|] s3]; [|discriminate].
  destruct (f 4 s3) as [[|] s4]; [|discriminate].
  destruct fuel as [|fuel']; [lia|].
  destruct (probe_up_total_any fuel' 4 5 s4) as (lo & hi & s5 & Hp & Hlh & Hlo);
    try lia.
  rewrite Hp. apply bisect_total_any. lia.
Qed.

End Total.

End FindIntegerFacts.

Module LinearReduceFacts.
Import FindInteger LinearReduce LinearReduceShapes.

Lemma skip_sublist {A} (l : list A) (i m : nat) :
  firstn i l ++ skipn (i + m) l `sublist_of` l.
Proof.
  assert (Hd : skipn (i + m) l `sublist_of` skipn i l).
  { rewrite <- drop_drop. apply sublist_drop. }
  transitivity (firstn i l ++ skipn i l).
  - apply sublist_app; [reflexivity | exact Hd].
  - rewrite take_drop. reflexivity.
Qed.

Lemma delete_at_sublist {A} (n : nat) (l : list A) : delete_at n l `sublist_of` l.
Proof.
  unfold delete_at. rewrite <- Nat.add_1_r. apply skip_sublist.
Qed.

Lemma skip_length {A} (l : list A) (i m : nat) :
  i + m <= length l -> length (firstn i l ++ skipn (i + m) l) = length l - m.
Proof.
  intros H. rewrite length_app, length_firstn, length_skipn. lia.
Qed.

Section WithPredicate.

Variables (A St : Type).
Variable predicate : St -> list A -> bool * St.

Lemma probe_true i prefix sequence k s s' :
  probe predicate i prefix sequence k s = (true, s') -> i + k <= length sequence.
Proof.
  unfold probe. destruct (i + k <=? length sequence) eqn:E; [|discriminate].
  intros _. apply Nat.leb_le. exact E.
Qed.

Lemma fallback_shape offsets i sequence s sequence1 s1 :
  Forall (fun o => 1 <= o) offsets ->
  fallback predicate offsets i (firstn i sequence) sequence s = (sequence1, s1) ->
  removes_block i sequence sequence1.
Proof.
  revert s. induction offsets as [|o offs IH]; intros s Ho; cbn [fallback].
  - intros [= <- _]. left. reflexivity.
  - inversion Ho as [|? ? Ho1 Hos]; subst.
    destruct (i + o <=? length sequence) eqn:E.
    + destruct (predicate s (firstn i sequence ++ skipn (i + o) sequence)) as [[|] s2].
      * intros [= <- _]. right. exists o. apply Nat.leb_le in E. auto.
      * apply IH. exact Hos.
    + apply IH. exact Hos.
Qed.

Lemma iteration_shape fuel i sequence s n s1 sequence1 s2 :
  find_integer fuel (probe predicate i (firstn i sequence) sequence) s = Some (n, s1) ->
  (if 0 <? n then (firstn i sequence ++ skipn (i + n) sequence, s1)
   else fallback predicate [2; 3] i (firstn i sequence) sequence s1) = (sequence1, s2) ->
  removes_block i sequence sequence1.
Proof.
  intros Hfi Hit. destruct (0 <? n) eqn:En.
  - injection Hit as <- _. right. exists n. apply Nat.ltb_lt in En.
    split; [lia|split; [|reflexivity]].
    destruct (FindIntegerFacts.find_integer_answer St
                (probe predicate i (firstn i sequence) sequence)
                (fun k => i + k <= length sequence) (fun _ => True)) with fuel s n s1
      as [[Hn | Hn] _]; auto; [|lia].
    intros k t r t' Hk. split; [intros ->; eapply probe_true; exact Hk | auto].
  - eapply fallback_shape; [|exact Hit]. repeat constructor.
Qed.

Lemma removes_block_sublist i (sequence sequence1 : list A) :
  removes_block i sequence sequence1 -> sequence1 `sublist_of` sequence.
Proof.
  intros [-> | (m & _ & _ & ->)]; [reflexivity | apply skip_sublist].
Qed.

Lemma removes_block_length i (sequence sequence1 : list A) :
  removes_block i sequence sequence1 ->
  sequence1 = sequence \/ (length sequence1 < length sequence /\ i <= length sequence1).
Proof.
  intros [-> | (m & Hm & Hle & ->)]; [left; reflexivity | right].
  rewrite skip_length by exact Hle. lia.
Qed.

(** Termination of the sweep for every predicate. *)
Lemma loop_total : forall fuel i sequence s,
  i <= length sequence -> 3 * length sequence + 7 <= fuel + i ->
  loop predicate fuel i sequence s <> None.
Proof.
  induction fuel as [|fuel IH]; intros i sequence s Hi Hfuel; [lia|].
  cbn [loop].
  destruct (i <? length sequence) eqn:Hlt; [|discriminate].
  apply Nat.ltb_lt in Hlt.
  destruct (find_integer fuel (probe predicate i (firstn i sequence) sequence) s)
    as [[n s1]|] eqn:Hfi.
  2:{ exfalso. revert Hfi.
      apply (FindIntegerFacts.find_integer_total_any St _ (length sequence - i)); [|lia].
      intros k t Hk. unfold probe.
      destruct (i + k <=? length sequence) eqn:E; [apply Nat.leb_le in E; lia|reflexivity]. }
  destruct (if 0 <? n then _ else _) as [sequence1 s2] eqn:Hit.
  pose proof (iteration_shape fuel i sequence s n s1 sequence1 s2 Hfi Hit) as Hsh.
  apply removes_block_length in Hsh.
  cbn zeta.
  assert (Hnext : forall s', loop predicate fuel
            (if length sequence =? length sequence1 then S i else i - 1) sequence1 s'
            <> None).
  { intros s'. destruct Hsh as [-> | [Hshort Hi1]].
    - rewrite Nat.eqb_refl. apply IH; lia.
    - destruct (Nat.eqb_spec (length sequence) (length sequence1)); [lia|].
      apply IH; lia. }
  destruct (i + 2 <? length sequence1); [|apply Hnext].
  destruct (predicate s2 (delete_at i (delete_at (i + 2) sequence1))) as [[|] s3];
    [discriminate | apply Hnext].
Qed.

(** Every sequence the sweep holds, and the one it returns, is a
    subsequence of [orig]; any property of the predicate's state that
    calls on subsequences of [orig] preserve holds at the end. *)
Lemma loop_invariant (orig : list A) (I : St -> Prop)
    (Hpres : forall st c r st', I st -> c `sublist_of` orig ->
               predicate st c = (r, st') -> I st') :
  forall fuel i sequence s sequence' s',
  sequence `sublist_of` orig -> I s ->
  loop predicate fuel i sequence s = Some (sequence', s') ->
  sequence' `sublist_of` orig /\ I s'.
Proof.
  induction fuel as [|fuel IH]; intros i sequence s sequence' s' Hsub Hs Hrun;
    cbn [loop] in Hrun; [discriminate|].
  destruct (i <? length sequence) eqn:Hlt; [|injection Hrun as <- <-; auto].
  destruct (find_integer fuel (probe predicate i (firstn i sequence) sequence) s)
    as [[n s1]|] eqn:Hfi; [|discriminate].
  assert (Hs1 : I s1).
  { apply (FindIntegerFacts.find_integer_preserves St
             (probe predicate i (firstn i sequence) sequence) I) with fuel s n; auto.
    intros k t r t' Ht. unfold probe.
    destruct (i + k <=? length sequence) eqn:E; [|intros [= _ <-]; exact Ht].
    intros Hp. apply (Hpres t (firstn i sequence ++ skipn (i + k) sequence) r t' Ht); [|exact Hp].
    etrans; [apply skip_sublist | exact Hsub]. }
  destruct (if 0 <? n then _ else _) as [sequence1 s2] eqn:Hit.
  pose proof (iteration_shape fuel i sequence s n s1 sequence1 s2 Hfi Hit) as Hsh.
  apply removes_block_sublist in Hsh.
  assert (Hsub1 : sequence1 `sublist_of` orig) by (etrans; eauto).
  assert (Hs2 : I s2).
  { destruct (0 <? n).
    - injection Hit as _ <-. exact Hs1.
    - revert Hit. cbn [fallback].
      destruct (i + 2 <=? length sequence) eqn:E2;
        [destruct (predicate s1 (firstn i sequence ++ skipn (i + 2) sequence))
           as [[|] t1] eqn:Hp1;
         (apply Hpres in Hp1; [|exact Hs1|etrans; [apply skip_sublist|exact Hsub]])|];
        try (intros [= _ <-]; assumption);
        (destruct (i + 3 <=? length sequence) eqn:E3;
         [destruct (predicate _ (firstn i sequence ++ skipn (i + 3) sequence))
            as [[|] t2] eqn:Hp2;
          (apply Hpres in Hp2; [|assumption|etrans; [apply skip_sublist|exact Hsub]])|]);
        intros [= _ <-]; assumption. }
  cbn zeta in Hrun.
  destruct (i + 2 <? length sequence1).
  - destruct (predicate s2 (delete_at i (delete_at (i + 2) sequence1)))
      as [r3 s3] eqn:Hp3.
    assert (Hd : delete_at i (delete_at (i + 2) sequence1) `sublist_of` orig).
    { etrans; [apply delete_at_sublist|]. etrans; [apply delete_at_sublist|exact Hsub1]. }
    apply (Hpres s2 _ r3 s3 Hs2 Hd) in Hp3.
    destruct r3; [injection Hrun as <- <-; auto|].
    eapply IH; [exact Hsub1 | exact Hp3 | exact Hrun].
  - eapply IH; [exact Hsub1 | exact Hs2 | exact Hrun].
Qed.

End WithPredicate.

Lemma fallback_accepted {A} (p : list A -> bool) offsets i prefix sequence calls
    sequence1 calls1 :
  fallback (logged p) offsets i prefix sequence calls = (sequence1, calls1) ->
  sequence1 = sequence \/ p sequence1 = true.
Proof.
  revert calls. induction offsets as [|o offs IH]; intros calls; cbn [fallback].
  - intros [= <- _]. auto.
  - destruct (i + o <=? length sequence); [|apply IH].
    unfold logged at 1. destruct (p (prefix ++ skipn (i + o) sequence)) eqn:P.
    + intros [= <- _]. auto.
    + apply IH.
Qed.

(** With a pure predicate [p]: the sweep only ever holds the input or a
    sequence [p] accepted. *)
Lemma loop_accepted {A} (p : list A -> bool) (orig : list A) :
  forall fuel i sequence calls sequence' calls',
  (sequence = orig \/ p sequence = true) ->
  loop (logged p) fuel i sequence calls = Some (sequence', calls') ->
  sequence' = orig \/ p sequence' = true.
Proof.
  induction fuel as [|fuel IH]; intros i sequence calls sequence' calls' Hok Hrun;
    cbn [loop] in Hrun; [discriminate|].
  destruct (i <? length sequence) eqn:Hlt; [|injection Hrun as <- <-; auto].
  destruct (find_integer fuel (probe (logged p) i (firstn i sequence) sequence) calls)
    as [[n s1]|] eqn:Hfi; [|discriminate].
  destruct (if 0 <? n then _ else _) as [sequence1 s2] eqn:Hit.
  assert (Hok1 : sequence1 = orig \/ p sequence1 = true).
  { destruct (0 <? n) eqn:En.
    - injection Hit as <- _. right. apply Nat.ltb_lt in En.
      destruct (FindIntegerFacts.find_integer_answer (list (list A))
                  (probe (logged p) i (firstn i sequence) sequence)
                  (fun k => p (firstn i sequence ++ skipn (i + k) sequence) = true)
                  (fun _ => True)) with fuel calls n s1
        as [[Hn | Hn] _]; auto; [|lia].
      intros k t r t' Hk. split; [|auto]. intros ->. revert Hk. unfold probe.
      destruct (i + k <=? length sequence); [|discriminate].
      unfold logged. intros Hk. apply (f_equal fst) in Hk. exact Hk.
    - apply fallback_accepted in Hit as [-> | ?]; auto. }
  cbn zeta in Hrun.
  destruct (i + 2 <? length sequence1).
  - unfold logged at 1 in Hrun.
    destruct (p (delete_at i (delete_at (i + 2) sequence1))) eqn:P.
    + injection Hrun as <- _. auto.
    + eapply IH; [exact Hok1 | exact Hrun].
  - eapply IH; [exact Hok1 | exact Hrun].
Qed.

End LinearReduceFacts.

Module SequenceExtras.
Import FindInteger LinearReduce.

(** Property X1.  For every [f], monotone or not, the result [n] of [find_integer] has
    [f(n + 1)] false and [f(n)] true unless [n = 0]; [f(0)] is never
    called and no argument is evaluated twice. *)
Theorem find_integer_any_boundary (f : nat -> bool) (fuel r : nat) (calls : list nat)
    (Hrun : find_integer fuel (FindInteger.logged f) [] = Some (r, calls)) :
  f (S r) = false /\ (r = 0 \/ f r = true) /\ ~ In 0 calls /\ List.NoDup calls.
Proof.
  destruct (FindIntegerProofs.find_integer_boundary f fuel r calls Hrun)
    as (Hr & Hs & H1 & Hnd).
  split; [exact Hs | split; [exact Hr | split; [|exact Hnd]]].
  intros H0. apply H1 in H0. lia.
Qed.

(** Property X2.  [find_integer] returns for every (possibly stateful) [f] that answers
    [False] on all arguments above some bound [B], with fuel [B + 4], and
    its result is at most [B]. *)
Theorem find_integer_terminates {St : Type} (f : nat -> St -> bool * St)
    (B fuel : nat) (s : St)
    (Hbeyond : forall k t, B < k -> fst (f k t) = false)
    (Hfuel : B + 4 <= fuel) :
  exists r s', find_integer fuel f s = Some (r, s') /\ r <= B.
Proof.
  destruct (find_integer fuel f s) as [[r s']|] eqn:Hrun.
  - exists r, s'. split; [reflexivity|].
    destruct (FindIntegerFacts.find_integer_answer St f (fun k => k <= B) (fun _ => True))
      with fuel s r s' as [[Hr | Hr] _]; auto; [|lia].
    intros k t r' t' Hk. split; [|auto]. intros ->.
    destruct (Nat.le_gt_cases k B) as [|Hgt]; auto.
    pose proof (Hbeyond k t Hgt) as Hf. rewrite Hk in Hf. discriminate.
  - exfalso. revert Hrun. apply (FindIntegerFacts.find_integer_total_any St f B);
      assumption.
Qed.

(** Property X3.  [linear_reduce] returns for every predicate, stateful or not, when
    given fuel [3 * len(sequence) + 7]: the sweep and every
    [find_integer] inside it terminate. *)
Theorem linear_reduce_terminates {A St : Type} (predicate : St -> list A -> bool * St)
    (sequence : list A) (s : St) (fuel : nat)
    (Hfuel : 3 * length sequence + 7 <= fuel) :
  linear_reduce predicate fuel sequence s <> None.
Proof.
  unfold linear_reduce. apply LinearReduceFacts.loop_total; lia.
Qed.

(** Property X4.  The list [linear_reduce] returns (the final value of
    [sequence]) is a subsequence of the input, and so is every candidate it
    passes to the predicate. *)
Theorem linear_reduce_subsequence {A St : Type} (predicate : St -> list A -> bool * St)
    (fuel : nat) (sequence : list A) (s : St) (r : list A) (s' : St)
    (log : list (list A))
    (Hrun : linear_reduce (Observe.tap predicate) fuel sequence (s, []) =
            Some (r, (s', log))) :
  r `sublist_of` sequence /\ Forall (fun c => c `sublist_of` sequence) log.
Proof.
  apply (LinearReduceFacts.loop_invariant _ _ (Observe.tap predicate) sequence
           (fun st => Forall (fun c => c `sublist_of` sequence) (snd st))) in Hrun.
  - exact Hrun.
  - intros [t l] c r' [t' l'] Hl Hc. unfold Observe.tap. simpl.
    destruct (predicate t c) as [r0 t0]. intros [= _ <- <-].
    apply Forall_app. split; [exact Hl | constructor; [exact Hc | constructor]].
  - reflexivity.
  - constructor.
Qed.

(** Property X5.  With a pure predicate [p], the list [linear_reduce]
    returns (the final value of [sequence]) is the input unchanged or a
    list that [p] accepts. *)
Theorem linear_reduce_accepted {A : Type} (p : list A -> bool) (fuel : nat)
    (sequence : list A) (calls : list (list A)) (r : list A) (calls' : list (list A))
    (Hrun : linear_reduce (logged p) fuel sequence calls = Some (r, calls')) :
  r = sequence \/ p r = true.
Proof.
  apply (LinearReduceFacts.loop_accepted p sequence fuel 0 sequence calls r calls');
    auto.
Qed.

End SequenceExtras.

Module BracketNestingProofs.
Import Bytes Brackets BracketNesting.

Lemma nest_inv_scan (leftb rightb : Byte.byte) : forall t i stack results,
  nest_inv i stack results ->
  let '(st', res') := scan leftb rightb t i stack results in
  nest_inv (i + length t) st' res'.
Proof.
  induction t as [|c t IH]; intros i stack results Hinv.
  - simpl. rewrite Nat.add_0_r. exact Hinv.
  - destruct Hinv as (Hsort & Hst & Hres & Hout & Hnest).
    simpl. replace (i + S (length t)) with (S i + length t) by lia.
    destruct (Byte.eqb c leftb).
    + apply IH. split; [|split; [|split; [|split]]].
      * constructor; [exact Hsort|]. apply List.Forall_forall. intros s Hs.
        apply Hst in Hs. unfold gt. lia.
      * intros s [<- | Hs]; [lia | apply Hst in Hs; lia].
      * intros c0 d Hcd. apply Hres in Hcd. lia.
      * intros s c0 d [<- | Hs] Hcd; [apply Hres in Hcd; lia | apply (Hout s c0 d Hs Hcd)].
      * exact Hnest.
    + destruct (Byte.eqb c rightb); [destruct stack as [|j st]|].
      * apply IH. split; [exact Hsort|split; [intros s []|split; [|split; [intros s c0 d []|exact Hnest]]]].
        intros c0 d Hcd. apply Hres in Hcd. lia.
      * apply StronglySorted_inv in Hsort as [Hsort Hj].
        rewrite List.Forall_forall in Hj.
        assert (Hji : j < i) by (apply Hst; left; reflexivity).
        apply IH. split; [|split; [|split; [|split]]].
        -- exact Hsort.
        -- intros s Hs. assert (s < i) by (apply Hst; right; exact Hs). lia.
        -- intros c0 d Hcd. apply in_app_or in Hcd as [Hcd | [[= <- <-] | []]];
             [apply Hres in Hcd; lia | lia].
        -- intros s c0 d Hs Hcd.
           assert (Hsj : s < j) by (apply Hj in Hs; unfold gt in Hs; lia).
           apply in_app_or in Hcd as [Hcd | [[= <- <-] | []]]; [|lia].
           apply (Hout s c0 d (or_intror Hs) Hcd).
        -- assert (Hnew : forall q, In q results -> nested_or_disjoint (j, i) q).
           { intros [c0 d] Hq. unfold nested_or_disjoint. simpl.
             pose proof (Hres c0 d Hq) as Hcd.
             destruct (Hout j c0 d (or_introl eq_refl) Hq); [|lia].
             right. right. right. left. lia. }
           assert (Hsym : forall p q, nested_or_disjoint p q -> nested_or_disjoint q p).
           { intros p q. unfold nested_or_disjoint. intuition. }
           intros p q Hp Hq.
           apply in_app_or in Hp as [Hp | [<- | []]];
             apply in_app_or in Hq as [Hq | [<- | []]].
           ++ apply Hnest; assumption.
           ++ apply Hsym, Hnew. exact Hp.
           ++ apply Hnew. exact Hq.
           ++ left. reflexivity.
      * apply IH. split; [exact Hsort|split; [|split; [|split; [exact Hout|exact Hnest]]]].
        -- intros s Hs. apply Hst in Hs. lia.
        -- intros c0 d Hcd. apply Hres in Hcd. lia.
Qed.

Lemma depth_between_S (leftb rightb : Byte.byte) (target : bytes) (a i : nat)
    (c : Byte.byte) :
  a < i -> nth_error target i = Some c ->
  depth_between leftb rightb target a (S i) =
  depth_step leftb rightb (depth_between leftb rightb target a i) c.
Proof.
  intros Hai Hc. unfold depth_between.
  replace (S i - S a) with (S (i - S a)) by lia.
  rewrite seq_S, fold_left_app. cbn [fold_left].
  replace (S a + (i - S a)) with i by lia. rewrite Hc. reflexivity.
Qed.

Lemma depth_between_next (leftb rightb : Byte.byte) (target : bytes) (i : nat) :
  depth_between leftb rightb target i (S i) = Some 0.
Proof. unfold depth_between. rewrite Nat.sub_diag. reflexivity. Qed.

Lemma skipn_cons_nth {A} : forall (l : list A) (i : nat) (c : A) (t : list A),
  skipn i l = c :: t -> nth_error l i = Some c /\ skipn (S i) l = t.
Proof.
  induction l as [|x l IH]; intros [|i] c t H; simpl in *; try discriminate.
  - injection H as -> ->. auto.
  - apply IH. exact H.
Qed.

(** The scan keeps, for the index [a] at depth [d] of the stack (counted
    from the top), the depth [d] between [a] and the current index; a pair
    is emitted when its open byte is on top, at depth 0. *)
Lemma scan_balanced (leftb rightb : Byte.byte) (target : bytes) :
  forall t i stack results,
  skipn i target = t ->
  (forall d a, nth_error stack d = Some a ->
     a < i /\ depth_between leftb rightb target a i = Some d) ->
  (forall a c, In (a, c) results -> depth_between leftb rightb target a c = Some 0) ->
  forall a c, In (a, c) (snd (scan leftb rightb t i stack results)) ->
  depth_between leftb rightb target a c = Some 0.
Proof.
  induction t as [|x t IH]; intros i stack results Ht Hst Hres; simpl; [exact Hres|].
  destruct (skipn_cons_nth target i x t Ht) as [Hx Ht'].
  destruct (Byte.eqb x leftb) eqn:El.
  - apply (IH (S i)); [exact Ht' | | exact Hres].
    intros [|d] a Hd; simpl in Hd.
    + injection Hd as <-. split; [lia | apply depth_between_next].
    + destruct (Hst d a Hd) as [Hai Hdep]. split; [lia|].
      rewrite (depth_between_S leftb rightb target a i x Hai Hx), Hdep.
      unfold depth_step. rewrite El. reflexivity.
  - destruct (Byte.eqb x rightb) eqn:Er.
    + destruct stack as [|j stack'].
      * apply (IH (S i)); [exact Ht' | | exact Hres].
        intros [|d] a Hd; simpl in Hd; discriminate.
      * apply (IH (S i)); [exact Ht' | |].
        -- intros d a Hd. destruct (Hst (S d) a Hd) as [Hai Hdep]. split; [lia|].
           rewrite (depth_between_S leftb rightb target a i x Hai Hx), Hdep.
           unfold depth_step. rewrite El, Er. reflexivity.
        -- intros a c Hac. apply in_app_or in Hac as [Hac | [Hac | []]];
             [exact (Hres a c Hac)|].
           injection Hac as <- <-. destruct (Hst 0 j eq_refl) as [_ H0]. exact H0.
    + apply (IH (S i)); [exact Ht' | | exact Hres].
      intros d a Hd. destruct (Hst d a Hd) as [Hai Hdep]. split; [lia|].
      rewrite (depth_between_S leftb rightb target a i x Hai Hx), Hdep.
      unfold depth_step. rewrite El, Er. reflexivity.
Qed.

End BracketNestingProofs.

Module BracketExtras.
Import Bytes Brackets BracketNesting.

(** Property X6.  The pairs found by [find_paired_brackets] are properly nested: two
    different pairs are either disjoint or one lies strictly inside the
    other; they never cross. *)
Theorem find_paired_brackets_nested (bracket target : bytes) (ps : list (nat * nat))
    (Hfind : find_paired_brackets bracket target = Some ps) :
  forall p q, In p ps -> In q ps ->
    p = q \/ snd p < fst q \/ snd q < fst p \/
    (fst p < fst q /\ snd q < snd p) \/ (fst q < fst p /\ snd p < snd q).
Proof.
  destruct bracket as [|leftb [|rightb [|]]]; try discriminate.
  injection Hfind as <-.
  pose proof (BracketNestingProofs.nest_inv_scan leftb rightb target 0 [] []) as Hinv.
  destruct (scan leftb rightb target 0 [] []) as [st res]. simpl.
  destruct Hinv as (_ & _ & _ & _ & Hnest).
  - split; [constructor|split; [intros s []|split; [intros c d []|split]]].
    + intros s c d [].
    + intros p q [].
  - exact Hnest.
Qed.

(** Property X7.  For every pair [(i, j)] that [find_paired_brackets]
    returns, the bytes strictly between [i] and [j] are balanced: reading
    them from depth 0, a close byte never comes at depth 0 and the depth
    is back to 0 at the end.  The pairing is the usual bracket matching. *)
Theorem find_paired_brackets_balanced (leftb rightb : Byte.byte) (target : bytes)
    (ps : list (nat * nat))
    (Hfind : find_paired_brackets [leftb; rightb] target = Some ps) :
  forall i j, In (i, j) ps -> depth_between leftb rightb target i j = Some 0.
Proof.
  unfold find_paired_brackets in Hfind. injection Hfind as <-.
  intros i j Hij.
  apply (BracketNestingProofs.scan_balanced leftb rightb target target 0 [] []);
    [reflexivity | | | exact Hij].
  - intros [|d] a Hd; simpl in Hd; discriminate.
  - intros a c [].
Qed.

End BracketExtras.

Module PassFacts.
Import Bytes Engine Replace.

Lemma sort_key_le_length (x y : bytes) :
  sort_key_le x y = true -> length x <= length y.
Proof.
  unfold sort_key_le, sort_key_compare.
  destruct (Nat.compare_spec (length x) (length y)); try lia; discriminate.
Qed.

Lemma predicate_le (ext : bytes -> bool) (s : engine) (v : bytes) (r : bool) (s' : engine) :
  predicate ext s v = (r, s') -> sort_key_le (current s') (current s) = true.
Proof.
  intros H. apply EngineProofs.predicate_step in H. tauto.
Qed.

Lemma attempt_le (ext : bytes -> bool) (s : engine) (v : bytes) (r : bool) (s' : engine) :
  attempt ext s v = (r, s') -> sort_key_le (current s') (current s) = true.
Proof.
  unfold attempt. destruct (sort_key_lt v (current s)); [apply predicate_le|].
  intros [= _ <-]. apply OrderProofs.sort_key_le_refl.
Qed.

Lemma is_prefix_single (c : Byte.byte) (s : bytes) :
  is_prefix [c] s = match s with [] => false | d :: _ => Byte.eqb c d end.
Proof. destruct s; simpl; [reflexivity | apply andb_true_r]. Qed.

Lemma replace_go_single (c : Byte.byte) : forall n v,
  length v <= n ->
  replace_go [c] [] n v = List.filter (fun d => negb (Byte.eqb c d)) v.
Proof.
  induction n as [|n IH]; intros v Hn.
  - destruct v; [reflexivity | simpl in Hn; lia].
  - destruct v as [|d v]; [reflexivity|]. cbn [replace_go].
    rewrite is_prefix_single. simpl in Hn. simpl.
    destruct (Byte.eqb c d); simpl; rewrite ?drop_0, IH by lia; reflexivity.
Qed.

(** Removing every occurrence of one byte. *)
Lemma replace_single (c : Byte.byte) (v : bytes) :
  replace [c] [] v = List.filter (fun d => negb (Byte.eqb c d)) v.
Proof. apply replace_go_single. lia. Qed.

Lemma join_nil_split_go (c : Byte.byte) : forall n s acc,
  length s <= n ->
  join [] (split_go [c] n s acc) =
  rev acc ++ List.filter (fun d => negb (Byte.eqb c d)) s.
Proof.
  induction n as [|n IH]; intros s acc Hn.
  - destruct s; [simpl; rewrite app_nil_r; reflexivity | simpl in Hn; lia].
  - destruct s as [|d s]; [simpl; rewrite app_nil_r; reflexivity|].
    cbn [split_go]. rewrite is_prefix_single. simpl in Hn.
    rewrite !DelimiterProofs.join_nil_concat in *.
    destruct (Byte.eqb c d) eqn:E; simpl.
    + rewrite <- DelimiterProofs.join_nil_concat, ?drop_0, IH by lia. rewrite E. simpl. reflexivity.
    + rewrite <- DelimiterProofs.join_nil_concat, IH by lia. rewrite E. simpl.
      rewrite <- app_assoc. reflexivity.
Qed.

Lemma split_go_nonempty (sep : bytes) : forall n s acc, split_go sep n s acc <> [].
Proof.
  induction n as [|n IH]; intros s acc; simpl; [discriminate|].
  destruct s as [|d s]; [discriminate|].
  destruct (is_prefix sep (d :: s)); [discriminate | apply IH].
Qed.

Lemma join_split_go (c : Byte.byte) : forall n s acc,
  length s <= n ->
  join [c] (split_go [c] n s acc) = rev acc ++ s.
Proof.
  induction n as [|n IH]; intros s acc Hn.
  - destruct s; [simpl; rewrite app_nil_r; reflexivity | simpl in Hn; lia].
  - destruct s as [|d s]; [simpl; rewrite app_nil_r; reflexivity|].
    cbn [split_go]. rewrite is_prefix_single. simpl in Hn.
    destruct (Byte.eqb c d) eqn:E.
    + apply BracketProofs.byte_eqb_true in E. subst d. simpl.
      destruct (split_go [c] n s []) as [|p ps] eqn:Hs.
      { exfalso. exact (split_go_nonempty [c] n s [] Hs). }
      rewrite drop_0, Hs. cbv iota beta. rewrite <- Hs, IH by lia. simpl. reflexivity.
    + rewrite IH by lia. simpl. rewrite <- app_assoc. reflexivity.
Qed.

End PassFacts.

Module PrefixLinesFacts.
Import Bytes Engine PrefixLines.

Lemma index_go_ge (c : Byte.byte) : forall s k i, index_go c s k = Some i -> k <= i.
Proof.
  induction s as [|d s IH]; intros k i; simpl; [discriminate|].
  destruct (Byte.eqb d c); [intros [= <-]; lia|].
  intros H. apply IH in H. lia.
Qed.

Lemma take_prefixes_total (ext : bytes -> bool) (t : Byte.byte) : forall fuel i s,
  length (current s) < fuel + i -> 0 < fuel -> take_prefixes ext fuel t i s <> None.
Proof.
  induction fuel as [|fuel IH]; intros i s Hlen Hpos; [lia|].
  cbn [take_prefixes].
  destruct (i <? length (current s)) eqn:Hi; [|discriminate].
  apply Nat.ltb_lt in Hi.
  match goal with |- context [attempt ext s ?v] =>
    destruct (attempt ext s v) as [r s1] eqn:Ha end.
  apply PassFacts.attempt_le, PassFacts.sort_key_le_length in Ha.
  destruct (index space (current s1) (S i)) as [i'|] eqn:Hidx; [|discriminate].
  unfold index in Hidx. apply index_go_ge in Hidx.
  apply IH; lia.
Qed.

Lemma take_prefixes_le (ext : bytes -> bool) (t : Byte.byte) : forall fuel i s s',
  take_prefixes ext fuel t i s = Some s' -> sort_key_le (current s') (current s) = true.
Proof.
  induction fuel as [|fuel IH]; intros i s s' Hrun; cbn [take_prefixes] in Hrun;
    [discriminate|].
  destruct (i <? length (current s)); [|injection Hrun as <-; apply OrderProofs.sort_key_le_refl].
  match type of Hrun with context [attempt ext s ?v] =>
    destruct (attempt ext s v) as [r s1] eqn:Ha end.
  apply PassFacts.attempt_le in Ha.
  destruct (index space (current s1) (S i)).
  - eapply OrderProofs.sort_key_le_trans; [eapply IH; exact Hrun | exact Ha].
  - injection Hrun as <-. exact Ha.
Qed.

End PrefixLinesFacts.

Module PassExtras.
Import Bytes Engine Replace RemoveByte ReduceByBytes PrefixLines Delimiter LinearReduce.

(** Property X8.  Splitting on a one-byte delimiter never fails, and joining the parts
    back with the delimiter gives the original value: the sequence that
    [reduce_by_delimiter] hands to [linear_reduce] (reversed twice by the
    predicate) stands for [current] itself. *)
Theorem split_join_roundtrip (c : Byte.byte) (v : bytes) :
  exists parts, split [c] v = Some parts /\ join [c] (rev (rev parts)) = v.
Proof.
  eexists. split; [reflexivity|]. rewrite rev_involutive.
  apply PassFacts.join_split_go. lia.
Qed.

(** Property X9.  The first candidate of [reduce_by_delimiter(c)],
    [b"".join(current.split(c))], is [current] with every [c] byte
    removed: the same value [remove_byte(c)] tries. *)
Theorem reduce_by_delimiter_first_candidate (c : Byte.byte) (v : bytes) :
  exists parts, split [c] v = Some parts /\
    join [] parts = List.filter (fun d => negb (Byte.eqb c d)) v /\
    join [] parts = replace [c] [] v.
Proof.
  eexists. split; [reflexivity|].
  rewrite PassFacts.replace_single. unfold split.
  rewrite PassFacts.join_nil_split_go by lia. simpl. auto.
Qed.

(** Property X10.  [remove_byte(c)] for a byte that does not occur in [current] returns
    [False] without calling the predicate: the engine, cache included, is
    unchanged. *)
Theorem remove_byte_absent (ext : bytes -> bool) (c : int_or_bytes) (x : Byte.byte)
    (s : engine)
    (Hc : to_bs c = Some [x]) (Habsent : ~ In x (current s)) :
  remove_byte ext c s = Some (false, s).
Proof.
  unfold remove_byte. rewrite Hc, PassFacts.replace_single.
  assert (Hf : List.filter (fun d => negb (Byte.eqb x d)) (current s) = current s).
  { apply forallb_filter_id. apply forallb_forall. intros d Hd.
    destruct (Byte.eqb x d) eqn:E; [|reflexivity].
    apply BracketProofs.byte_eqb_true in E. subst d. contradiction. }
  rewrite Hf. unfold attempt. rewrite OrderProofs.sort_key_lt_irrefl. reflexivity.
Qed.

(** Property X11.  On an engine reachable from [init], a [remove_byte(c)] that returns
    [True] has removed every occurrence of the byte from [current],
    provided the candidate shares its 64-bit fingerprint with no other
    value queried so far. *)
Theorem remove_byte_removes (ext : bytes -> bool) (initial : bytes) (s0 : engine)
    (cs : list call) (c : int_or_bytes) (x : Byte.byte) (s' : engine)
    (Hinit : init ext initial = Some s0)
    (Hc : to_bs c = Some [x])
    (Hcf : collision_free (replace [x] [] (current (after ext s0 cs))
                           :: initial :: map call_value cs) = true)
    (Hrun : remove_byte ext c (after ext s0 cs) = Some (true, s')) :
  current s' = List.filter (fun d => negb (Byte.eqb x d)) (current (after ext s0 cs)) /\
  ~ In x (current s').
Proof.
  unfold remove_byte in Hrun. rewrite Hc in Hrun. injection Hrun as Ha.
  apply (DelimiterProofs.attempt_true_adopts ext
           (replace [x] [] (current (after ext s0 cs)) :: initial :: map call_value cs))
    in Ha; [| | exact Hcf | left; reflexivity].
  - rewrite PassFacts.replace_go_single in Ha by lia. split; [exact Ha|].
    rewrite Ha. intros Hin. apply filter_In in Hin as [_ Hx].
    rewrite (proj2 (BracketProofs.byte_eqb_true x x) eq_refl) in Hx. discriminate.
  - apply DelimiterProofs.after_honest.
    + intros c' Hc'. right. right. apply in_map. exact Hc'.
    + apply (EngineProofs.init_honest ext initial); [exact Hinit | right; left; reflexivity].
Qed.

(** Property X13.  [reduce_by_bytes] returns for every external predicate when given
    fuel [3 * len(current) + 7], and never makes [sort_key(current)]
    larger. *)
Theorem reduce_by_bytes_terminates (ext : bytes -> bool) (s : engine) (fuel : nat)
    (Hfuel : 3 * length (current s) + 7 <= fuel) :
  exists s', reduce_by_bytes ext fuel s = Some s' /\
    sort_key_le (current s') (current s) = true.
Proof.
  unfold reduce_by_bytes.
  destruct (linear_reduce (fun st ls => predicate ext st ls) fuel (current s) s)
    as [[r s']|] eqn:Hrun.
  - exists s'. split; [reflexivity|].
    unfold linear_reduce in Hrun.
    apply (LinearReduceFacts.loop_invariant _ _ (fun st ls => predicate ext st ls)
             (current s) (fun st => sort_key_le (current st) (current s) = true)) in Hrun.
    + tauto.
    + intros st v r0 st' Hst _ Hp. apply PassFacts.predicate_le in Hp.
      eapply OrderProofs.sort_key_le_trans; eassumption.
    + reflexivity.
    + apply OrderProofs.sort_key_le_refl.
  - exfalso. revert Hrun. unfold linear_reduce.
    apply LinearReduceFacts.loop_total; lia.
Qed.

(** Property X15.  [prefix_lines] returns for every external predicate when given fuel
    [len(current) + 1]: the cursor [i] strictly increases and [current]
    never grows. *)
Theorem prefix_lines_terminates (ext : bytes -> bool) (fuel : nat) (s : engine)
    (Hfuel : length (current s) < fuel) :
  prefix_lines ext fuel s <> None.
Proof.
  unfold prefix_lines. cbn [prefix_lines_go].
  destruct (index space (current s) 0) as [i|]; [|discriminate].
  destruct (take_prefixes ext fuel Byte.x0a i s) as [s1|] eqn:H1.
  2:{ exfalso. revert H1. apply PrefixLinesFacts.take_prefixes_total; lia. }
  pose proof (PrefixLinesFacts.take_prefixes_le ext _ fuel i s s1 H1) as Hle.
  apply PassFacts.sort_key_le_length in Hle.
  destruct (index space (current s1) 0) as [i1|]; [|discriminate].
  destruct (take_prefixes ext fuel Byte.x3b i1 s1) as [s2|] eqn:H2; [discriminate|].
  exfalso. revert H2. apply PrefixLinesFacts.take_prefixes_total; lia.
Qed.

End PassExtras.

Module DeleteSetsFacts.
Import Bytes Engine FindInteger Brackets DeleteSets.

Lemma mem_In (x : nat) (l : list nat) : mem x l = true <-> In x l.
Proof.
  unfold mem. rewrite existsb_exists. split.
  - intros (y & Hy & E). apply Nat.eqb_eq in E. subst. exact Hy.
  - intros Hx. exists x. split; [exact Hx | apply Nat.eqb_refl].
Qed.

Lemma mem_app (x : nat) (l l' : list nat) : mem x (l ++ l') = mem x l || mem x l'.
Proof. unfold mem. apply existsb_app. Qed.

Lemma insert_by_key_In (s S : list nat) : forall l,
  In S (insert_by_key s l) <-> s = S \/ In S l.
Proof.
  induction l as [|t l IH]; simpl; [tauto|].
  destruct (set_key_compare t s); simpl; rewrite ?IH; tauto.
Qed.

Lemma insert_by_key_length (s : list nat) : forall l,
  length (insert_by_key s l) = S (length l).
Proof.
  induction l as [|t l IH]; simpl; [reflexivity|].
  destruct (set_key_compare t s); simpl; rewrite ?IH; reflexivity.
Qed.

Lemma sort_sets_go_In (S : list nat) : forall l acc,
  In S (fold_left (fun acc s => insert_by_key s acc) l acc) -> In S acc \/ In S l.
Proof.
  induction l as [|s l IH]; intros acc H; simpl in *; [tauto|].
  apply IH in H as [H | H]; [apply insert_by_key_In in H|]; tauto.
Qed.

Lemma sort_sets_In (S : list nat) (l : list (list nat)) :
  In S (sort_sets l) -> In S l.
Proof. intros H. apply sort_sets_go_In in H as [[]|H]. exact H. Qed.

Lemma sort_sets_length (l : list (list nat)) : length (sort_sets l) = length l.
Proof.
  unfold sort_sets.
  assert (forall acc, length (fold_left (fun acc s => insert_by_key s acc) l acc) =
                      length acc + length l) as H; [|apply H].
  induction l as [|s l IH]; intros acc; simpl; [lia|].
  rewrite IH, insert_by_key_length. lia.
Qed.

(** Every index of a sorted set of frozen sets comes from one of the
    original sets. *)
Lemma sorted_frozen_In (sets0 : list (list nat)) (S : list nat) (x : nat) :
  In S (sort_sets (map frozen sets0)) -> In x S -> exists S0, In S0 sets0 /\ In x S0.
Proof.
  intros HS Hx. apply sort_sets_In, in_map_iff in HS as (S0 & <- & HS0).
  exists S0. split; [exact HS0|]. apply nodup_In in Hx. exact Hx.
Qed.

Lemma union_range_In (sets : list (list nat)) (i j x : nat) :
  In x (union_range sets i j) -> exists S, In S sets /\ In x S.
Proof.
  unfold union_range. intros H. apply in_concat in H as (S & HS & Hx).
  exists S. split; [|exact Hx].
  rewrite <- (firstn_skipn i sets). apply in_or_app. right.
  rewrite <- (firstn_skipn (j - i) (skipn i sets)). apply in_or_app. left. exact HS.
Qed.

Lemma mem_filter_seq (R : list nat) (n x : nat) :
  x < n -> mem x (List.filter (fun y => negb (mem y R)) (seq 0 n)) = negb (mem x R).
Proof.
  intros Hx. apply Bool.eq_iff_eq_true. rewrite mem_In, filter_In, in_seq. 
  split; [tauto | intros H; repeat split; auto; lia].
Qed.

(** The candidate of [try_remove] is [target] without the indices of
    [to_remove] and those already gone from [retained]. *)
Lemma kept_keep_except (target : bytes) (R T : list nat) :
  kept target R T =
    keep_except target (T ++ List.filter (fun y => negb (mem y R)) (seq 0 (length target))).
Proof.
  unfold kept, keep_except. f_equal. apply filter_ext_in.
  intros [k c] Hin. apply in_combine_l, in_seq in Hin. simpl.
  rewrite mem_app, mem_filter_seq by lia.
  destruct (mem k R), (mem k T); reflexivity.
Qed.

Lemma filter_keep_from (Q : Byte.byte -> bool) (D : list nat) : forall t k,
  (forall x d, In x D -> k <= x -> nth_error t (x - k) = Some d -> Q d = false) ->
  List.filter Q (map snd (List.filter (fun p => negb (mem (fst p) D))
                            (combine (seq k (length t)) t))) = List.filter Q t.
Proof.
  induction t as [|c t IH]; intros k HD; [reflexivity|].
  simpl. destruct (mem k D) eqn:E; simpl.
  - assert (Q c = false) as ->.
    { apply (HD k c); [apply mem_In; exact E | lia | rewrite Nat.sub_diag; reflexivity]. }
    apply IH. intros x d Hx Hk Hn. apply (HD x d Hx); [lia|].
    replace (x - k) with (S (x - S k)) by lia. exact Hn.
  - rewrite IH; [reflexivity|].
    intros x d Hx Hk Hn. apply (HD x d Hx); [lia|].
    replace (x - k) with (S (x - S k)) by lia. exact Hn.
Qed.

(** Deleting only bytes [Q] rejects leaves the bytes [Q] accepts. *)
Lemma keep_except_filter (Q : Byte.byte -> bool) (target : bytes) (D : list nat) :
  (forall x d, In x D -> nth_error target x = Some d -> Q d = false) ->
  List.filter Q (keep_except target D) = List.filter Q target.
Proof.
  intros HD. apply filter_keep_from. intros x d Hx _ Hn.
  rewrite Nat.sub_0_r in Hn. exact (HD x d Hx Hn).
Qed.

Section Invariant.

Variable St : Type.
Variable pred : St -> bytes -> bool * St.
Variables (sets : list (list nat)) (target : bytes).
Variable J : list nat * St -> Prop.
Hypothesis Hstep : forall i j st r st',
  J st -> try_remove pred sets target i j st = (r, st') -> J st'.

Lemma sweep_preserves : forall fuel i st st',
  J st -> sweep pred sets target fuel i st = Some st' -> J st'.
Proof.
  induction fuel as [|fuel IH]; intros i st st' Hst Hrun; simpl in Hrun; [discriminate|].
  destruct (i <? length sets); [|injection Hrun as <-; exact Hst].
  destruct (find_integer fuel (fun t st => try_remove pred sets target i (i + t) st) st)
    as [[k st1]|] eqn:Hf; [|discriminate].
  apply (IH (i + k + 1) st1); [|exact Hrun].
  apply (FindIntegerFacts.find_integer_preserves _
           (fun t st => try_remove pred sets target i (i + t) st) J) with fuel st k;
    [|exact Hst|exact Hf].
  intros t s0 r s1. apply Hstep.
Qed.

End Invariant.

(** An invariant of the states of [try_remove] holds at the end of
    [delete_many_sets]. *)
Lemma delete_many_sets_preserves {St : Type} (pred : St -> bytes -> bool * St)
    (fuel : nat) (sets0 : list (list nat)) (target : bytes) (s : St)
    (J : list nat * St -> Prop)
    (Hstep : forall i j st r st',
       J st -> try_remove pred (sort_sets (map frozen sets0)) target i j st = (r, st') -> J st')
    (Hinit : J (seq 0 (length target), s)) :
  forall r s', delete_many_sets pred fuel sets0 target s = Some (r, s') ->
  exists R, J (R, s').
Proof.
  intros r s' Hrun. unfold delete_many_sets in Hrun.
  destruct (try_remove pred (sort_sets (map frozen sets0)) target 0
              (length (sort_sets (map frozen sets0))) (seq 0 (length target), s))
    as [r0 st] eqn:H0.
  apply Hstep in H0; [|exact Hinit].
  destruct r0.
  - injection Hrun as _ <-. exists (fst st). destruct st. exact H0.
  - destruct (sweep pred (sort_sets (map frozen sets0)) target fuel 0 st) as [st'|] eqn:Hs;
      [|discriminate].
    injection Hrun as _ <-. exists (fst st'). destruct st'.
    eapply sweep_preserves; eauto.
Qed.

Lemma try_remove_candidates {St : Type} (pred : St -> bytes -> bool * St)
    (sets0 : list (list nat)) (target : bytes) (i j : nat)
    (st : list nat * (St * list bytes)) (r : bool) (st' : list nat * (St * list bytes)) :
  (forall x, x < length target -> mem x (fst st) = false ->
     exists S, In S sets0 /\ In x S) /\
  Forall (from_sets sets0 target) (snd (snd st)) ->
  try_remove (Observe.tap pred) (sort_sets (map frozen sets0)) target i j st = (r, st') ->
  (forall x, x < length target -> mem x (fst st') = false ->
     exists S, In S sets0 /\ In x S) /\
  Forall (from_sets sets0 target) (snd (snd st')).
Proof.
  destruct st as [R [s log]]. intros [HR Hlog] Hrun. simpl in HR, Hlog. unfold try_remove in Hrun.
  set (sets := sort_sets (map frozen sets0)) in *.
  assert (Hu : forall x, In x (union_range sets i j) -> exists S, In S sets0 /\ In x S).
  { intros x Hx. apply union_range_In in Hx as (S & HS & Hx).
    eapply sorted_frozen_In; eauto. }
  destruct (length sets <? j); [injection Hrun as <- <-; split; assumption|].
  destruct (forallb _ _); [injection Hrun as <- <-; split; assumption|].
  unfold Observe.tap in Hrun. simpl in Hrun.
  destruct (pred s (kept target R (union_range sets i j))) as [res s1].
  injection Hrun as <- <-. simpl. split.
  - intros x Hx Hm. destruct res; [|exact (HR x Hx Hm)].
    destruct (mem x R) eqn:ER; [|exact (HR x Hx ER)].
    assert (Hin : ~ In x (List.filter (fun y => negb (mem y (union_range sets i j))) R)).
    { intros Hin. apply mem_In in Hin. congruence. }
    rewrite filter_In in Hin. apply mem_In in ER.
    destruct (mem x (union_range sets i j)) eqn:Eu.
    + apply Hu, mem_In, Eu.
    + exfalso. apply Hin. split; [exact ER | reflexivity].
  - apply Forall_app. split; [exact Hlog|]. constructor; [|constructor].
    exists (union_range sets i j ++ List.filter (fun y => negb (mem y R)) (seq 0 (length target))).
    split; [|apply kept_keep_except].
    intros x Hx. apply in_app_or in Hx as [Hx | Hx]; [exact (Hu x Hx)|].
    apply filter_In in Hx as [Hx Hm]. apply in_seq in Hx.
    apply HR; [lia|]. destruct (mem x R); [discriminate | reflexivity].
Qed.

(** Every candidate [delete_many_sets] hands to the predicate is the target
    without some indices of the sets. *)
Lemma delete_many_sets_from_sets {St : Type} (pred : St -> bytes -> bool * St)
    (fuel : nat) (sets0 : list (list nat)) (target : bytes) (s : St)
    (r : bool) (s' : St) (log : list bytes) :
  delete_many_sets (Observe.tap pred) fuel sets0 target (s, []) = Some (r, (s', log)) ->
  Forall (from_sets sets0 target) log.
Proof.
  intros Hrun.
  destruct (delete_many_sets_preserves (Observe.tap pred) fuel sets0 target (s, [])
    (fun st => (forall x, x < length target -> mem x (fst st) = false ->
                 exists S, In S sets0 /\ In x S) /\
               Forall (from_sets sets0 target) (snd (snd st))))
    with r (s', log) as [R [_ H]]; [| |exact Hrun|exact H].
  - intros i j st r0 st'. apply try_remove_candidates.
  - split; [|constructor]. simpl. intros x Hx Hm.
    assert (mem x (seq 0 (length target)) = true) by (apply mem_In, in_seq; lia).
    congruence.
Qed.

Lemma sweep_total {St : Type} (pred : St -> bytes -> bool * St)
    (sets : list (list nat)) (target : bytes) : forall fuel i st,
  i <= length sets + 1 -> length sets + 5 <= fuel + i ->
  sweep pred sets target fuel i st <> None.
Proof.
  induction fuel as [|fuel IH]; intros i st Hi Hfuel; [lia|]. simpl.
  destruct (i <? length sets) eqn:Ei; [|discriminate]. apply Nat.ltb_lt in Ei.
  set (f := fun t st => try_remove pred sets target i (i + t) st).
  assert (Hbeyond : forall k t, length sets - i < k -> fst (f k t) = false).
  { intros k [R t] Hk. unfold f, try_remove.
    replace (length sets <? i + k) with true by (symmetry; apply Nat.ltb_lt; lia).
    reflexivity. }
  destruct (find_integer fuel f st) as [[k st1]|] eqn:Hf.
  - assert (Hans : forall k0 t r t', f k0 t = (r, t') ->
              (r = true -> k0 <= length sets - i) /\ (r = false -> True)).
    { intros k0 [R t] r t' Hrun. split; [|trivial].
      intros ->. unfold f, try_remove in Hrun.
      destruct (length sets <? i + k0) eqn:E; [congruence|].
      apply Nat.ltb_ge in E. lia. }
    pose proof (FindIntegerFacts.find_integer_answer _ f _ _ Hans fuel st k st1 Hf) as Hk.
    destruct Hk as [[-> | Hk] _]; apply IH; lia.
  - exfalso. revert Hf.
    apply (FindIntegerFacts.find_integer_total_any _ f (length sets - i) Hbeyond). lia.
Qed.

Lemma delete_many_sets_total {St : Type} (pred : St -> bytes -> bool * St)
    (fuel : nat) (sets0 : list (list nat)) (target : bytes) (s : St)
    (Hfuel : length sets0 + 5 <= fuel) :
  exists r s', delete_many_sets pred fuel sets0 target s = Some (r, s').
Proof.
  unfold delete_many_sets.
  destruct (try_remove pred (sort_sets (map frozen sets0)) target 0
              (length (sort_sets (map frozen sets0))) (seq 0 (length target), s))
    as [[|] st]; [eauto|].
  destruct (sweep pred (sort_sets (map frozen sets0)) target fuel 0 st) eqn:Hs; [eauto|].
  exfalso. revert Hs. apply sweep_total;
    rewrite sort_sets_length, length_map; lia.
Qed.

Lemma engine_delete_many_sets_le (ext : bytes -> bool) (fuel : nat)
    (sets0 : list (list nat)) (s : engine) (r : bool) (s' : engine)
    (Hrun : attempt_delete_many_sets ext fuel sets0 s = Some (r, s')) :
  sort_key_le (current s') (current s) = true.
Proof.
  unfold attempt_delete_many_sets in Hrun.
  destruct (delete_many_sets_preserves (predicate ext) fuel sets0 (current s) s
    (fun st => sort_key_le (current (snd st)) (current s) = true))
    with r s' as [R H]; [| |exact Hrun|exact H].
  - intros i j [R t] r0 [R' t'] Ht Hstep. simpl in *. unfold try_remove in Hstep.
    destruct (_ <? j); [injection Hstep as _ <- <-; exact Ht|].
    destruct (forallb _ _); [injection Hstep as _ <- <-; exact Ht|].
    destruct (predicate ext t _) as [res t1] eqn:Hp.
    injection Hstep as _ _ <-.
    apply PassFacts.predicate_le in Hp.
    eapply OrderProofs.sort_key_le_trans; eauto.
  - apply OrderProofs.sort_key_le_refl.
Qed.

End DeleteSetsFacts.

Module QuoteFacts.
Import Bytes Engine FindInteger Brackets DeleteSets.

Lemma positions_from_sorted (c : Byte.byte) : forall t k,
  StronglySorted lt (map fst (List.filter (fun p => Byte.eqb (snd p) c)
                                (combine (seq k (length t)) t))) /\
  List.Forall (le k) (map fst (List.filter (fun p => Byte.eqb (snd p) c)
                                (combine (seq k (length t)) t))).
Proof.
  induction t as [|c0 t IH]; intros k; simpl; [split; constructor|].
  destruct (IH (S k)) as [Hs Hf].
  destruct (Byte.eqb c0 c); simpl.
  - split.
    + constructor; [exact Hs|]. eapply List.Forall_impl; [|exact Hf]. simpl. lia.
    + constructor; [lia|]. eapply List.Forall_impl; [|exact Hf]. simpl. lia.
  - split; [exact Hs|]. eapply List.Forall_impl; [|exact Hf]. simpl. lia.
Qed.

Lemma positions_from_In (c : Byte.byte) : forall t k x,
  k <= x -> nth_error t (x - k) = Some c ->
  In x (map fst (List.filter (fun p => Byte.eqb (snd p) c)
                   (combine (seq k (length t)) t))).
Proof.
  induction t as [|c0 t IH]; intros k x Hk Hn.
  - destruct (x - k); discriminate.
  - simpl. destruct (Nat.eq_dec x k) as [-> | Hne].
    + rewrite Nat.sub_diag in Hn. injection Hn as ->.
      replace (Byte.eqb c c) with true by (symmetry; apply BracketProofs.byte_eqb_true; reflexivity).
      left. reflexivity.
    + assert (Hn' : nth_error t (x - S k) = Some c).
      { replace (x - k) with (S (x - S k)) in Hn by lia. exact Hn. }
      destruct (Byte.eqb c0 c); [right|]; apply IH; auto; lia.
Qed.

Lemma positions_sorted (c : Byte.byte) (v : bytes) : StronglySorted lt (positions c v).
Proof. apply positions_from_sorted. Qed.

Lemma positions_In (c : Byte.byte) (v : bytes) (x : nat) :
  nth_error v x = Some c -> In x (positions c v).
Proof. intros H. apply positions_from_In; [lia|]. rewrite Nat.sub_0_r. exact H. Qed.

(** The indices strictly between two consecutive indices of a sorted list
    are none of its elements. *)
Lemma consecutive_ranges_between : forall l a,
  StronglySorted lt (a :: l) -> forall x,
  In x (concat (consecutive_ranges (a :: l))) -> a < x /\ ~ In x (a :: l).
Proof.
  induction l as [|b l IH]; intros a Hs x Hx; simpl in Hx; [destruct Hx|].
  apply StronglySorted_inv in Hs as [Hs Ha].
  apply StronglySorted_inv in Hs as [Hs' Hb].
  assert (Hab : a < b) by (inversion Ha; assumption).
  apply in_app_or in Hx as [Hx | Hx].
  - apply in_seq in Hx. split; [lia|].
    intros [-> | [-> | Hin]]; [lia | lia|].
    rewrite List.Forall_forall in Hb. apply Hb in Hin. lia.
  - destruct (IH b (SSorted_cons b Hs' Hb) x Hx) as [Hbx Hnot].
    split; [lia|]. intros [-> | Hin]; [lia | exact (Hnot Hin)].
Qed.

(** No index of the ranges of [kill_strings] holds the quote byte. *)
Lemma quote_ranges_no_quote (c : Byte.byte) (v : bytes) (x : nat) :
  In x (concat (consecutive_ranges (positions c v))) -> nth_error v x <> Some c.
Proof.
  intros Hx Hn. pose proof (positions_sorted c v) as Hs.
  destruct (positions c v) as [|a l] eqn:E; [destruct Hx|].
  apply (consecutive_ranges_between l a Hs) in Hx as [_ Hnot].
  apply Hnot. rewrite <- E. apply positions_In. exact Hn.
Qed.

(** The endpoints of the pairs of [find_paired_brackets] hold brackets. *)
Lemma paired_endpoints (leftb rightb : Byte.byte) (target : bytes) (a b : nat) :
  In (a, b) (snd (scan leftb rightb target 0 [] [])) ->
  nth_error target a = Some leftb /\ nth_error target b = Some rightb.
Proof.
  pose proof (BracketProofs.scan_inv_step leftb rightb target target 0 [] []) as Hinv.
  destruct (scan leftb rightb target 0 [] []) as [stack results].
  destruct Hinv as (_ & Hres & _); auto.
  { split; [intros a0 []|split; [intros a0 b0 []|constructor]]. }
  intros Hab. apply Hres in Hab. tauto.
Qed.

End QuoteFacts.

Module DeleteSetsExtras.
Import Bytes Engine FindInteger Brackets DeleteSets.

(** Property X16.  Every candidate that [attempt_delete_many_sets] hands to the predicate
    is the target with the bytes at some indices deleted, each of these
    indices belonging to one of the given sets. *)
Theorem delete_many_sets_candidates {St : Type} (pred : St -> bytes -> bool * St)
    (fuel : nat) (sets0 : list (list nat)) (target : bytes) (s : St)
    (r : bool) (s' : St) (log : list bytes)
    (Hrun : delete_many_sets (Observe.tap pred) fuel sets0 target (s, []) = Some (r, (s', log))) :
  Forall (fun c => exists D, (forall x, In x D -> exists S, In S sets0 /\ In x S) /\
                             c = keep_except target D) log.
Proof. exact (DeleteSetsFacts.delete_many_sets_from_sets pred fuel sets0 target s r s' log Hrun). Qed.

(** Property X17.  With fuel at least the number of sets plus five, the loops of
    [attempt_delete_many_sets] terminate. *)
Theorem delete_many_sets_terminates {St : Type} (pred : St -> bytes -> bool * St)
    (fuel : nat) (sets0 : list (list nat)) (target : bytes) (s : St)
    (Hfuel : length sets0 + 5 <= fuel) :
  exists r s', delete_many_sets pred fuel sets0 target s = Some (r, s').
Proof. exact (DeleteSetsFacts.delete_many_sets_total pred fuel sets0 target s Hfuel). Qed.

(** Property X18.  When no set holds an index of the target (for instance when there are
    no sets), deleting all of them changes nothing, so
    [attempt_delete_many_sets] returns [True] at once without calling the
    predicate. *)
Theorem delete_many_sets_out_of_range {St : Type} (pred : St -> bytes -> bool * St)
    (fuel : nat) (sets0 : list (list nat)) (target : bytes) (s : St)
    (Hout : forall S x, In S sets0 -> In x S -> length target <= x) :
  delete_many_sets pred fuel sets0 target s = Some (true, s).
Proof.
  unfold delete_many_sets, try_remove.
  rewrite Nat.ltb_irrefl.
  replace (forallb _ _) with true; [reflexivity|].
  symmetry. apply forallb_forall. intros x Hx.
  apply DeleteSetsFacts.union_range_In in Hx as (S & HS & Hx).
  apply DeleteSetsFacts.sorted_frozen_In with (x := x) in HS as (S0 & HS0 & Hx0); [|exact Hx].
  specialize (Hout S0 x HS0 Hx0).
  destruct (mem x (seq 0 (length target))) eqn:E; [|reflexivity].
  apply DeleteSetsFacts.mem_In, in_seq in E. lia.
Qed.

(** Property X19.  On the engine, [attempt_delete_many_sets] never leaves [current] with a
    larger sort key than it had. *)
Theorem attempt_delete_many_sets_le (ext : bytes -> bool) (fuel : nat)
    (sets0 : list (list nat)) (s : engine) (r : bool) (s' : engine)
    (Hrun : attempt_delete_many_sets ext fuel sets0 s = Some (r, s')) :
  sort_key_le (current s') (current s) = true.
Proof. exact (DeleteSetsFacts.engine_delete_many_sets_le ext fuel sets0 s r s' Hrun). Qed.

(** Property X20.  Every candidate of one iteration of [kill_strings] keeps every byte
    equal to that iteration's quote: only bytes strictly between two
    consecutive quotes are deleted. *)
Theorem kill_quote_keeps_quotes {St : Type} (pred : St -> bytes -> bool * St)
    (cur : St -> bytes) (fuel : nat) (q : Byte.byte) (s s' : St) (log : list bytes)
    (Hrun : kill_quote (Observe.tap pred) (fun st => cur (fst st)) fuel q (s, []) =
            Some (s', log)) :
  Forall (fun v => List.filter (fun d => Byte.eqb d q) v =
                   List.filter (fun d => Byte.eqb d q) (cur s)) log.
Proof.
  unfold kill_quote in Hrun. simpl in Hrun.
  destruct (delete_many_sets (Observe.tap pred) fuel
              (consecutive_ranges (positions q (cur s))) (cur s) (s, []))
    as [[r [s1 log1]]|] eqn:E; [|discriminate].
  injection Hrun as <- <-.
  apply DeleteSetsFacts.delete_many_sets_from_sets in E.
  eapply List.Forall_impl; [|exact E].
  intros v (D & HD & ->). apply DeleteSetsFacts.keep_except_filter.
  intros x d Hx Hn. destruct (HD x Hx) as (S & HS & HxS).
  destruct (Byte.eqb d q) eqn:Ed; [|reflexivity].
  apply BracketProofs.byte_eqb_true in Ed. subst d.
  exfalso. apply (QuoteFacts.quote_ranges_no_quote q (cur s) x); [|exact Hn].
  apply in_concat. eauto.
Qed.

(** Property X21.  Every candidate of one iteration of [debracket] deletes only bracket
    bytes: all the other bytes of [current] are kept, in order. *)
Theorem debracket_one_deletes_brackets {St : Type} (pred : St -> bytes -> bool * St)
    (cur : St -> bytes) (fuel : nat) (leftb rightb : Byte.byte) (s s' : St)
    (log : list bytes)
    (Hrun : debracket_one (Observe.tap pred) (fun st => cur (fst st)) fuel [leftb; rightb]
              (s, []) = Some (s', log)) :
  Forall (fun v =>
    List.filter (fun d => negb (Byte.eqb d leftb || Byte.eqb d rightb)) v =
    List.filter (fun d => negb (Byte.eqb d leftb || Byte.eqb d rightb)) (cur s)) log.
Proof.
  unfold debracket_one, find_paired_brackets in Hrun. simpl in Hrun.
  destruct (delete_many_sets (Observe.tap pred) fuel
              (map (fun p => [fst p; snd p]) (snd (scan leftb rightb (cur s) 0 [] [])))
              (cur s) (s, []))
    as [[r [s1 log1]]|] eqn:E; [|discriminate].
  injection Hrun as <- <-.
  apply DeleteSetsFacts.delete_many_sets_from_sets in E.
  eapply List.Forall_impl; [|exact E].
  intros v (D & HD & ->). apply DeleteSetsFacts.keep_except_filter.
  intros x d Hx Hn. destruct (HD x Hx) as (S & HS & HxS).
  apply in_map_iff in HS as ([a b] & <- & Hab).
  apply QuoteFacts.paired_endpoints in Hab as [Ha Hb].
  simpl in HxS. destruct HxS as [<- | [<- | []]].
  - rewrite Ha in Hn. injection Hn as <-.
    replace (Byte.eqb leftb leftb) with true by (symmetry; apply BracketProofs.byte_eqb_true; reflexivity).
    reflexivity.
  - rewrite Hb in Hn. injection Hn as <-.
    replace (Byte.eqb rightb rightb) with true by (symmetry; apply BracketProofs.byte_eqb_true; reflexivity).
    rewrite orb_true_r. reflexivity.
Qed.

End DeleteSetsExtras.

Module MorePassesFacts.
Import Bytes Engine LinearReduce Brackets Delimiter DeleteSets MorePasses.

Lemma split_go_length (sep : bytes) (Hsep : sep <> []) : forall n s acc,
  length (split_go sep n s acc) <= length s + 1.
Proof.
  induction n as [|n IH]; intros s acc; simpl; [lia|].
  destruct s as [|c s]; simpl; [lia|].
  destruct (is_prefix sep (c :: s)); simpl.
  - destruct sep as [|d sep]; [congruence|]. simpl.
    specialize (IH (drop (length sep) s) []).
    rewrite length_drop in IH. lia.
  - specialize (IH s (c :: acc)). lia.
Qed.

Lemma split_length (sep v : bytes) (parts : list bytes) :
  split sep v = Some parts -> length parts <= length v + 1.
Proof.
  unfold split. destruct sep as [|d sep]; [discriminate|].
  intros [= <-]. apply split_go_length. discriminate.
Qed.

Lemma attempt_length (ext : bytes -> bool) (s : engine) (v : bytes) (r : bool) (s' : engine) :
  attempt ext s v = (r, s') -> length (current s') <= length (current s).
Proof. intros H. apply PassFacts.attempt_le in H. apply PassFacts.sort_key_le_length, H. Qed.

Lemma reduce_by_delimiter_le_aux (ext : bytes -> bool) (fuel : nat) (c : Byte.byte)
    (s : engine) (changed : bool) (s' : engine) :
  reduce_by_delimiter ext fuel c s = Done changed s' ->
  sort_key_le (current s') (current s) = true.
Proof.
  unfold reduce_by_delimiter. intros H.
  destruct (split [c] (current s)) as [parts|]; [|discriminate].
  destruct (attempt ext s (join [] parts)) as [r1 s1] eqn:A1.
  destruct (attempt ext s1 _) as [r2 s2] eqn:A2.
  apply PassFacts.attempt_le in A1, A2.
  destruct (if r2 then _ else _) as [parts'|]; [|discriminate].
  destruct (linear_reduce _ fuel (rev parts') s2) as [[l s3]|] eqn:L; [|discriminate].
  injection H as _ <-. unfold linear_reduce in L.
  apply (LinearReduceFacts.loop_invariant _ _ _ (rev parts')
           (fun st => sort_key_le (current st) (current s2) = true)) in L.
  - destruct L as [_ L].
    eapply OrderProofs.sort_key_le_trans; [exact L|].
    eapply OrderProofs.sort_key_le_trans; eassumption.
  - intros st v r0 st' Hst _ Hp. apply PassFacts.predicate_le in Hp.
    eapply OrderProofs.sort_key_le_trans; eassumption.
  - reflexivity.
  - apply OrderProofs.sort_key_le_refl.
Qed.

Lemma reduce_by_delimiter_total_aux (ext : bytes -> bool) (fuel : nat) (c : Byte.byte)
    (s : engine) :
  3 * length (current s) + 10 <= fuel -> reduce_by_delimiter ext fuel c s <> OutOfFuel.
Proof.
  unfold reduce_by_delimiter. intros Hfuel.
  destruct (split [c] (current s)) as [parts|] eqn:Hp; [|discriminate].
  destruct (attempt ext s (join [] parts)) as [r1 s1] eqn:A1.
  destruct (attempt ext s1 _) as [r2 s2] eqn:A2.
  apply attempt_length in A1, A2.
  assert (Hparts : forall parts', (if r2 then split (if r1 then [] else [c]) (current s2)
                                   else Some parts) = Some parts' ->
                   length parts' <= length (current s) + 1).
  { intros parts' Hq. destruct r2.
    - apply split_length in Hq. lia.
    - injection Hq as <-. apply split_length in Hp. exact Hp. }
  destruct (if r2 then _ else _) as [parts'|] eqn:Hq; [|discriminate].
  specialize (Hparts parts' eq_refl).
  destruct (linear_reduce _ fuel (rev parts') s2) as [[l s3]|] eqn:L; [discriminate|].
  exfalso. revert L. unfold linear_reduce. apply LinearReduceFacts.loop_total;
    rewrite ?length_rev; lia.
Qed.

Lemma min_delim_In (v : bytes) : forall ds d0 L,
  In d0 L -> (forall d, In d ds -> In d L) -> In (min_delim v d0 ds) L.
Proof.
  unfold min_delim. induction ds as [|d ds IH]; intros d0 L H0 Hds; simpl; [exact H0|].
  apply IH; [|intros e He; apply Hds; right; exact He].
  destruct (delim_key_lt v d d0); [apply Hds; left; reflexivity | exact H0].
Qed.

Lemma all_delimiters_le (ext : bytes -> bool) (fuel : nat) : forall rounds ds s s',
  all_delimiters_go ext fuel rounds ds s = PassDone s' ->
  sort_key_le (current s') (current s) = true.
Proof.
  induction rounds as [|rounds IH]; intros ds s s' H; simpl in H; [discriminate|].
  destruct ds as [|d0 ds]; [injection H as <-; apply OrderProofs.sort_key_le_refl|].
  destruct (reduce_by_delimiter ext fuel (min_delim (current s) d0 ds) s)
    as [| |ch s1] eqn:R; try discriminate.
  apply reduce_by_delimiter_le_aux in R. apply IH in H.
  eapply OrderProofs.sort_key_le_trans; eassumption.
Qed.

Lemma all_delimiters_total (ext : bytes -> bool) (fuel L : nat) (HL : 3 * L + 10 <= fuel) :
  forall rounds ds s, length ds < rounds -> length (current s) <= L ->
  all_delimiters_go ext fuel rounds ds s <> PassOutOfFuel.
Proof.
  induction rounds as [|rounds IH]; intros ds s Hr Hs; simpl; [lia|].
  destruct ds as [|d0 ds]; [discriminate|].
  destruct (reduce_by_delimiter ext fuel (min_delim (current s) d0 ds) s)
    as [| |ch s1] eqn:R; [discriminate| |].
  - exfalso. revert R. apply reduce_by_delimiter_total_aux. lia.
  - pose proof (reduce_by_delimiter_le_aux _ _ _ _ _ _ R) as Hle.
    apply PassFacts.sort_key_le_length in Hle.
    apply IH; [|lia].
    pose proof (remove_length_lt Byte.byte_eq_dec (d0 :: ds) (min_delim (current s) d0 ds)
                  (min_delim_In (current s) ds d0 (d0 :: ds) (or_introl eq_refl)
                     (fun d Hd => or_intror Hd))).
    simpl length in *. lia.
Qed.

Lemma nodup_length_le {A} (dec : forall x y : A, {x = y} + {x <> y}) (l : list A) :
  length (nodup dec l) <= length l.
Proof.
  apply NoDup_incl_length; [apply NoDup_nodup|].
  intros x Hx. apply nodup_In in Hx. exact Hx.
Qed.

Lemma filter_length_le {A} (f : A -> bool) (l : list A) : length (List.filter f l) <= length l.
Proof. induction l as [|x l IH]; simpl; [lia|]. destruct (f x); simpl; lia. Qed.

Lemma consecutive_ranges_length_cons : forall l i,
  length (consecutive_ranges (i :: l)) <= length l.
Proof.
  induction l as [|j l IH]; intros i; simpl; [lia|].
  specialize (IH j). simpl in IH. lia.
Qed.

Lemma consecutive_ranges_length (l : list nat) : length (consecutive_ranges l) <= length l.
Proof.
  destruct l as [|i l]; simpl; [lia|].
  pose proof (consecutive_ranges_length_cons l i). simpl in *. lia.
Qed.

Lemma positions_length (c : Byte.byte) (v : bytes) : length (positions c v) <= length v.
Proof.
  unfold positions. rewrite length_map.
  etrans; [apply filter_length_le|]. rewrite length_combine, length_seq. lia.
Qed.

(** The number of pairs of [find_paired_brackets] is at most the length of
    the target. *)
Lemma paired_count (leftb rightb : Byte.byte) (target : bytes) :
  length (snd (scan leftb rightb target 0 [] [])) <= length target.
Proof.
  pose proof (BracketProofs.scan_inv_step leftb rightb target target 0 [] []) as Hinv.
  destruct (scan leftb rightb target 0 [] []) as [stack results].
  destruct Hinv as (_ & Hres & Hnd); auto.
  { split; [intros a0 []|split; [intros a0 b0 []|constructor]]. }
  simpl. apply NoDup_app_remove_l in Hnd.
  assert (Hlen : length (endpoints results) <= length target).
  { rewrite <- (length_seq (length target) 0). apply NoDup_incl_length; [exact Hnd|].
    intros x Hx. apply BracketProofs.in_endpoints in Hx as (a & b0 & Hab & Hx).
    apply Hres in Hab. apply in_seq. lia. }
  assert (length results <= length (endpoints results)); [|lia].
  clear. induction results as [|p ps IH]; simpl; lia.
Qed.

Lemma kill_quote_total_le (ext : bytes -> bool) (fuel : nat) (q : Byte.byte) (s : engine) :
  length (current s) + 5 <= fuel ->
  exists s', kill_quote (predicate ext) current fuel q s = Some s' /\
    sort_key_le (current s') (current s) = true.
Proof.
  intros Hfuel. unfold kill_quote.
  destruct (DeleteSetsFacts.delete_many_sets_total (predicate ext) fuel
              (consecutive_ranges (positions q (current s))) (current s) s)
    as (r & s1 & E).
  { pose proof (consecutive_ranges_length (positions q (current s))).
    pose proof (positions_length q (current s)). lia. }
  rewrite E. exists s1. split; [reflexivity|].
  apply (DeleteSetsFacts.engine_delete_many_sets_le ext fuel
           (consecutive_ranges (positions q (current s))) s r s1 E).
Qed.

Lemma debracket_one_total_le (ext : bytes -> bool) (fuel : nat) (leftb rightb : Byte.byte)
    (s : engine) :
  length (current s) + 5 <= fuel ->
  exists s', debracket_one (predicate ext) current fuel [leftb; rightb] s = Some s' /\
    sort_key_le (current s') (current s) = true.
Proof.
  intros Hfuel. unfold debracket_one, find_paired_brackets.
  destruct (DeleteSetsFacts.delete_many_sets_total (predicate ext) fuel
              (map (fun p => [fst p; snd p]) (snd (scan leftb rightb (current s) 0 [] [])))
              (current s) s)
    as (r & s1 & E).
  { rewrite length_map. pose proof (paired_count leftb rightb (current s)). lia. }
  rewrite E. exists s1. split; [reflexivity|].
  exact (DeleteSetsFacts.engine_delete_many_sets_le ext fuel _ s r s1 E).
Qed.

Lemma delete_bracket_contents_one_le (ext : bytes -> bool) (fuel : nat) (bracket : bytes)
    (s s' : engine) :
  delete_bracket_contents_one ext fuel bracket s = PassDone s' ->
  sort_key_le (current s') (current s) = true.
Proof.
  unfold delete_bracket_contents_one. intros H.
  destruct (find_paired_brackets bracket (current s)) as [ps|]; [|discriminate].
  destruct (attempt_delete_many_sets ext fuel (contents ps) s) as [[r s1]|] eqn:E;
    [|discriminate].
  apply DeleteSetsFacts.engine_delete_many_sets_le in E.
  destruct bracket as [|c bs]; [discriminate|].
  destruct (reduce_by_delimiter ext fuel c s1) as [| |ch s2] eqn:R; try discriminate.
  injection H as <-. apply reduce_by_delimiter_le_aux in R.
  eapply OrderProofs.sort_key_le_trans; eassumption.
Qed.

Lemma delete_bracket_contents_one_total (ext : bytes -> bool) (fuel : nat)
    (leftb rightb : Byte.byte) (s : engine) :
  3 * length (current s) + 10 <= fuel ->
  delete_bracket_contents_one ext fuel [leftb; rightb] s <> PassOutOfFuel.
Proof.
  intros Hfuel. unfold delete_bracket_contents_one, find_paired_brackets.
  unfold attempt_delete_many_sets.
  destruct (DeleteSetsFacts.delete_many_sets_total (predicate ext) fuel
              (contents (snd (scan leftb rightb (current s) 0 [] []))) (current s) s)
    as (r & s1 & E).
  { unfold contents. rewrite length_map.
    pose proof (paired_count leftb rightb (current s)). lia. }
  rewrite E.
  pose proof (DeleteSetsFacts.engine_delete_many_sets_le ext fuel _ s r s1 E) as Hle.
  apply PassFacts.sort_key_le_length in Hle.
  destruct (reduce_by_delimiter ext fuel leftb s1) as [| |ch s2] eqn:R; try discriminate.
  exfalso. revert R. apply reduce_by_delimiter_total_aux. lia.
Qed.

Lemma debracket_go_total_le (ext : bytes -> bool) (fuel : nat) : forall brackets s,
  Forall (fun bk => length bk = 2) brackets ->
  length (current s) + 5 <= fuel ->
  exists s', debracket_go (predicate ext) current fuel brackets s = Some s' /\
    sort_key_le (current s') (current s) = true.
Proof.
  induction brackets as [|bk bs IH]; intros s Hbs Hfuel; simpl.
  - exists s. split; [reflexivity | apply OrderProofs.sort_key_le_refl].
  - apply Forall_cons in Hbs as [Hbk Hbs].
    destruct bk as [|leftb [|rightb [|]]]; try discriminate.
    destruct (debracket_one_total_le ext fuel leftb rightb s Hfuel) as (s1 & E1 & L1).
    rewrite E1. apply PassFacts.sort_key_le_length in L1 as H1.
    destruct (IH s1 Hbs) as (s2 & E2 & L2); [lia|].
    exists s2. split; [exact E2|]. eapply OrderProofs.sort_key_le_trans; eassumption.
Qed.

Lemma delete_bracket_contents_go_ends_le (ext : bytes -> bool) (fuel : nat) : forall brackets s,
  Forall (fun bk => length bk = 2) brackets ->
  3 * length (current s) + 10 <= fuel ->
  delete_bracket_contents_go ext fuel brackets s = PassRaised \/
  exists s', delete_bracket_contents_go ext fuel brackets s = PassDone s' /\
    sort_key_le (current s') (current s) = true.
Proof.
  induction brackets as [|bk bs IH]; intros s Hbs Hfuel; simpl.
  - right. exists s. split; [reflexivity | apply OrderProofs.sort_key_le_refl].
  - apply Forall_cons in Hbs as [Hbk Hbs].
    destruct bk as [|leftb [|rightb [|]]]; try discriminate.
    pose proof (delete_bracket_contents_one_total ext fuel leftb rightb s Hfuel) as T.
    destruct (delete_bracket_contents_one ext fuel [leftb; rightb] s) as [| |s1] eqn:E1;
      [left; reflexivity | congruence |].
    apply delete_bracket_contents_one_le in E1 as L1.
    apply PassFacts.sort_key_le_length in L1 as H1.
    destruct (IH s1 Hbs) as [R | (s2 & E2 & L2)]; [lia | left; exact R |].
    right. exists s2. split; [exact E2|]. eapply OrderProofs.sort_key_le_trans; eassumption.
Qed.

End MorePassesFacts.

Module MorePassesExtras.
Import Bytes Engine Brackets Delimiter DeleteSets MorePasses.

(** Property X22.  With fuel [3 * len(current) + 10], [reduce_by_delimiter] either raises
    or returns normally, and then [current] has not grown. *)
Theorem reduce_by_delimiter_ends_le (ext : bytes -> bool) (fuel : nat) (c : Byte.byte)
    (s : engine) (Hfuel : 3 * length (current s) + 10 <= fuel) :
  reduce_by_delimiter ext fuel c s = Raised \/
  exists changed s', reduce_by_delimiter ext fuel c s = Done changed s' /\
    sort_key_le (current s') (current s) = true.
Proof.
  destruct (reduce_by_delimiter ext fuel c s) as [| |ch s'] eqn:R; [left; reflexivity| |].
  - exfalso. revert R. apply MorePassesFacts.reduce_by_delimiter_total_aux. exact Hfuel.
  - right. exists ch, s'. split; [reflexivity|].
    exact (MorePassesFacts.reduce_by_delimiter_le_aux ext fuel c s ch s' R).
Qed.

(** Property X23.  With fuel [3 * len(current) + 10], [reduce_by_all_delimiters] either
    raises (from one of its [reduce_by_delimiter] calls) or returns, once
    every byte of the initial [current] has served as delimiter, with a
    [current] that has not grown. *)
Theorem reduce_by_all_delimiters_ends_le (ext : bytes -> bool) (fuel : nat) (s : engine)
    (Hfuel : 3 * length (current s) + 10 <= fuel) :
  reduce_by_all_delimiters ext fuel s = PassRaised \/
  exists s', reduce_by_all_delimiters ext fuel s = PassDone s' /\
    sort_key_le (current s') (current s) = true.
Proof.
  unfold reduce_by_all_delimiters.
  destruct (all_delimiters_go ext fuel fuel (nodup Byte.byte_eq_dec (current s)) s)
    as [| |s'] eqn:R; [left; reflexivity| |].
  - exfalso. revert R. apply (MorePassesFacts.all_delimiters_total ext fuel (length (current s)));
      [exact Hfuel | | lia].
    pose proof (MorePassesFacts.nodup_length_le Byte.byte_eq_dec (current s)). lia.
  - right. exists s'. split; [reflexivity|].
    exact (MorePassesFacts.all_delimiters_le ext fuel fuel _ s s' R).
Qed.

(** Property X24.  With fuel [len(current) + 5], [kill_strings] returns, and [current] has
    not grown. *)
Theorem kill_strings_ends_le (ext : bytes -> bool) (fuel : nat) (s : engine)
    (Hfuel : length (current s) + 5 <= fuel) :
  exists s', kill_strings ext fuel s = Some s' /\ sort_key_le (current s') (current s) = true.
Proof.
  unfold kill_strings, kill_strings_with.
  destruct (MorePassesFacts.kill_quote_total_le ext fuel Byte.x27 s Hfuel) as (s1 & E1 & L1).
  rewrite E1.
  destruct (MorePassesFacts.kill_quote_total_le ext fuel Byte.x22 s1) as (s2 & E2 & L2).
  { apply PassFacts.sort_key_le_length in L1. lia. }
  exists s2. split; [exact E2|]. eapply OrderProofs.sort_key_le_trans; eassumption.
Qed.

(** Property X25.  With fuel [len(current) + 5], [debracket] returns, and [current] has not
    grown. *)
Theorem debracket_ends_le (ext : bytes -> bool) (fuel : nat) (s : engine)
    (Hfuel : length (current s) + 5 <= fuel) :
  exists s', debracket ext fuel s = Some s' /\ sort_key_le (current s') (current s) = true.
Proof.
  apply MorePassesFacts.debracket_go_total_le; [|exact Hfuel].
  repeat constructor.
Qed.

(** Property X26.  With fuel [3 * len(current) + 10], [delete_bracket_contents] either
    raises (from one of its [reduce_by_delimiter] calls) or returns with a
    [current] that has not grown. *)
Theorem delete_bracket_contents_ends_le (ext : bytes -> bool) (fuel : nat) (s : engine)
    (Hfuel : 3 * length (current s) + 10 <= fuel) :
  delete_bracket_contents ext fuel s = PassRaised \/
  exists s', delete_bracket_contents ext fuel s = PassDone s' /\
    sort_key_le (current s') (current s) = true.
Proof.
  apply MorePassesFacts.delete_bracket_contents_go_ends_le; [|exact Hfuel].
  repeat constructor.
Qed.

End MorePassesExtras.

Module FindIntegerExamples.
Import FindInteger.

(** Claim C1, witness: [f k = (k <= 7)]. *)
Lemma find_integer_contract_witness :
  non_increasing (fun k => k <=? 7) /\
  ((exists fuel, find_integer fuel (logged (fun k => k <=? 7)) [] <> None) /\
   (forall fuel r calls,
      find_integer fuel (logged (fun k => k <=? 7)) [] = Some (r, calls) ->
      r = 7 /\ ~ In 0 calls /\ List.NoDup calls)).
Proof.
  assert (Hm : non_increasing (fun k => k <=? 7)).
  { intros a c Hac Hc. apply Nat.leb_le. apply Nat.leb_le in Hc. lia. }
  split; [exact Hm |].
  apply (FindIntegerProofs.find_integer_contract (fun k => k <=? 7) 7 Hm);
    reflexivity.
Defined.

Example find_integer_run :
  find_integer 20 (logged (fun k => k <=? 7)) [] = Some (7, [1; 2; 3; 4; 5; 10; 7; 8]).
Proof. reflexivity. Qed.

End FindIntegerExamples.

Module EngineExamples.
Import Bytes Engine Collisions.

Example collide_key :
  cache_key collide_lo = 0x3c20ba386651568c%Z /\
  cache_key collide_hi = 0x3c20ba386651568c%Z.
Proof. vm_compute. split; reflexivity. Qed.

(** Claim C2, counterexample.  The engine starts on [collide_hi], whose
    verdict [True] is cached.  [attempt(collide_lo)] is a candidate shrink
    ([collide_lo] is smaller), its fingerprint hits the cached [True], so
    the call returns [True] while [current] stays [collide_hi]. *)
Lemma attempt_true_without_shrink :
  init (fun _ => true) collide_hi =
    Some (mk_engine collide_hi {[cache_key collide_hi := true]}) /\
  sort_key_lt collide_lo collide_hi = true /\
  trace (fun _ => true) (mk_engine collide_hi {[cache_key collide_hi := true]})
    [Attempt collide_lo] =
  [(mk_engine collide_hi {[cache_key collide_hi := true]}, Attempt collide_lo, true,
    mk_engine collide_hi {[cache_key collide_hi := true]})].
Proof. vm_compute. split; [reflexivity | split; reflexivity]. Qed.

(** Claim C2, witness for the amended statement. *)
Lemma monotone_shrink_witness :
  init (fun v => Nat.leb 2 (length v)) (b "abcd") =
    Some (mk_engine (b "abcd") {[cache_key (b "abcd") := true]}) /\
  collision_free (b "abcd" :: map call_value
    [Attempt (b "abc"); Predicate (b "xyz"); Attempt (b "a"); Attempt (b "ab")]) = true /\
  Forall (fun t : engine * call * bool * engine =>
    let '(s, c, r, s') := t in
    sort_key_le (current s') (current s) = true /\
    (current s' <> current s ->
       cache s !! cache_key (call_value c) = None /\
       (fun v => Nat.leb 2 (length v)) (call_value c) = true /\
       sort_key_lt (current s') (current s) = true /\ current s' = call_value c))
    (trace (fun v => Nat.leb 2 (length v))
       (mk_engine (b "abcd") {[cache_key (b "abcd") := true]})
       [Attempt (b "abc"); Predicate (b "xyz"); Attempt (b "a"); Attempt (b "ab")]) /\
  Forall (fun t : engine * call * bool * engine =>
    let '(s, c, r, s') := t in
    match c with
    | Attempt _ => r = true -> sort_key_lt (current s') (current s) = true
    | Predicate _ => True
    end)
    (trace (fun v => Nat.leb 2 (length v))
       (mk_engine (b "abcd") {[cache_key (b "abcd") := true]})
       [Attempt (b "abc"); Predicate (b "xyz"); Attempt (b "a"); Attempt (b "ab")]).
Proof.
  destruct (EngineProofs.monotone_shrink (fun v => Nat.leb 2 (length v)) (b "abcd")
              [Attempt (b "abc"); Predicate (b "xyz"); Attempt (b "a"); Attempt (b "ab")]
              (mk_engine (b "abcd") {[cache_key (b "abcd") := true]}) eq_refl)
    as [H1 H2].
  split; [reflexivity | split; [vm_compute; reflexivity | split; [exact H1 |]]].
  apply H2. vm_compute. reflexivity.
Defined.

(** Claim C10, witness: the fingerprint of [collide_lo] hits the [True]
    cached for [collide_hi]; the call answers [True] and changes nothing,
    although [collide_lo] is a strict shrink of [current]. *)
Lemma predicate_cache_hit_witness :
  cache (mk_engine collide_hi {[cache_key collide_hi := true]}) !! cache_key collide_lo
    = Some true /\
  predicate (fun _ => true) (mk_engine collide_hi {[cache_key collide_hi := true]})
    collide_lo = (true, mk_engine collide_hi {[cache_key collide_hi := true]}).
Proof.
  split; [vm_compute; reflexivity |].
  apply (EngineProofs.predicate_cache_hit (fun _ => true)
    (mk_engine collide_hi {[cache_key collide_hi := true]}) collide_lo true).
  vm_compute. reflexivity.
Defined.

End EngineExamples.

Module DelimiterExamples.
Import Bytes Engine Delimiter Collisions.

Example twins_key :
  cache_key short_twin = 0x11c7ec1f33b42fd4%Z /\
  cache_key long_twin = 0x11c7ec1f33b42fd4%Z.
Proof. vm_compute. split; reflexivity. Qed.

(** Claim C9, counterexample.  The engine starts on [long_twin] (its
    verdict [True] is cached), then [predicate(short_twin + b";")] shrinks
    [current] to [short_twin + b";"].  In [reduce_by_delimiter(b";")] the
    first [attempt(short_twin)] hits the cached [True] of [long_twin]: it
    answers [True] without adopting [short_twin], the delimiter becomes
    [b""], the second [attempt(short_twin)] answers [True] again, and
    [current.split(b"")] raises [ValueError]. *)
Lemma reduce_by_delimiter_empty_split :
  init (fun _ => true) long_twin =
    Some (mk_engine long_twin {[cache_key long_twin := true]}) /\
  current (after (fun _ => true) (mk_engine long_twin {[cache_key long_twin := true]})
             [Predicate (short_twin ++ b ";")]) = short_twin ++ b ";" /\
  reduce_by_delimiter (fun _ => true) 100 Byte.x3b
    (after (fun _ => true) (mk_engine long_twin {[cache_key long_twin := true]})
       [Predicate (short_twin ++ b ";")]) = Raised.
Proof. vm_compute. split; [reflexivity | split; reflexivity]. Qed.

(** Claim C9, witness for the amended statement. *)
Lemma reduce_by_delimiter_no_empty_split_witness :
  init (fun v => Nat.leb 1 (length v)) (b "a;b;;c") =
    Some (mk_engine (b "a;b;;c") {[cache_key (b "a;b;;c") := true]}) /\
  fingerprint_unique
    (undelimited Byte.x3b
       (current (after (fun v => Nat.leb 1 (length v))
                   (mk_engine (b "a;b;;c") {[cache_key (b "a;b;;c") := true]})
                   [Predicate (b "a;b")])))
    (b "a;b;;c" :: map call_value [Predicate (b "a;b")]) = true /\
  reduce_by_delimiter (fun v => Nat.leb 1 (length v)) 100 Byte.x3b
    (after (fun v => Nat.leb 1 (length v))
       (mk_engine (b "a;b;;c") {[cache_key (b "a;b;;c") := true]})
       [Predicate (b "a;b")]) <> Raised.
Proof.
  split; [reflexivity | split; [vm_compute; reflexivity |]].
  apply (DelimiterProofs.reduce_by_delimiter_no_empty_split
           (fun v => Nat.leb 1 (length v)) (b "a;b;;c")).
  - reflexivity.
  - vm_compute. reflexivity.
Defined.

Example reduce_by_delimiter_run :
  match reduce_by_delimiter (fun v => Nat.leb 1 (length v)) 100 Byte.x3b
          (mk_engine (b "a;b;;c") {[cache_key (b "a;b;;c") := true]}) with
  | Done changed s => changed = true /\ current s = b "a"
  | _ => False
  end.
Proof. vm_compute. split; reflexivity. Qed.

End DelimiterExamples.

Module DriverExamples.
Import Bytes Engine Driver.

(** Claim C6, witness: the single-byte deletion body on [b"abcb"] with
    the predicate "contains [b]". *)
Lemma reduce_idempotent_witness :
  init (fun v => existsb (Byte.eqb Byte.x62) v) (b "abcb") =
    Some (mk_engine (b "abcb") {[cache_key (b "abcb") := true]}) /\
  match reduce (fun v => existsb (Byte.eqb Byte.x62) v) delete_bytes_body 20
          (mk_engine (b "abcb") {[cache_key (b "abcb") := true]}) with
  | Some s1 =>
      current s1 = b "b" /\
      reduce (fun v => existsb (Byte.eqb Byte.x62) v) delete_bytes_body 20 s1 = Some s1
  | None => False
  end.
Proof.
  split; [reflexivity|].
  destruct (reduce (fun v => existsb (Byte.eqb Byte.x62) v) delete_bytes_body 20
              (mk_engine (b "abcb") {[cache_key (b "abcb") := true]})) as [s1|] eqn:E.
  - split.
    + vm_compute in E. injection E as <-. reflexivity.
    + exact (DriverProofs.reduce_idempotent (fun v => existsb (Byte.eqb Byte.x62) v)
               delete_bytes_body 20 _ s1 E).
  - vm_compute in E. discriminate.
Defined.

End DriverExamples.

Module TypedefExamples.
Import Bytes Engine Typedef.

(** Claim C5, witness: the engine right after construction on
    [b"typedef struct B B;"]. *)
Lemma typedef_substitution_diverges_witness :
  pumped 0 = b "typedef struct B B;" /\
  ends_with_BB (b "typedef struct B B;") = true /\
  ends_with_BB (b "") = false /\
  (forall fuel,
     point_substitutions ends_with_BB fuel (b "B") (b "struct B") 0 (pumped 0)
       (mk_engine (b "typedef struct B B;") {[cache_key (b "typedef struct B B;") := true]})
     = None).
Proof.
  split; [reflexivity | split; [reflexivity | split; [reflexivity |]]].
  intros fuel. apply (TypedefProofs.typedef_substitution_diverges
    (mk_engine (b "typedef struct B B;") {[cache_key (b "typedef struct B B;") := true]})).
  intros j H. simpl in H. apply lookup_singleton_Some in H as [_ H]. discriminate.
Defined.

Example point_substitutions_steps :
  point_substitutions ends_with_BB 3 (b "B") (b "struct B") 0 (b "typedef struct B B;")
    (mk_engine (b "typedef struct B B;") {[cache_key (b "typedef struct B B;") := true]})
  = None.
Proof. vm_compute. reflexivity. Qed.

End TypedefExamples.

Module SanityChecks.
Import Bytes Engine.
Example sha_abc : cache_key (b "abc") = 0xa9993e364706816a%Z.
Proof. vm_compute. reflexivity. Qed.
Example sha_long : cache_key (b "abcdbcdecdefdefgefghfghighijhijkijkljklmklmnlmnomnopnopq") = 0x84983e441c3bd26e%Z.
Proof. vm_compute. reflexivity. Qed.
Example split_1 : split (b ";") (b "a;;b;") = Some [b "a"; b ""; b "b"; b ""].
Proof. reflexivity. Qed.
Example word_matches_1 : Typedef.word_matches (b "B") (b "typedef struct B B;") = [(15, 16); (17, 18)].
Proof. reflexivity. Qed.
Example word_matches_2 : Typedef.word_matches (b "ab") (b "ab cab ab_ ab.ab") = [(0, 2); (11, 13); (14, 16)].
Proof. reflexivity. Qed.
Example pumped_1 : Typedef.pumped 1 = b "typedef struct struct B B;".
Proof. reflexivity. Qed.
End SanityChecks.

Module SequenceExtrasExamples.
Import FindInteger LinearReduce.

(** Property X1, witness: the non-monotone [f k = (k < 7) || (k = 12)]. *)
Lemma find_integer_any_boundary_witness :
  find_integer 10 (FindInteger.logged (fun k => (k <? 7) || (k =? 12))) [] =
    Some (6, [1; 2; 3; 4; 5; 10; 7; 6]) /\
  (fun k => (k <? 7) || (k =? 12)) 7 = false /\
  (6 = 0 \/ (fun k => (k <? 7) || (k =? 12)) 6 = true) /\
  ~ In 0 [1; 2; 3; 4; 5; 10; 7; 6] /\ List.NoDup [1; 2; 3; 4; 5; 10; 7; 6].
Proof.
  split; [reflexivity|].
  apply (SequenceExtras.find_integer_any_boundary (fun k => (k <? 7) || (k =? 12)) 10 6
           [1; 2; 3; 4; 5; 10; 7; 6]). reflexivity.
Defined.

(** Property X2, witness: the same [f], answering [False] above [B = 12]. *)
Lemma find_integer_terminates_witness :
  (forall k t, 12 < k -> fst (FindInteger.logged (fun k => (k <? 7) || (k =? 12)) k t) = false) /\
  exists r s', find_integer 16 (FindInteger.logged (fun k => (k <? 7) || (k =? 12))) [] =
                 Some (r, s') /\ r <= 12.
Proof.
  assert (H : forall k t, 12 < k ->
            fst (FindInteger.logged (fun k => (k <? 7) || (k =? 12)) k t) = false).
  { intros k t Hk. simpl.
    destruct (Nat.ltb_spec k 7), (Nat.eqb_spec k 12); [lia | lia | lia | reflexivity]. }
  split; [exact H|].
  apply (SequenceExtras.find_integer_terminates _ 12 16 [] H). lia.
Defined.

(** Property X3, witness: [[1; 2; 3; 4; 5]] with fuel 22. *)
Lemma linear_reduce_terminates_witness :
  3 * length [1; 2; 3; 4; 5] + 7 <= 22 /\
  linear_reduce (logged (fun l => existsb (Nat.eqb 3) l)) 22 [1; 2; 3; 4; 5] [] <> None.
Proof.
  split; [simpl; lia|].
  apply SequenceExtras.linear_reduce_terminates. simpl. lia.
Defined.

(** Property X4, witness: [[1; 2; 3; 4; 5]], keeping the lists that contain 3. *)
Lemma linear_reduce_subsequence_witness :
  exists r s' log,
  linear_reduce (Observe.tap (logged (fun l => existsb (Nat.eqb 3) l))) 22
    [1; 2; 3; 4; 5] ([], []) = Some (r, (s', log)) /\
  r `sublist_of` [1; 2; 3; 4; 5] /\ Forall (fun c => c `sublist_of` [1; 2; 3; 4; 5]) log.
Proof.
  destruct (linear_reduce (Observe.tap (logged (fun l => existsb (Nat.eqb 3) l))) 22
              [1; 2; 3; 4; 5] ([], [])) as [[r [s' log]]|] eqn:Hrun.
  - exists r, s', log. split; [reflexivity|].
    exact (SequenceExtras.linear_reduce_subsequence _ 22 [1; 2; 3; 4; 5] [] r s' log Hrun).
  - vm_compute in Hrun. discriminate.
Defined.

(** Property X5, witness: [[1; 2; 3; 4; 5]] reduces to [[3]]. *)
Lemma linear_reduce_accepted_witness :
  exists calls', linear_reduce (logged (fun l => existsb (Nat.eqb 3) l)) 22 [1; 2; 3; 4; 5] [] =
                   Some ([3], calls') /\
  ([3] = [1; 2; 3; 4; 5] \/ existsb (Nat.eqb 3) [3] = true).
Proof.
  destruct (linear_reduce (logged (fun l => existsb (Nat.eqb 3) l)) 22 [1; 2; 3; 4; 5] [])
    as [[r calls']|] eqn:Hrun.
  - assert (r = [3]) as -> by (vm_compute in Hrun; congruence).
    exists calls'. split; [reflexivity|].
    exact (SequenceExtras.linear_reduce_accepted _ 22 [1; 2; 3; 4; 5] [] [3] calls' Hrun).
  - vm_compute in Hrun. discriminate.
Defined.

End SequenceExtrasExamples.

Module BracketExtrasExamples.
Import Bytes Brackets BracketNesting.

(** Property X6, witness: [b"(a(b)c)(d)"] with [b"()"]. *)
Lemma find_paired_brackets_nested_witness :
  find_paired_brackets (b "()") (b "(a(b)c)(d)") = Some [(2, 4); (0, 6); (7, 9)] /\
  forall p q, In p [(2, 4); (0, 6); (7, 9)] -> In q [(2, 4); (0, 6); (7, 9)] ->
    p = q \/ snd p < fst q \/ snd q < fst p \/
    (fst p < fst q /\ snd q < snd p) \/ (fst q < fst p /\ snd p < snd q).
Proof.
  split; [reflexivity|].
  apply (BracketExtras.find_paired_brackets_nested (b "()") (b "(a(b)c)(d)")).
  reflexivity.
Defined.

(** Property X7, witness: [b"(a(b)c))(d"], whose close byte at index 7
    and open byte at index 8 stay unmatched. *)
Lemma find_paired_brackets_balanced_witness :
  find_paired_brackets [Byte.x28; Byte.x29] (b "(a(b)c))(d") = Some [(2, 4); (0, 6)] /\
  forall i j, In (i, j) [(2, 4); (0, 6)] ->
    depth_between Byte.x28 Byte.x29 (b "(a(b)c))(d") i j = Some 0.
Proof.
  split; [reflexivity|].
  apply (BracketExtras.find_paired_brackets_balanced Byte.x28 Byte.x29 (b "(a(b)c))(d")).
  reflexivity.
Defined.

End BracketExtrasExamples.

Module PassExtrasExamples.
Import Bytes Engine Replace RemoveByte ReduceByBytes PrefixLines.

(** Property X10, witness: [remove_byte(13)] on [b"ab"]. *)
Lemma remove_byte_absent_witness :
  to_bs (Int 13) = Some [Byte.x0d] /\ ~ In Byte.x0d (b "ab") /\
  remove_byte (fun v => Nat.leb 1 (length v)) (Int 13)
    (mk_engine (b "ab") {[cache_key (b "ab") := true]}) =
  Some (false, mk_engine (b "ab") {[cache_key (b "ab") := true]}).
Proof.
  split; [reflexivity|]. split; [simpl; intros [H|[H|[]]]; discriminate|].
  apply (PassExtras.remove_byte_absent _ (Int 13) Byte.x0d); [reflexivity|].
  simpl. intros [H|[H|[]]]; discriminate.
Defined.

(** Property X11, witness: [remove_byte(13)] on [b"a\rb"]. *)
Lemma remove_byte_removes_witness :
  init (fun _ => true) [Byte.x61; Byte.x0d; Byte.x62] =
    Some (mk_engine [Byte.x61; Byte.x0d; Byte.x62]
            {[cache_key [Byte.x61; Byte.x0d; Byte.x62] := true]}) /\
  to_bs (Int 13) = Some [Byte.x0d] /\
  exists s', remove_byte (fun _ => true) (Int 13)
               (after (fun _ => true) (mk_engine [Byte.x61; Byte.x0d; Byte.x62]
                  {[cache_key [Byte.x61; Byte.x0d; Byte.x62] := true]}) []) = Some (true, s') /\
  current s' = [Byte.x61; Byte.x62] /\ ~ In Byte.x0d (current s').
Proof.
  split; [reflexivity|]. split; [reflexivity|].
  destruct (remove_byte (fun _ => true) (Int 13)
              (after (fun _ => true) (mk_engine [Byte.x61; Byte.x0d; Byte.x62]
                 {[cache_key [Byte.x61; Byte.x0d; Byte.x62] := true]}) []))
    as [[[|] s']|] eqn:Hrun; [|vm_compute in Hrun; discriminate|vm_compute in Hrun; discriminate].
  exists s'. split; [reflexivity|].
  destruct (PassExtras.remove_byte_removes (fun _ => true) [Byte.x61; Byte.x0d; Byte.x62]
           (mk_engine [Byte.x61; Byte.x0d; Byte.x62]
              {[cache_key [Byte.x61; Byte.x0d; Byte.x62] := true]})
           [] (Int 13) Byte.x0d s') as [Hcur Hnot];
    [reflexivity | reflexivity | vm_compute; reflexivity | exact Hrun |].
  split; [rewrite Hcur; reflexivity | exact Hnot].
Defined.

(** Property X13, witness: [b"abc"] with fuel 16. *)
Lemma reduce_by_bytes_terminates_witness :
  3 * length (b "abc") + 7 <= 16 /\
  exists s', reduce_by_bytes (fun v => Nat.leb 2 (length v)) 16
               (mk_engine (b "abc") {[cache_key (b "abc") := true]}) = Some s' /\
    sort_key_le (current s') (b "abc") = true.
Proof.
  split; [simpl; lia|].
  apply (PassExtras.reduce_by_bytes_terminates _
           (mk_engine (b "abc") {[cache_key (b "abc") := true]}) 16).
  simpl. lia.
Defined.

(** Property X15, witness: [b"ab c;d e"] with fuel 9. *)
Lemma prefix_lines_terminates_witness :
  length (b "ab c;d e") < 9 /\
  prefix_lines (fun v => Nat.leb 3 (length v)) 9
    (mk_engine (b "ab c;d e") {[cache_key (b "ab c;d e") := true]}) <> None.
Proof.
  split; [simpl; lia|].
  apply PassExtras.prefix_lines_terminates. simpl. lia.
Defined.

End PassExtrasExamples.

Module DeleteSetsExamples.
Import Bytes Engine DeleteSets ExampleInputs.

(** Property X16, witness: the singletons of [b"abcd"], keeping the values that contain [b]. *)
Lemma delete_many_sets_candidates_witness :
  exists r s' log,
  delete_many_sets (Observe.tap (predicate has_b)) 10 [[0]; [1]; [2]; [3]] (b "abcd")
    (engine_on has_b (b "abcd"), []) = Some (r, (s', log)) /\
  Forall (fun c => exists D, (forall x, In x D -> exists S, In S [[0]; [1]; [2]; [3]] /\ In x S) /\
                             c = keep_except (b "abcd") D) log.
Proof.
  destruct (delete_many_sets (Observe.tap (predicate has_b)) 10 [[0]; [1]; [2]; [3]] (b "abcd")
              (engine_on has_b (b "abcd"), [])) as [[r [s' log]]|] eqn:Hrun.
  - exists r, s', log. split; [reflexivity|].
    exact (DeleteSetsExtras.delete_many_sets_candidates _ 10 _ _ _ r s' log Hrun).
  - vm_compute in Hrun. discriminate.
Defined.

(** Property X17, witness: three sets over [b"abcd"] with fuel 8. *)
Lemma delete_many_sets_terminates_witness :
  length [[0]; [1; 2]; [3]] + 5 <= 8 /\
  exists r s', delete_many_sets (predicate has_b) 8 [[0]; [1; 2]; [3]] (b "abcd")
                 (engine_on has_b (b "abcd")) = Some (r, s').
Proof.
  split; [simpl; lia|].
  apply DeleteSetsExtras.delete_many_sets_terminates. simpl. lia.
Defined.

(** Property X18, witness: the sets [{5, 7}] and [{}] over [b"abc"]. *)
Lemma delete_many_sets_out_of_range_witness :
  (forall S x, In S [[5; 7]; []] -> In x S -> length (b "abc") <= x) /\
  delete_many_sets (predicate has_b) 0 [[5; 7]; []] (b "abc") (engine_on has_b (b "abc")) =
    Some (true, engine_on has_b (b "abc")).
Proof.
  assert (H : forall S x, In S [[5; 7]; []] -> In x S -> length (b "abc") <= x).
  { intros S x [<- | [<- | []]] Hx; simpl in Hx; [|destruct Hx].
    destruct Hx as [<- | [<- | []]]; simpl; lia. }
  split; [exact H|].
  exact (DeleteSetsExtras.delete_many_sets_out_of_range _ 0 _ _ _ H).
Defined.

(** Property X19, witness: the singletons of [b"abcd"]. *)
Lemma attempt_delete_many_sets_le_witness :
  exists r s', attempt_delete_many_sets has_b 10 [[0]; [1]; [2]; [3]] (engine_on has_b (b "abcd")) =
                 Some (r, s') /\
    sort_key_le (current s') (b "abcd") = true.
Proof.
  destruct (attempt_delete_many_sets has_b 10 [[0]; [1]; [2]; [3]] (engine_on has_b (b "abcd")))
    as [[r s']|] eqn:Hrun.
  - exists r, s'. split; [reflexivity|].
    exact (DeleteSetsExtras.attempt_delete_many_sets_le _ 10 _ _ r s' Hrun).
  - vm_compute in Hrun. discriminate.
Defined.

(** Property X20, witness: the single quotes of [b"x'ab'c'db'"]. *)
Lemma kill_quote_keeps_quotes_witness :
  exists s' log,
  kill_quote (Observe.tap (predicate has_b)) (fun st => current (fst st)) 10 Byte.x27
    (engine_on has_b (b "x'ab'c'db'"), []) = Some (s', log) /\
  Forall (fun v => List.filter (fun d => Byte.eqb d Byte.x27) v =
                   List.filter (fun d => Byte.eqb d Byte.x27) (b "x'ab'c'db'")) log.
Proof.
  destruct (kill_quote (Observe.tap (predicate has_b)) (fun st => current (fst st)) 10 Byte.x27
              (engine_on has_b (b "x'ab'c'db'"), [])) as [[s' log]|] eqn:Hrun.
  - exists s', log. split; [reflexivity|].
    exact (DeleteSetsExtras.kill_quote_keeps_quotes _ current 10 Byte.x27 _ s' log Hrun).
  - vm_compute in Hrun. discriminate.
Defined.

(** Property X21, witness: the parentheses of [b"(a(b)c)(d)"]. *)
Lemma debracket_one_deletes_brackets_witness :
  exists s' log,
  debracket_one (Observe.tap (predicate has_b)) (fun st => current (fst st)) 10
    [Byte.x28; Byte.x29] (engine_on has_b (b "(a(b)c)(d)"), []) = Some (s', log) /\
  Forall (fun v =>
    List.filter (fun d => negb (Byte.eqb d Byte.x28 || Byte.eqb d Byte.x29)) v =
    List.filter (fun d => negb (Byte.eqb d Byte.x28 || Byte.eqb d Byte.x29))
      (b "(a(b)c)(d)")) log.
Proof.
  destruct (debracket_one (Observe.tap (predicate has_b)) (fun st => current (fst st)) 10
              [Byte.x28; Byte.x29] (engine_on has_b (b "(a(b)c)(d)"), [])) as [[s' log]|] eqn:Hrun.
  - exists s', log. split; [reflexivity|].
    exact (DeleteSetsExtras.debracket_one_deletes_brackets _ current 10 Byte.x28 Byte.x29
             _ s' log Hrun).
  - vm_compute in Hrun. discriminate.
Defined.

End DeleteSetsExamples.

Module MorePassesExamples.
Import Bytes Engine Delimiter DeleteSets MorePasses ExampleInputs.

(** Property X22, witness: [b";"] on [b"a;b;;c"] with fuel 28. *)
Lemma reduce_by_delimiter_ends_le_witness :
  3 * length (b "a;b;;c") + 10 <= 28 /\
  (reduce_by_delimiter (fun v => Nat.leb 1 (length v)) 28 Byte.x3b
     (engine_on (fun v => Nat.leb 1 (length v)) (b "a;b;;c")) = Raised \/
   exists changed s', reduce_by_delimiter (fun v => Nat.leb 1 (length v)) 28 Byte.x3b
     (engine_on (fun v => Nat.leb 1 (length v)) (b "a;b;;c")) = Done changed s' /\
     sort_key_le (current s') (b "a;b;;c") = true).
Proof.
  split; [simpl; lia|].
  apply (MorePassesExtras.reduce_by_delimiter_ends_le _ 28 Byte.x3b
           (engine_on (fun v => Nat.leb 1 (length v)) (b "a;b;;c"))).
  simpl. lia.
Defined.

(** Property X23, witness: [b"ab;a"] with fuel 22. *)
Lemma reduce_by_all_delimiters_ends_le_witness :
  3 * length (b "ab;a") + 10 <= 22 /\
  (reduce_by_all_delimiters (fun v => existsb (Byte.eqb Byte.x62) v) 22
     (engine_on (fun v => existsb (Byte.eqb Byte.x62) v) (b "ab;a")) = PassRaised \/
   exists s', reduce_by_all_delimiters (fun v => existsb (Byte.eqb Byte.x62) v) 22
     (engine_on (fun v => existsb (Byte.eqb Byte.x62) v) (b "ab;a")) = PassDone s' /\
     sort_key_le (current s') (b "ab;a") = true).
Proof.
  split; [simpl; lia|].
  apply (MorePassesExtras.reduce_by_all_delimiters_ends_le _ 22
           (engine_on (fun v => existsb (Byte.eqb Byte.x62) v) (b "ab;a"))).
  simpl. lia.
Defined.

(** Property X24, witness: [b"x'ab'c"] with fuel 11. *)
Lemma kill_strings_ends_le_witness :
  length (b "x'ab'c") + 5 <= 11 /\
  exists s', kill_strings (fun v => Nat.leb 2 (length v)) 11
               (engine_on (fun v => Nat.leb 2 (length v)) (b "x'ab'c")) = Some s' /\
    sort_key_le (current s') (b "x'ab'c") = true.
Proof.
  split; [simpl; lia|].
  apply (MorePassesExtras.kill_strings_ends_le _ 11
           (engine_on (fun v => Nat.leb 2 (length v)) (b "x'ab'c"))).
  simpl. lia.
Defined.

(** Property X25, witness: [b"(a(b)c)"] with fuel 12. *)
Lemma debracket_ends_le_witness :
  length (b "(a(b)c)") + 5 <= 12 /\
  exists s', debracket (fun v => existsb (Byte.eqb Byte.x62) v) 12
               (engine_on (fun v => existsb (Byte.eqb Byte.x62) v) (b "(a(b)c)")) = Some s' /\
    sort_key_le (current s') (b "(a(b)c)") = true.
Proof.
  split; [simpl; lia|].
  apply (MorePassesExtras.debracket_ends_le _ 12
           (engine_on (fun v => existsb (Byte.eqb Byte.x62) v) (b "(a(b)c)"))).
  simpl. lia.
Defined.

(** Property X26, witness: [b"{a(b)c}"] with fuel 31. *)
Lemma delete_bracket_contents_ends_le_witness :
  3 * length (b "{a(b)c}") + 10 <= 31 /\
  (delete_bracket_contents (fun v => existsb (Byte.eqb Byte.x62) v) 31
     (engine_on (fun v => existsb (Byte.eqb Byte.x62) v) (b "{a(b)c}")) = PassRaised \/
   exists s', delete_bracket_contents (fun v => existsb (Byte.eqb Byte.x62) v) 31
     (engine_on (fun v => existsb (Byte.eqb Byte.x62) v) (b "{a(b)c}")) = PassDone s' /\
     sort_key_le (current s') (b "{a(b)c}") = true).
Proof.
  split; [simpl; lia|].
  apply (MorePassesExtras.delete_bracket_contents_ends_le _ 31
           (engine_on (fun v => existsb (Byte.eqb Byte.x62) v) (b "{a(b)c}"))).
  simpl. lia.
Defined.

End MorePassesExamples.
